(** * MARC-PROCESSOR: the 852 $p repair of [app.py], embedded and verified

    The development follows [app.py] function by function:

    - Python's [str] is a list of characters, a character is its Unicode
      code point.  The classes [\s] and [\d] of [re], [str.isspace] and
      the line boundaries of [str.splitlines] are the ones of CPython 3.11
      (Unicode 14).
    - Python's [int] is [Z].  The functions are written first for an
      interpreter without limits; [Limited] has them again with the two
      limits of CPython that make [app.py] raise: the limit on the digits
      of a conversion between [int] and [str], and the largest size of a
      list.  Memory is unbounded throughout.
    - An operation that can raise ([l[i]], [max([])], [int(s)], [d[k]],
      [s.split('')]) returns a [result]; the functions of [app.py] that
      use them are written in the error monad.
    - The regular expressions of [app.py] are sequences of literal
      characters and greedy repetitions of a character class, with at most
      one capture group; [rmatch] is the backtracking matcher for that
      fragment and [scan] the left-to-right search loop shared by
      [re.finditer], [re.findall], [re.search] and [re.sub].
    - The dictionary [missing_fields] is a [gmap nat (list Z)]. *)

From Stdlib Require Import Ascii String ZArith DecimalString.
From Stdlib Require DecimalPos.
From stdpp Require Import base option list sorting gmap.

Local Open Scope Z_scope.
Local Open Scope nat_scope.

(** ** Python values *)

Abbreviation char := N.
Abbreviation str := (list char).

(** The number of a list of bits, lowest bit first. *)
Fixpoint bits_value (bits : list bool) : N :=
  match bits with
  | [] => 0%N
  | b :: bits' =>
      match bits_value bits' with
      | N0 => if b then 1%N else 0%N
      | Npos p => Npos (if b then p~1 else p~0)%positive
      end
  end.

(** The code point of an ASCII character, and an ASCII literal as [str]. *)
Definition ch (c : ascii) : char :=
  let '(Ascii b0 b1 b2 b3 b4 b5 b6 b7) := c in
  bits_value [b0; b1; b2; b3; b4; b5; b6; b7].
Definition lit (s : string) : str := ch <$> list_ascii_of_string s.

Inductive exn := IndexError | ValueError | KeyError | OverflowError.

Inductive result (A : Type) : Type :=
  | Ok (a : A)
  | Raise (e : exn).
Arguments Ok {A} a.
Arguments Raise {A} e.

#[global] Instance result_ret : MRet result := λ A a, Ok a.
#[global] Instance result_bind : MBind result := λ A B f r,
  match r with
  | Ok a => f a
  | Raise e => Raise e
  end.

(** [for x in xs: st = body x st], stopping at the first exception. *)
Fixpoint for_ {A S : Type} (xs : list A) (st : S) (body : A → S → result S)
  : result S :=
  match xs with
  | [] => Ok st
  | x :: xs' => st' ← body x st; for_ xs' st' body
  end.

(** ** Character classes *)

(** [str.isspace], which is also the class [\s] of [re]. *)
Definition is_space (c : char) : bool :=
  (((9 <=? c) && (c <=? 13)) || ((28 <=? c) && (c <=? 32))
   || (c =? 133) || (c =? 160) || (c =? 5760)
   || ((8192 <=? c) && (c <=? 8202)) || (c =? 8232) || (c =? 8233)
   || (c =? 8239) || (c =? 8287) || (c =? 12288))%N.

(** The code points of the digit zero of every decimal script; the digits
    one to nine of a script follow its zero. *)
Definition decimal_zeros : list N :=
  [48; 1632; 1776; 1984; 2406; 2534; 2662; 2790; 2918; 3046; 3174; 3302;
   3430; 3558; 3664; 3792; 3872; 4160; 4240; 6112; 6160; 6470; 6608; 6784;
   6800; 6992; 7088; 7232; 7248; 42528; 43216; 43264; 43472; 43504; 43600;
   44016; 65296; 66720; 68912; 69734; 69872; 69942; 70096; 70384; 70736;
   70864; 71248; 71360; 71472; 71904; 72016; 72784; 73040; 73120; 92768;
   92864; 93008; 120782; 120792; 120802; 120812; 120822; 123200; 123632;
   125264; 130032]%N.

Definition digit_zero (c : char) : option N :=
  find (λ z, (z <=? c) && (c <? z + 10))%N decimal_zeros.

(** The class [\d] of [re]: the decimal digits of Unicode. *)
Definition is_digit (c : char) : bool :=
  match digit_zero c with
  | Some _ => true
  | None => false
  end.

(** The line boundaries of [str.splitlines]: LF, VT, FF, CR, FS, GS, RS,
    NEL, LS, PS. *)
Definition is_linebreak (c : char) : bool :=
  (((10 <=? c) && (c <=? 13)) || ((28 <=? c) && (c <=? 30)) || (c =? 133)
   || (c =? 8232) || (c =? 8233))%N.

Definition LF : char := 10%N.
Definition CR : char := 13%N.

(** ** [str] methods *)

Fixpoint startswith (s p : str) {struct p} : bool :=
  match p, s with
  | [], _ => true
  | c :: p', d :: s' => if decide (d = c) then startswith s' p' else false
  | _ :: _, [] => false
  end.

Fixpoint lstrip (s : str) : str :=
  match s with
  | c :: s' => if is_space c then lstrip s' else s
  | [] => []
  end.

Definition rstrip (s : str) : str := reverse (lstrip (reverse s)).

Definition strip (s : str) : str := rstrip (lstrip s).

(** [sep.join(l)] *)
Fixpoint str_join (sep : str) (l : list str) : str :=
  match l with
  | [] => []
  | [x] => x
  | x :: l' => x ++ sep ++ str_join sep l'
  end.

(** [s.split(sep)]: the parts between the non-overlapping occurrences of
    [sep], found left to right.  [skip] counts the characters of the
    separator just found that are still to be passed over; the head of the
    result is the part being read. *)
Fixpoint split_go (sep : str) (skip : nat) (s : str) : list str :=
  match s with
  | [] => [[]]
  | c :: s' =>
      match skip with
      | S k => split_go sep k s'
      | 0 =>
          if startswith s sep then [] :: split_go sep (length sep - 1) s'
          else match split_go sep 0 s' with
               | p :: ps => (c :: p) :: ps
               | [] => [[c]]
               end
      end
  end.

Definition str_split (s sep : str) : result (list str) :=
  match sep with
  | [] => Raise ValueError
  | _ :: _ => Ok (split_go sep 0 s)
  end.

(** [s.splitlines()]: CR LF is one boundary, and a final boundary does not
    open an empty last line. *)
Fixpoint splitlines (s : str) : list str :=
  match s with
  | [] => []
  | c :: s' =>
      if is_linebreak c then
        [] :: (if decide (c = CR) then
                 match s' with
                 | d :: s'' => if decide (d = LF) then splitlines s''
                               else splitlines s'
                 | [] => splitlines s'
                 end
               else splitlines s')
      else match splitlines s' with
           | l :: ls => (c :: l) :: ls
           | [] => [[c]]
           end
  end.

(** ** Built-ins on lists and integers *)

(** [l[i]] *)
Definition index {A : Type} (l : list A) (i : nat) : result A :=
  match l !! i with
  | Some x => Ok x
  | None => Raise IndexError
  end.

(** [l[i] = x] *)
Definition setitem {A : Type} (l : list A) (i : nat) (x : A) : result (list A) :=
  if decide (i < length l) then Ok (<[i:=x]> l) else Raise IndexError.

(** [d[k]] *)
Definition getitem (d : gmap nat (list Z)) (k : nat) : result (list Z) :=
  match d !! k with
  | Some v => Ok v
  | None => Raise KeyError
  end.

Definition py_max (l : list Z) : result Z :=
  match l with
  | [] => Raise ValueError
  | x :: l' => Ok (foldl Z.max x l')
  end.

Definition py_min (l : list Z) : result Z :=
  match l with
  | [] => Raise ValueError
  | x :: l' => Ok (foldl Z.min x l')
  end.

(** [sorted(l)] on integers and on dictionary keys *)
Definition sorted (l : list Z) : list Z := merge_sort Z.le l.
Definition sorted_keys (l : list nat) : list nat := merge_sort le l.

(** [range(n)] and [list(range(a, b))], of any length; [Limited.list_range]
    has the limit on the size of a list. *)
Definition range (n : nat) : list nat := seq 0 n.
Definition range_from (a b : Z) : list Z :=
  (λ k, (a + Z.of_nat k)%Z) <$> seq 0 (Z.to_nat (b - a)).

(** [enumerate(l)] *)
Definition enumerate {A : Type} (l : list A) : list (nat * A) :=
  zip (seq 0 (length l)) l.

Definition digit_value (c : char) : Z :=
  match digit_zero c with
  | Some z => Z.of_N (c - z)
  | None => 0%Z
  end.

Fixpoint int_digits (acc : Z) (s : str) : result Z :=
  match s with
  | [] => Ok acc
  | c :: s' =>
      if is_digit c then int_digits (10 * acc + digit_value c)%Z s'
      else Raise ValueError
  end.

(** [int(s)] on the strings [app.py] gives it, runs of decimal digits; the
    model raises on every other string.  The run can be of any length;
    [Limited.int] has the limit on the number of digits. *)
Definition int (s : str) : result Z :=
  match s with
  | [] => Raise ValueError
  | _ :: _ => int_digits 0%Z s
  end.

(** [str(n)], as in the f-string [f'$p{missing_p}'], for a number of any
    size; [Limited.str_of_int] has the limit on the number of digits. *)
Definition str_of_int (n : Z) : str :=
  lit (NilZero.string_of_int (Z.to_int n)).

(** ** The [re] fragment of [app.py] *)

Inductive atom :=
  | Chr (c : ascii)            (* a literal ASCII character *)
  | Star (p : char → bool)     (* [cls*], greedy *)
  | Plus (p : char → bool)     (* [cls+], greedy *)
  | Open                       (* [(] of group 1 *)
  | Close.                     (* [)] of group 1 *)

Abbreviation regex := (list atom).

(** Greedy repetition of the class [p] before the continuation [k]: the
    longest run is tried first, then every shorter one. *)
Fixpoint greedy (p : char → bool) (k : str → option (list str)) (s : str)
  : option (str * list str) :=
  let here := pair [] <$> k s in
  match s with
  | c :: s' =>
      if p c then
        match greedy p k s' with
        | Some (seg, segs) => Some (c :: seg, segs)
        | None => here
        end
      else here
  | [] => here
  end.

(** [rmatch r s]: the match of [r] at the start of [s] that the backtracking
    matcher finds first, as the list of the pieces of text taken by each
    atom of [r]. *)
Fixpoint rmatch (r : regex) (s : str) : option (list str) :=
  match r with
  | [] => Some []
  | Chr c :: r' =>
      match s with
      | d :: s' => if decide (d = ch c) then cons [d] <$> rmatch r' s' else None
      | [] => None
      end
  | Star p :: r' => (λ m, m.1 :: m.2) <$> greedy p (rmatch r') s
  | Plus p :: r' =>
      match s with
      | c :: s' =>
          if p c then (λ m, (c :: m.1) :: m.2) <$> greedy p (rmatch r') s'
          else None
      | [] => None
      end
  | Open :: r' => cons [] <$> rmatch r' s
  | Close :: r' => cons [] <$> rmatch r' s
  end.

(** [m.group(0)] *)
Definition group0 (m : list str) : str := concat m.

(** [m.group(1)]: the text taken by the atoms between [Open] and [Close]. *)
Fixpoint group1_from (inside : bool) (r : regex) (m : list str) : str :=
  match r, m with
  | Open :: r', _ :: m' => group1_from true r' m'
  | Close :: _, _ => []
  | _ :: r', seg :: m' => (if inside then seg else []) ++ group1_from inside r' m'
  | _, _ => []
  end.

Definition group1 (r : regex) (m : list str) : str := group1_from false r m.

Inductive chunk :=
  | Unmatched (c : char)
  | Matched (m : list str).

(** The search loop: a match is looked for at each position from left to
    right, and after a match the search resumes at its end.  [skip] counts
    the characters of the last match still to be passed over. *)
Fixpoint scan (r : regex) (skip : nat) (s : str) : list chunk :=
  match s with
  | [] =>
      match skip, rmatch r [] with
      | 0, Some m => [Matched m]
      | _, _ => []
      end
  | c :: s' =>
      match skip with
      | S k => scan r k s'
      | 0 =>
          match rmatch r s with
          | Some m =>
              match length (group0 m) with
              | 0 => Matched m :: Unmatched c :: scan r 0 s'
              | S k => Matched m :: scan r k s'
              end
          | None => Unmatched c :: scan r 0 s'
          end
      end
  end.

Definition matches (cs : list chunk) : list (list str) :=
  omap (λ piece, match piece with Matched m => Some m | Unmatched _ => None end)
    cs.

Definition finditer (r : regex) (s : str) : list (list str) :=
  matches (scan r 0 s).

Definition search (r : regex) (s : str) : option (list str) :=
  head (finditer r s).

(** [re.sub(r, repl, s)] for a replacement without backslashes. *)
Definition sub (r : regex) (repl : str) (s : str) : str :=
  concat ((λ piece, match piece with Matched _ => repl | Unmatched c => [c] end)
            <$> scan r 0 s).

(** ** [app.py] *)

Definition LDR : str := lit "=LDR".

(** The pattern "=852\s+[^$]*\$p(\d+)" of [get_p_values]. *)
Definition re_p_value : regex :=
  [Chr "="; Chr "8"; Chr "5"; Chr "2"; Plus is_space;
   Star (λ c, negb (bool_decide (c = ch "$")));
   Chr "$"; Chr "p"; Open; Plus is_digit; Close].

(** The pattern of [get_852_field_template]: "=852\s+[^\n]*", all of it
    group 1. *)
Definition re_852_line : regex :=
  [Open; Chr "="; Chr "8"; Chr "5"; Chr "2"; Plus is_space;
   Star (λ c, negb (bool_decide (c = LF))); Close].

(** The pattern "\$p\d+" of [add_missing_852_fields]. *)
Definition re_p_subfield : regex := [Chr "$"; Chr "p"; Plus is_digit].

(** The pattern "=852" of [get_processing_stats]. *)
Definition re_852 : regex := [Chr "="; Chr "8"; Chr "5"; Chr "2"].

Definition get_p_values (text : str) : result (list Z) :=
  vs ← mapM (λ m, int (group1 re_p_value m)) (finditer re_p_value text);
  Ok (sorted vs).

Fixpoint get_852_field_template (records : list str) : option str :=
  match records with
  | [] => None
  | record :: rest =>
      match search re_852_line record with
      | Some m => Some (group1 re_852_line m)
      | None => get_852_field_template rest
      end
  end.

(** The markers of a record: what [get_p_values] returns for it. *)
Definition markers (record : str) : list Z :=
  match get_p_values record with
  | Ok p_values => p_values
  | Raise _ => []
  end.

(** First loop of [find_missing_852_fields]: all existing p values. *)
Definition collect_p_values (records : list str) : result (list Z) :=
  for_ records [] (λ record all_p_values,
    p_values ← get_p_values record;
    Ok (all_p_values ++ p_values)).

(** Body of the second loop: a record without 852 field. *)
Definition missing_record_step (records : list str) (all_p_values : list Z)
    (ir : nat * str) (missing_fields : gmap nat (list Z))
  : result (gmap nat (list Z)) :=
  let '(i, record) := ir in
  current_p_values ← get_p_values record;
  match current_p_values with
  | _ :: _ => Ok missing_fields
  | [] =>
      if decide (i = 0) then
        match all_p_values with
        | _ :: _ =>
            first ← index all_p_values 0;
            Ok (<[i := [first]]> missing_fields)
        | [] => Ok missing_fields
        end
      else
        prev_records_p_values ←
          for_ (range i) [] (λ j prev,
            rj ← index records j;
            ps ← get_p_values rj;
            Ok (prev ++ ps));
        match prev_records_p_values, all_p_values with
        | _ :: _, _ =>
            top ← py_max prev_records_p_values;
            Ok (<[i := [(top + 1)%Z]]> missing_fields)
        | [], _ :: _ =>
            first ← index all_p_values 0;
            Ok (<[i := [first]]> missing_fields)
        | [], [] => Ok missing_fields
        end
  end.

(** Body of the third loop: a gap between consecutive records. *)
Definition gap_step (records : list str) (i : nat)
    (missing_fields : gmap nat (list Z)) : result (gmap nat (list Z)) :=
  ri ← index records i;
  current_p_values ← get_p_values ri;
  rn ← index records (i + 1);
  next_p_values ← get_p_values rn;
  match current_p_values, next_p_values with
  | _ :: _, _ :: _ =>
      last_p ← py_max current_p_values;
      first_next_p ← py_min next_p_values;
      let missing := range_from (last_p + 1) first_next_p in
      match missing with
      | _ :: _ =>
          match missing_fields !! i with
          | Some old => Ok (<[i := old ++ missing]> missing_fields)
          | None => Ok (<[i := missing]> missing_fields)
          end
      | [] => Ok missing_fields
      end
  | _, _ => Ok missing_fields
  end.

(** Second loop (rule A): records that have no 852 field. *)
Definition check_missing_records (records : list str) (all_p_values : list Z)
  : result (gmap nat (list Z)) :=
  for_ (enumerate records) ∅ (missing_record_step records all_p_values).

(** Third loop (rule B): gaps between consecutive records. *)
Definition check_gaps (records : list str) (missing_fields : gmap nat (list Z))
  : result (gmap nat (list Z)) :=
  for_ (range (length records - 1)) missing_fields (gap_step records).

Definition find_missing_852_fields (records : list str)
  : result (gmap nat (list Z)) :=
  all_p_values ← collect_p_values records;
  match all_p_values with
  | [] => Ok ∅
  | _ :: _ =>
      let all_p_values := sorted (remove_dups all_p_values) in
      missing_fields ← check_missing_records records all_p_values;
      check_gaps records missing_fields
  end.

(** The scan for the insertion point; [i] is the index of the head of
    [lines], and reaching an inner [=LDR] line is the [break]. *)
Fixpoint find_insert_index (i : nat) (lines : list str) (insert_index : nat)
  : nat :=
  match lines with
  | [] => insert_index
  | line :: rest =>
      if startswith line (lit "=653") then find_insert_index (S i) rest (i + 1)
      else if startswith line (lit "=LDR") && bool_decide (0 < i) then i
      else find_insert_index (S i) rest insert_index
  end.

(** The new 852 field for one missing p value. *)
Definition new_852 (template_852 : str) (missing_p : Z) : str :=
  sub re_p_subfield (lit "$p" ++ str_of_int missing_p) template_852.

Definition add_missing_852_fields (record : str) (missing_values : list Z)
    (template_852 : option str) : str :=
  match missing_values, template_852 with
  | [], _ | _, None | _, Some [] => record
  | _ :: _, Some template =>
      let lines := splitlines record in
      let insert_index := find_insert_index 0 lines (length lines) in
      let new_lines :=
        foldl (λ new_lines missing_p, new_lines ++ [new_852 template missing_p])
              (take insert_index lines) missing_values in
      str_join [LF] (new_lines ++ drop insert_index lines)
  end.

(** The record list built at the start of [process_marc_records]. *)
Definition split_records (input_text : str) : result (list str) :=
  parts ← str_split (strip input_text) LDR;
  first ← index parts 0;
  let records := match strip first with [] => [] | _ :: _ => [strip first] end in
  Ok (foldl (λ records part,
               match strip part with
               | [] => records
               | _ :: _ => records ++ [LDR ++ part]
               end) records (drop 1 parts)).

(** Body of the loop of [process_marc_records] that adds the missing
    fields to one record. *)
Definition add_fields_step (missing_fields : gmap nat (list Z))
    (template_852 : str) (record_index : nat) (records : list str)
  : result (list str) :=
  record ← index records record_index;
  missing_values ← getitem missing_fields record_index;
  setitem records record_index
    (add_missing_852_fields record missing_values (Some template_852)).

Definition process_marc_records (input_text : str) : result str :=
  records ← split_records input_text;
  match records with
  | [] => Ok input_text
  | _ :: _ =>
      match get_852_field_template records with
      | None | Some [] => Ok input_text
      | Some template_852 =>
          missing_fields ← find_missing_852_fields records;
          records ←
            for_ (sorted_keys (map_to_list missing_fields).*1) records
              (add_fields_step missing_fields template_852);
          Ok (str_join [LF; LF] records)
      end
  end.

Record stats := {
  original_records : Z;
  processed_records : Z;
  original_852_fields : Z;
  processed_852_fields : Z;
  added_fields : Z
}.

Definition count_records (text : str) : result Z :=
  parts ← str_split text ([LF; LF] ++ LDR);
  Ok (Z.of_nat (length (filter (λ r, strip r ≠ []) parts))).

Definition count_852 (text : str) : Z :=
  Z.of_nat (length (finditer re_852 text)).

Definition get_processing_stats (original_text processed_text : str)
  : result stats :=
  original_records ← count_records original_text;
  processed_records ← count_records processed_text;
  let original_852_count := count_852 original_text in
  let processed_852_count := count_852 processed_text in
  Ok {| original_records := original_records;
        processed_records := processed_records;
        original_852_fields := original_852_count;
        processed_852_fields := processed_852_count;
        added_fields := (processed_852_count - original_852_count)%Z |}.

(** ** Vocabulary of the statements *)

(** The record list [process_marc_records] works on. *)
Definition records_of (input_text : str) : list str :=
  match split_records input_text with
  | Ok records => records
  | Raise _ => []
  end.

(** The dictionary [find_missing_852_fields] returns. *)
Definition missing_of (records : list str) : gmap nat (list Z) :=
  match find_missing_852_fields records with
  | Ok m => m
  | Raise _ => ∅
  end.

(** All markers of the batch, and those of the records before record [i]. *)
Definition batch_markers (records : list str) : list Z :=
  concat (markers <$> records).

Definition prior_markers (records : list str) (i : nat) : list Z :=
  concat (markers <$> take i records).

Definition is_smallest (v : Z) (l : list Z) : Prop :=
  v ∈ l ∧ Forall (λ w, (v ≤ w)%Z) l.

Definition is_largest (v : Z) (l : list Z) : Prop :=
  v ∈ l ∧ Forall (λ w, (w ≤ v)%Z) l.

(** [s] is empty or starts with a character outside the class [p]. *)
Definition not_headed (p : char → bool) (s : str) : Prop :=
  match s with
  | c :: _ => p c = false
  | [] => True
  end.

(** An 852 field as [get_p_values] reads it: the header, white space
    [ws], a text [mid] without dollar sign, then "$p" and the digits
    [ds]. *)
Definition p_field (ws mid ds : str) : str :=
  lit "=852" ++ ws ++ mid ++ lit "$p" ++ ds.

Record p_field_ok (ws mid ds : str) : Prop := {
  ws_nonempty : ws ≠ [];
  ws_space : Forall (λ c, is_space c = true) ws;
  mid_no_dollar : Forall (λ c, c ≠ (ch "$")) mid;
  ds_nonempty : ds ≠ [];
  ds_digits : Forall (λ c, is_digit c = true) ds
}.

(** Line [i] begins with the subject-heading tag. *)
Definition subject_line (lines : list str) (i : nat) : Prop :=
  ∃ line, lines !! i = Some line ∧ startswith line (lit "=653") = true.

(** Line [i], not the first one, begins with the record-start marker. *)
Definition inner_record_start (lines : list str) (i : nat) : Prop :=
  0 < i ∧ ∃ line, lines !! i = Some line ∧ startswith line (lit "=LDR") = true.

(** A text given line by line. *)
Definition nl (l : list string) : str := str_join [LF] (lit <$> l).

(** ** Sample batches *)

Definition record_1 : str := nl ["=LDR a"; "=852  \\$p1"; ""]%string.
Definition record_none : str := nl ["=LDR b"; "=245  t"; ""]%string.
Definition record_3 : str := nl ["=LDR c"; "=852  \\$p3"]%string.
Definition record_1_2 : str :=
  nl ["=LDR a"; "=852  \\$p1"; "=852  \\$p2"; ""]%string.
Definition record_5_6 : str :=
  nl ["=LDR b"; "=852  \\$p5"; "=852  \\$p6"]%string.

(** Records with markers 1, none, 3. *)
Definition mid_batch_gap : list str := [record_1; record_none; record_3].

(** Records with markers 1, 2 and 5, 6. *)
Definition adjacent_gap : list str := [record_1_2; record_5_6].

(** Two records with markers 1 and 2, separated by a blank line. *)
Definition two_clean_records : str :=
  nl ["=LDR a"; "=852  $p1"; ""; "=LDR b"; "=852  $p2"]%string.

(** Markers 1, none, none, 5. *)
Definition gap_run : str :=
  nl ["=LDR a"; "=852  $p1"; "=LDR b"; "=LDR c"; "=LDR d"; "=852  $p5"]%string.

(** Two records with an 852 field that has no $p sub-field. *)
Definition no_marker_batch : str :=
  nl ["=LDR a"; "=852  x"; ""; "=LDR b"]%string.

(** A record with subject headings followed by another line. *)
Definition subject_record : str :=
  nl ["=LDR a"; "=653  x"; "=653  y"; "=700  z"]%string.

(** ** Closed forms used in the proofs *)

(** The value of a run of digits. *)
Fixpoint digits_val (acc : Z) (s : str) : Z :=
  match s with
  | [] => acc
  | c :: s' => digits_val (10 * acc + digit_value c)%Z s'
  end.

(** [get_p_values] without the error monad. *)
Definition p_values (text : str) : list Z :=
  sorted ((λ m, digits_val 0 (group1 re_p_value m)) <$> finditer re_p_value text).

Definition no_dollar (c : char) : bool := negb (bool_decide (c = (ch "$"))).

(** The value rule A gives to record [i]. *)
Definition rule_a_value (records : list str) (first : Z) (i : nat) : Z :=
  if decide (i = 0) then first
  else match prior_markers records i with
       | [] => first
       | x :: l => (foldl Z.max x l + 1)%Z
       end.

Definition rule_a_pure (records : list str) (first : Z)
    (m : gmap nat (list Z)) (ir : nat * str) : gmap nat (list Z) :=
  match markers ir.2 with
  | [] => <[ir.1 := [rule_a_value records first ir.1]]> m
  | _ :: _ => m
  end.

(** The entry of record [i] after rule B, from its entry [old] before. *)
Definition gap_value (records : list str) (i : nat) (old : option (list Z))
  : option (list Z) :=
  match records !! i, records !! (i + 1) with
  | Some r, Some r' =>
      match markers r, markers r' with
      | x :: l, y :: l' =>
          match range_from (foldl Z.max x l + 1) (foldl Z.min y l') with
          | [] => old
          | missing => Some (default [] old ++ missing)
          end
      | _, _ => old
      end
  | _, _ => old
  end.

Definition gap_pure (records : list str) (m : gmap nat (list Z)) (i : nat)
  : gmap nat (list Z) :=
  match gap_value records i (m !! i) with
  | Some v => <[i := v]> m
  | None => m
  end.

(** The records after the loop over [keys]: record [j] gets the fields of
    [m !! j]. *)
Definition patched (m : gmap nat (list Z)) (template_852 : str)
    (keys : list nat) (records : list str) : list str :=
  imap (λ j r,
          match m !! j with
          | Some vs =>
              if decide (j ∈ keys)
              then add_missing_852_fields r vs (Some template_852) else r
          | None => r
          end) records.

(** The records after all missing fields are added. *)
Definition repaired (m : gmap nat (list Z)) (template_852 : str)
    (records : list str) : list str :=
  imap (λ j r,
          match m !! j with
          | Some vs => add_missing_852_fields r vs (Some template_852)
          | None => r
          end) records.

Definition TAG : str := lit "=852".

(** The number of positions of [s] at which "=852" starts. *)
Fixpoint occ (s : str) : nat :=
  match s with
  | [] => 0
  | c :: s' => (if startswith s TAG then 1 else 0) + occ s'
  end.

Definition total_occ (l : list str) : nat := sum_list_with occ l.

(** A text whose first character cannot continue a header begun before it. *)
Definition breaks_tag (b : str) : Prop :=
  match b with
  | [] => True
  | c :: _ => c ≠ (ch "8") ∧ c ≠ (ch "5") ∧ c ≠ (ch "2")
  end.

(** ** Vocabulary of the further properties *)

(** [s] begins with an 852 header followed by white space: the pattern of
    [get_852_field_template] matches at the start of [s]. *)
Definition field_start (s : str) : Prop :=
  ∃ c rest, s = lit "=852" ++ c :: rest ∧ is_space c = true.

Definition has_852_field (record : str) : Prop :=
  ∃ pre rest, record = pre ++ rest ∧ field_start rest.

(** [sep] occurs in [s]. *)
Definition occurs (sep s : str) : Prop := ∃ pre post, s = pre ++ sep ++ post.

(** [s] begins with "$p" and a digit: the pattern of the substitution in
    [add_missing_852_fields] matches at the start of [s]. *)
Definition marker_start (s : str) : Prop :=
  ∃ d rest, s = lit "$p" ++ d :: rest ∧ is_digit d = true.

(** The number of values in the dictionary. *)
Definition assigned_values (m : gmap nat (list Z)) : nat :=
  sum_list_with (λ kv, length kv.2) (map_to_list m).

(** "=LDR" occurs in [s] at its start only, if at all. *)
Definition LDR_at_start_only (s : str) : Prop :=
  ∀ pre post, s = pre ++ LDR ++ post → pre = [].

(** A batch whose first 852 field stands in the second record, after a
    header that no white space follows. *)
Definition template_batch : list str :=
  [lit "=LDR a";
   nl ["=LDR b"; "=245 =852x =852  $p1 z"; "=852 $p2"]%string].

(** ** The limits of the interpreter *)

(** CPython refuses to convert between [int] and [str] a number of more
    than [sys.get_int_max_str_digits()] decimal digits: [int(s)] and
    [str(n)] then raise [ValueError].  The limit is 4300 unless the
    interpreter is configured otherwise, and 0 switches it off (no other
    value below 640 can be set).  Nor does it build a list of more than
    [sys.maxsize] elements: [list(range(a, b))] raises [OverflowError]
    when [b - a] is larger, [2^63 - 1] on a 64-bit build.  The functions
    of [app.py] above are those of an interpreter without these limits;
    [Limited] has them for the limits [max_str_digits] and [maxsize],
    written from the same source lines.  Memory is unbounded in both. *)

Definition default_max_str_digits : nat := 4300.

Definition default_maxsize : Z := (2 ^ 63 - 1)%Z.

Definition exceeds (max_str_digits digits : nat) : Prop :=
  0 < max_str_digits < digits.

Module Limited.
Section limit.
Context (max_str_digits : nat) (maxsize : Z).

(** [int(s)] *)
Definition int (s : str) : result Z :=
  if decide (exceeds max_str_digits (length s)) then Raise ValueError
  else int s.

(** [str(n)], as in the f-string; the sign does not count as a digit. *)
Definition str_of_int (n : Z) : result str :=
  if decide (exceeds max_str_digits (length (str_of_int (Z.abs n))))
  then Raise ValueError
  else Ok (str_of_int n).

(** [list(range(a, b))] *)
Definition list_range (a b : Z) : result (list Z) :=
  if decide (maxsize < b - a)%Z then Raise OverflowError
  else Ok (range_from a b).

Definition get_p_values (text : str) : result (list Z) :=
  vs ← mapM (λ m, int (group1 re_p_value m)) (finditer re_p_value text);
  Ok (sorted vs).

Definition collect_p_values (records : list str) : result (list Z) :=
  for_ records [] (λ record all_p_values,
    p_values ← get_p_values record;
    Ok (all_p_values ++ p_values)).

Definition missing_record_step (records : list str) (all_p_values : list Z)
    (ir : nat * str) (missing_fields : gmap nat (list Z))
  : result (gmap nat (list Z)) :=
  let '(i, record) := ir in
  current_p_values ← get_p_values record;
  match current_p_values with
  | _ :: _ => Ok missing_fields
  | [] =>
      if decide (i = 0) then
        match all_p_values with
        | _ :: _ =>
            first ← index all_p_values 0;
            Ok (<[i := [first]]> missing_fields)
        | [] => Ok missing_fields
        end
      else
        prev_records_p_values ←
          for_ (range i) [] (λ j prev,
            rj ← index records j;
            ps ← get_p_values rj;
            Ok (prev ++ ps));
        match prev_records_p_values, all_p_values with
        | _ :: _, _ =>
            top ← py_max prev_records_p_values;
            Ok (<[i := [(top + 1)%Z]]> missing_fields)
        | [], _ :: _ =>
            first ← index all_p_values 0;
            Ok (<[i := [first]]> missing_fields)
        | [], [] => Ok missing_fields
        end
  end.

Definition gap_step (records : list str) (i : nat)
    (missing_fields : gmap nat (list Z)) : result (gmap nat (list Z)) :=
  ri ← index records i;
  current_p_values ← get_p_values ri;
  rn ← index records (i + 1);
  next_p_values ← get_p_values rn;
  match current_p_values, next_p_values with
  | _ :: _, _ :: _ =>
      last_p ← py_max current_p_values;
      first_next_p ← py_min next_p_values;
      missing ← list_range (last_p + 1) first_next_p;
      match missing with
      | _ :: _ =>
          match missing_fields !! i with
          | Some old => Ok (<[i := old ++ missing]> missing_fields)
          | None => Ok (<[i := missing]> missing_fields)
          end
      | [] => Ok missing_fields
      end
  | _, _ => Ok missing_fields
  end.

Definition check_missing_records (records : list str) (all_p_values : list Z)
  : result (gmap nat (list Z)) :=
  for_ (enumerate records) ∅ (missing_record_step records all_p_values).

Definition check_gaps (records : list str) (missing_fields : gmap nat (list Z))
  : result (gmap nat (list Z)) :=
  for_ (range (length records - 1)) missing_fields (gap_step records).

Definition find_missing_852_fields (records : list str)
  : result (gmap nat (list Z)) :=
  all_p_values ← collect_p_values records;
  match all_p_values with
  | [] => Ok ∅
  | _ :: _ =>
      let all_p_values := sorted (remove_dups all_p_values) in
      missing_fields ← check_missing_records records all_p_values;
      check_gaps records missing_fields
  end.

Definition new_852 (template_852 : str) (missing_p : Z) : result str :=
  digits ← str_of_int missing_p;
  Ok (sub re_p_subfield (lit "$p" ++ digits) template_852).

Definition add_missing_852_fields (record : str) (missing_values : list Z)
    (template_852 : option str) : result str :=
  match missing_values, template_852 with
  | [], _ | _, None | _, Some [] => Ok record
  | _ :: _, Some template =>
      let lines := splitlines record in
      let insert_index := find_insert_index 0 lines (length lines) in
      new_lines ←
        for_ missing_values (take insert_index lines)
          (λ missing_p new_lines,
             field ← new_852 template missing_p;
             Ok (new_lines ++ [field]));
      Ok (str_join [LF] (new_lines ++ drop insert_index lines))
  end.

Definition add_fields_step (missing_fields : gmap nat (list Z))
    (template_852 : str) (record_index : nat) (records : list str)
  : result (list str) :=
  record ← index records record_index;
  missing_values ← getitem missing_fields record_index;
  repaired_record ←
    add_missing_852_fields record missing_values (Some template_852);
  setitem records record_index repaired_record.

Definition process_marc_records (input_text : str) : result str :=
  records ← split_records input_text;
  match records with
  | [] => Ok input_text
  | _ :: _ =>
      match get_852_field_template records with
      | None | Some [] => Ok input_text
      | Some template_852 =>
          missing_fields ← find_missing_852_fields records;
          records ←
            for_ (sorted_keys (map_to_list missing_fields).*1) records
              (add_fields_step missing_fields template_852);
          Ok (str_join [LF; LF] records)
      end
  end.

End limit.
End Limited.

(** No conversion of [get_p_values] on [record] exceeds the limit; none
    of the values of the dictionary [m] does when it is written; no gap
    between consecutive records is longer than a list can be. *)
Definition markers_fit (max_str_digits : nat) (record : str) : Prop :=
  Forall (λ m, ¬ exceeds max_str_digits (length (group1 re_p_value m)))
    (finditer re_p_value record).

Definition values_fit (max_str_digits : nat) (m : gmap nat (list Z)) : Prop :=
  ∀ i vs, m !! i = Some vs →
    Forall (λ v, ¬ exceeds max_str_digits (length (str_of_int (Z.abs v)))) vs.

Definition gaps_fit (maxsize : Z) (records : list str) : Prop :=
  ∀ i cur next last first,
    records !! i = Some cur → records !! (i + 1) = Some next →
    is_largest last (markers cur) → is_smallest first (markers next) →
    (first - (last + 1) ≤ maxsize)%Z.

Definition within_limits (max_str_digits : nat) (maxsize : Z)
    (input_text : str) : Prop :=
  Forall (markers_fit max_str_digits) (records_of input_text) ∧
  values_fit max_str_digits (missing_of (records_of input_text)) ∧
  gaps_fit maxsize (records_of input_text).

(** A marker of 4301 digits; a marker of 4300 digits before a record
    without marker; a gap of [2^63] values. *)
Definition long_marker : str :=
  nl ["=LDR a"; "=852  $p"]%string ++ replicate 4301 (ch "1").

Definition long_value : str :=
  nl ["=LDR a"; "=852  $p"]%string ++ replicate 4300 (ch "9")
  ++ nl [""; "=LDR b"]%string.

Definition wide_gap : str :=
  nl ["=LDR a"; "=852  $p1"; "=LDR b";
      "=852  $p9223372036854775810"]%string.

(** ** Vocabulary of the second pass *)



(** The parts, at "=LDR", of the records [u :: qs] joined by a blank line
    and "=LDR", with the white space at the end of the text removed. *)
Fixpoint reparted (u : str) (qs : list str) : list str :=
  match qs with
  | [] => [rstrip u]
  | q :: qs' => (u ++ [LF; LF]) :: reparted q qs'
  end.

(** ** Further sample batches *)


(** Two record starts that nothing follows, before a record. *)
Definition empty_leaders : str :=
  nl ["=LDR"; "=LDR=LDR a"; "=852  x"]%string.

(** * Proofs *)

(** ** Characters *)

Lemma is_space_not_dollar c : is_space c = true → c ≠ (ch "$").
Proof. intros H ->. done. Qed.

Lemma is_space_not_eq c : is_space c = true → c ≠ (ch "=").
Proof. by intros H ->. Qed.

Lemma is_space_breaks c s : is_space c = true → breaks_tag (c :: s).
Proof. intros H. simpl. split_and!; by intros ->. Qed.

Lemma is_linebreak_not_eq c : is_linebreak c = true → c ≠ (ch "=").
Proof. by intros H ->. Qed.

Lemma is_linebreak_breaks c s : is_linebreak c = true → breaks_tag (c :: s).
Proof. intros H. simpl. split_and!; by intros ->. Qed.

Lemma no_dollar_true c : no_dollar c = true ↔ c ≠ (ch "$").
Proof. unfold no_dollar. rewrite negb_true_iff, bool_decide_eq_false. done. Qed.

(** ** Runs of a character class *)

Section runs.
Context (p : char → bool).

Lemma run_split (s : str) :
  ∃ a b, s = a ++ b ∧ Forall (λ c, p c = true) a ∧ not_headed p b.
Proof.
  induction s as [|c s (a & b & -> & Ha & Hb)].
  - by exists [], [].
  - destruct (p c) eqn:Hc.
    + exists (c :: a), b. by repeat constructor.
    + exists [], (c :: a ++ b). by repeat constructor.
Qed.

Lemma run_unique (a a' b b' : str) :
  a ++ b = a' ++ b' →
  Forall (λ c, p c = true) a → Forall (λ c, p c = true) a' →
  not_headed p b → not_headed p b' →
  a = a' ∧ b = b'.
Proof.
  revert a'. induction a as [|c a IH]; intros [|c' a'] E Ha Ha' Hb Hb';
    simpl in *; simplify_eq.
  - done.
  - apply Forall_cons in Ha' as [? _]. simpl in Hb. congruence.
  - apply Forall_cons in Ha as [? _]. simpl in Hb'. congruence.
  - apply Forall_cons in Ha as [_ Ha]. apply Forall_cons in Ha' as [_ Ha'].
    destruct (IH a') as [-> ->]; auto.
Qed.

End runs.

(** ** The matcher *)

Section matcher.
Context (p : char → bool) (k : str → option (list str)).

Lemma greedy_Some s seg segs :
  greedy p k s = Some (seg, segs) →
  ∃ rest, s = seg ++ rest ∧ Forall (λ c, p c = true) seg ∧ k rest = Some segs.
Proof.
  revert seg. induction s as [|c s IH]; intros seg; simpl.
  - destruct (k []) eqn:E; intros [= <- <-]. by exists [].
  - assert (pair [] <$> k (c :: s) = Some (seg, segs) →
            ∃ rest, c :: s = seg ++ rest ∧ Forall (λ c, p c = true) seg
                    ∧ k rest = Some segs) as Hhere.
    { destruct (k (c :: s)) eqn:E; intros [= <- <-]. by exists (c :: s). }
    destruct (p c) eqn:Hc; [|done].
    destruct (greedy p k s) as [[seg' segs']|] eqn:E; [|done].
    intros [= <- <-]. destruct (IH _ eq_refl) as (rest & -> & ? & ?).
    exists rest. by repeat constructor.
Qed.

Lemma greedy_longest seg rest segs :
  Forall (λ c, p c = true) seg → not_headed p rest → k rest = Some segs →
  greedy p k (seg ++ rest) = Some (seg, segs).
Proof.
  intros Hseg Hrest Hk. induction Hseg as [|c seg Hc _ IH]; simpl.
  - destruct rest as [|c rest]; simpl in *; rewrite ?Hrest, Hk; done.
  - by rewrite Hc, IH.
Qed.

End matcher.

(** ** The search loop *)

Section search_loop.
Context (r : regex).

Lemma matches_sound k s m :
  m ∈ matches (scan r k s) →
  ∃ pre rest, s = pre ++ rest ∧ rmatch r rest = Some m.
Proof.
  unfold matches. revert k. induction s as [|c s IH]; intros k; simpl.
  - destruct k; [|by intros ?%elem_of_nil].
    destruct (rmatch r []) eqn:E; [|by intros ?%elem_of_nil].
    simpl. intros ->%list_elem_of_singleton. by exists [], [].
  - assert (∀ k', m ∈ omap (λ piece, match piece with Matched m => Some m
                                   | Unmatched _ => None end) (scan r k' s) →
            ∃ pre rest, c :: s = pre ++ rest ∧ rmatch r rest = Some m) as Hs.
    { intros k' (pre & rest & -> & ?)%IH. by exists (c :: pre), rest. }
    destruct k as [|k]; [|by apply Hs].
    destruct (rmatch r (c :: s)) as [m'|] eqn:E; simpl; [|by apply Hs].
    destruct (length (group0 m')); simpl;
      (intros [->|?]%elem_of_cons; [by exists [], (c :: s)|by eapply Hs]).
Qed.

Lemma scan_match_here s m :
  rmatch r s = Some m → s ≠ [] → m ∈ matches (scan r 0 s).
Proof.
  destruct s as [|c s]; [done|]. intros H _. unfold matches. simpl.
  rewrite H. destruct (length (group0 m)); simpl; by left.
Qed.

Lemma scan_cons_cases k c s m :
  m ∈ matches (scan r k (c :: s)) ↔
  match k with
  | S k' => m ∈ matches (scan r k' s)
  | 0 =>
      match rmatch r (c :: s) with
      | Some m' => m = m' ∨ m ∈ matches (scan r (length (group0 m') - 1) s)
      | None => m ∈ matches (scan r 0 s)
      end
  end.
Proof.
  unfold matches. simpl. destruct k as [|k]; [|done].
  destruct (rmatch r (c :: s)) as [m'|]; [|done].
  destruct (length (group0 m')) as [|n]; simpl; rewrite elem_of_cons;
    by rewrite ?Nat.sub_0_r.
Qed.

Lemma matches_scan_0 c s :
  matches (scan r 0 (c :: s)) =
  match rmatch r (c :: s) with
  | Some m => m :: matches (scan r (length (group0 m) - 1) s)
  | None => matches (scan r 0 s)
  end.
Proof.
  unfold matches. cbn [scan]. destruct (rmatch r (c :: s)) as [m|]; [|done].
  destruct (length (group0 m)); cbn; by rewrite ?Nat.sub_0_r.
Qed.

Lemma search_Some s m :
  search r s = Some m → ∃ pre rest, s = pre ++ rest ∧ rmatch r rest = Some m.
Proof.
  unfold search, finditer. intros H. apply (matches_sound 0).
  destruct (matches (scan r 0 s)); [done|]. injection H as ->. by left.
Qed.

End search_loop.

(** ** Loops and built-ins *)

Lemma for_pure {A S} (body : A → S → result S) (g : S → A → S) xs st :
  (∀ x st', x ∈ xs → body x st' = Ok (g st' x)) →
  for_ xs st body = Ok (foldl g st xs).
Proof.
  revert st. induction xs as [|x xs IH]; intros st H; simpl; [done|].
  rewrite H by by left. simpl. apply IH. intros. apply H. by right.
Qed.

Lemma index_Ok {A} (l : list A) i x : l !! i = Some x → index l i = Ok x.
Proof. unfold index. by intros ->. Qed.

Lemma mapM_Ok {A B} (f : A → result B) (g : A → B) (l : list A) :
  (∀ x, x ∈ l → f x = Ok (g x)) → mapM f l = Ok (g <$> l).
Proof.
  induction l as [|x l IH]; intros H; simpl; [done|].
  rewrite (H x) by by left. simpl.
  rewrite IH by (intros; apply H; by right). done.
Qed.

Lemma int_digits_Ok acc ds :
  Forall (λ c, is_digit c = true) ds → int_digits acc ds = Ok (digits_val acc ds).
Proof.
  intros H. revert acc. induction H as [|c ds Hc _ IH]; intros acc; simpl.
  - done.
  - by rewrite Hc, IH.
Qed.

Lemma int_Ok ds :
  ds ≠ [] → Forall (λ c, is_digit c = true) ds → int ds = Ok (digits_val 0 ds).
Proof. destruct ds; [done|]. intros _ H. by apply int_digits_Ok. Qed.

Lemma elem_of_sorted (v : Z) l : v ∈ sorted l ↔ v ∈ l.
Proof. unfold sorted. by rewrite merge_sort_Permutation. Qed.

Lemma elem_of_range_from a b z : z ∈ range_from a b ↔ (a ≤ z < b)%Z.
Proof.
  unfold range_from. rewrite list_elem_of_fmap. split.
  - intros (k & -> & Hk). apply elem_of_seq in Hk. lia.
  - intros H. exists (Z.to_nat (z - a)). split; [lia|].
    apply elem_of_seq. lia.
Qed.

Lemma range_from_nonempty a b : (a < b)%Z → range_from a b ≠ [].
Proof.
  intros H E. assert (a ∈ range_from a b) as Ha by (apply elem_of_range_from; lia).
  rewrite E in Ha. by apply elem_of_nil in Ha.
Qed.

Lemma enumerate_lookup {A} (l : list A) a i x :
  (i, x) ∈ zip (seq a (length l)) l → a ≤ i ∧ l !! (i - a) = Some x.
Proof.
  revert a. induction l as [|y l IH]; intros a; simpl.
  - by intros ?%elem_of_nil.
  - intros [[= -> ->]|H]%elem_of_cons.
    + by rewrite Nat.sub_diag.
    + apply IH in H as [? H]. split; [lia|].
      by replace (i - a) with (S (i - S a)) by lia.
Qed.

(** ** Smallest and largest values *)

Lemma is_smallest_alt v l :
  is_smallest v l ↔ v ∈ l ∧ ∀ w, w ∈ l → (v ≤ w)%Z.
Proof. unfold is_smallest. by rewrite Forall_forall. Qed.

Lemma is_largest_alt v l :
  is_largest v l ↔ v ∈ l ∧ ∀ w, w ∈ l → (w ≤ v)%Z.
Proof. unfold is_largest. by rewrite Forall_forall. Qed.

Lemma foldl_max_largest x l : is_largest (foldl Z.max x l) (x :: l).
Proof.
  apply is_largest_alt. revert x. induction l as [|y l IH]; intros x; simpl.
  - split; [by left|]. intros w ->%list_elem_of_singleton. lia.
  - destruct (IH (Z.max x y)) as [Hin Hle]. split.
    + apply elem_of_cons in Hin as [->|?]; [|by do 2 right].
      destruct (Z.max_spec x y) as [[_ ->]|[_ ->]]; [right|]; by left.
    + assert (Z.max x y ≤ foldl Z.max (Z.max x y) l)%Z as Hm
        by (apply Hle; by left).
      intros w [->|[->|Hw]%elem_of_cons]%elem_of_cons; [lia..|].
      apply Hle. by right.
Qed.

Lemma foldl_min_smallest x l : is_smallest (foldl Z.min x l) (x :: l).
Proof.
  apply is_smallest_alt. revert x. induction l as [|y l IH]; intros x; simpl.
  - split; [by left|]. intros w ->%list_elem_of_singleton. lia.
  - destruct (IH (Z.min x y)) as [Hin Hle]. split.
    + apply elem_of_cons in Hin as [->|?]; [|by do 2 right].
      destruct (Z.min_spec x y) as [[_ ->]|[_ ->]]; [|right]; by left.
    + assert (foldl Z.min (Z.min x y) l ≤ Z.min x y)%Z as Hm
        by (apply Hle; by left).
      intros w [->|[->|Hw]%elem_of_cons]%elem_of_cons; [lia..|].
      apply Hle. by right.
Qed.

Lemma is_largest_unique v v' l : is_largest v l → is_largest v' l → v = v'.
Proof.
  intros [H1 H2]%is_largest_alt [H3 H4]%is_largest_alt.
  apply H2 in H3. apply H4 in H1. lia.
Qed.

Lemma is_smallest_unique v v' l : is_smallest v l → is_smallest v' l → v = v'.
Proof.
  intros [H1 H2]%is_smallest_alt [H3 H4]%is_smallest_alt.
  apply H2 in H3. apply H4 in H1. lia.
Qed.

Lemma is_largest_cons v x l : is_largest v (x :: l) → foldl Z.max x l = v.
Proof. intros H. eapply is_largest_unique; [apply foldl_max_largest|done]. Qed.

Lemma is_smallest_cons v x l : is_smallest v (x :: l) → foldl Z.min x l = v.
Proof. intros H. eapply is_smallest_unique; [apply foldl_min_smallest|done]. Qed.

(** [sorted(set(l))[0]] is the smallest element of [l]. *)
Lemma sorted_set_head (l : list Z) :
  l ≠ [] →
  ∃ v rest, sorted (remove_dups l) = v :: rest ∧ is_smallest v l.
Proof.
  intros Hl. unfold sorted.
  pose proof (merge_sort_Permutation Z.le (remove_dups l)) as Hp.
  pose proof (StronglySorted_merge_sort Z.le (remove_dups l)) as Hs.
  destruct (merge_sort Z.le (remove_dups l)) as [|v rest].
  - apply Permutation_nil_l in Hp. destruct l as [|x l]; [done|].
    assert (x ∈ remove_dups (x :: l)) as Hx by (apply elem_of_remove_dups; by left).
    rewrite <-Hp in Hx. by apply elem_of_nil in Hx.
  - exists v, rest. split; [done|]. apply is_smallest_alt. split.
    + apply elem_of_remove_dups. rewrite <-Hp. by left.
    + intros w Hw. apply elem_of_remove_dups in Hw. rewrite <-Hp in Hw.
      apply elem_of_cons in Hw as [->|Hw]; [lia|].
      apply StronglySorted_inv in Hs as [_ Hs]. rewrite Forall_forall in Hs. auto.
Qed.

(** ** The pattern of [get_p_values] *)

(** One literal character of a pattern, in a hypothesis [H] that the
    pattern matches [s]. *)
Ltac literal H s :=
  destruct s as [|? s]; [done|];
  simpl in H; case_decide; [subst|done];
  apply fmap_Some in H as (? & H & ->).

Lemma rmatch_p_sound s m :
  rmatch re_p_value s = Some m →
  ∃ ws mid ds rest,
    s = p_field ws mid ds ++ rest ∧ p_field_ok ws mid ds ∧
    not_headed is_digit rest ∧
    group1 re_p_value m = ds ∧ group0 m = p_field ws mid ds.
Proof.
  unfold re_p_value. intros H.
  repeat literal H s.
  destruct s as [|c s]; [done|]. simpl in H.
  destruct (is_space c) eqn:Hc; [|done].
  apply fmap_Some in H as ([ws segs] & H & ->).
  apply greedy_Some in H as (s1 & -> & Hws & H).
  apply fmap_Some in H as ([mid segs1] & H & ->).
  apply greedy_Some in H as (s2 & -> & Hmid & H).
  repeat literal H s2.
  apply fmap_Some in H as (? & H & ->).
  destruct s2 as [|d s2]; [done|]. simpl in H.
  destruct (is_digit d) eqn:Hd; [|done].
  apply fmap_Some in H as ([ds segs2] & H & ->).
  destruct (run_split is_digit s2) as (a & rest & -> & Ha & Hrest).
  rewrite (greedy_longest _ _ a rest [[]]) in H by done.
  injection H as <- <-.
  exists (c :: ws), mid, (d :: a), rest. split_and!.
  - unfold p_field. simpl. by rewrite <-!app_assoc.
  - split; [done|by constructor| |done|by constructor].
    eapply Forall_impl; [exact Hmid|]. intros x Hx. by apply no_dollar_true.
  - done.
  - unfold group1. cbn. by rewrite app_nil_r.
  - unfold p_field, group0. cbn. by rewrite !app_nil_r.
Qed.

Lemma rmatch_p_complete ws mid ds rest :
  p_field_ok ws mid ds → not_headed is_digit rest →
  ∃ m, rmatch re_p_value (p_field ws mid ds ++ rest) = Some m ∧
       group1 re_p_value m = ds ∧ group0 m = p_field ws mid ds.
Proof.
  intros [Hws1 Hws Hmid Hds1 Hds] Hrest.
  destruct ws as [|c ws]; [done|]. destruct ds as [|d ds]; [done|].
  apply Forall_cons in Hws as [Hc Hws]. apply Forall_cons in Hds as [Hd Hds].
  destruct (run_split is_space (ws ++ mid)) as (ws' & mid' & E & Hws' & Hmid').
  assert (Forall (λ c, no_dollar c = true) mid') as Hnd.
  { assert (Forall (λ c, no_dollar c = true) (ws ++ mid)) as Hall.
    { apply Forall_app; split; (eapply Forall_impl; [eassumption|]);
        intros x Hx; apply no_dollar_true; [by apply is_space_not_dollar|done]. }
    rewrite E in Hall. by apply Forall_app in Hall as [_ ?]. }
  exists [[(ch "=")]; [(ch "8")]; [(ch "5")]; [(ch "2")]; c :: ws'; mid';
          [(ch "$")]; [(ch "p")]; []; d :: ds; []].
  split_and!.
  - unfold p_field, re_p_value. simpl. rewrite Hc.
    rewrite <-!app_assoc, (app_assoc ws mid), E, <-app_assoc.
    erewrite (greedy_longest _ _ ws'
      (mid' ++ (ch "$") :: (ch "p") :: d :: ds ++ rest)); [done|done| |].
    + destruct mid' as [|x mid']; [done|]. exact Hmid'.
    + simpl.
      erewrite (greedy_longest _ _ mid'
        ((ch "$") :: (ch "p") :: d :: ds ++ rest)); [done|done|done|].
      simpl. rewrite Hd.
      by rewrite (greedy_longest _ _ ds rest [[]]).
  - unfold group1, re_p_value. cbn. by rewrite app_nil_r.
  - unfold group0, p_field. simpl. rewrite !app_nil_r.
    by rewrite (app_assoc ws' mid'), <-E, <-app_assoc.
Qed.

Lemma get_p_values_Ok text : get_p_values text = Ok (p_values text).
Proof.
  unfold get_p_values, p_values.
  erewrite mapM_Ok; [done|]. intros m Hm.
  apply matches_sound in Hm as (pre & rest & _ & Hm).
  apply rmatch_p_sound in Hm as (ws & mid & ds & rest' & _ & [] & _ & -> & _).
  by apply int_Ok.
Qed.

Lemma get_p_values_markers text : get_p_values text = Ok (markers text).
Proof. unfold markers. by rewrite get_p_values_Ok. Qed.

Lemma markers_nil record : get_p_values record = Ok [] ↔ markers record = [].
Proof.
  rewrite get_p_values_markers. split; [by intros [= ->]|by intros ->].
Qed.

Lemma p_values_sound text v :
  v ∈ p_values text →
  ∃ pre ws mid ds rest,
    text = pre ++ p_field ws mid ds ++ rest ∧ p_field_ok ws mid ds ∧
    not_headed is_digit rest ∧ int ds = Ok v.
Proof.
  unfold p_values. rewrite elem_of_sorted.
  intros (m & -> & Hm)%list_elem_of_fmap.
  apply matches_sound in Hm as (pre & rest & -> & Hm).
  apply rmatch_p_sound in Hm as (ws & mid & ds & rest' & -> & Hok & ? & -> & _).
  exists pre, ws, mid, ds, rest'. split_and!; [done..|].
  destruct Hok. by apply int_Ok.
Qed.

Lemma p_field_head_no_dollar ws mid ds :
  p_field_ok ws mid ds →
  Forall (λ c, no_dollar c = true) (lit "=852" ++ ws ++ mid).
Proof.
  intros []. repeat (apply Forall_cons; split; [done|]).
  apply Forall_app; split; (eapply Forall_impl; [eassumption|]);
    intros x Hx; apply no_dollar_true; [by apply is_space_not_dollar|done].
Qed.

Lemma p_field_split ws mid ds rest :
  p_field ws mid ds ++ rest =
  (lit "=852" ++ ws ++ mid) ++ (ch "$") :: (ch "p") :: ds ++ rest.
Proof. unfold p_field. by rewrite <-!app_assoc. Qed.

(** Every field is found, whatever stands before it. *)
Section field_found.
Context (ws mid ds rest : str).
Context (Hok : p_field_ok ws mid ds) (Hrest : not_headed is_digit rest).

(** A match that starts before an 852 field and runs into it ends with the
    digits of that field. *)
Lemma match_into_field pre m :
  rmatch re_p_value (pre ++ p_field ws mid ds ++ rest) = Some m →
  length pre < length (group0 m) →
  group1 re_p_value m = ds.
Proof.
  intros Hm Hlen.
  apply rmatch_p_sound in Hm as (ws' & mid' & ds' & rest' & E & Hok' & Hrest' & -> & E0).
  rewrite E0 in Hlen. clear E0 m.
  rewrite !p_field_split in E.
  pose proof (p_field_head_no_dollar _ _ _ Hok) as Hnd.
  pose proof (p_field_head_no_dollar _ _ _ Hok') as Hnd'.
  destruct (run_split no_dollar pre) as (a & b & -> & Ha & Hb).
  destruct b as [|x b].
  - rewrite app_nil_r in *. rewrite app_assoc in E.
    apply (run_unique no_dollar) in E as [_ [= E]]; [| |done..].
    + apply (run_unique is_digit) in E as [? _]; [done| | |done..];
        [by destruct Hok|by destruct Hok'].
    + by apply Forall_app.
  - simpl in Hb. assert (x = (ch "$")) as ->.
    { destruct (decide (x = (ch "$"))) as [|Hx]; [done|].
      apply no_dollar_true in Hx. congruence. }
    rewrite <-app_assoc, <-app_comm_cons in E.
    apply (run_unique no_dollar) in E as [Ea [= E]]; [|done..].
    exfalso.
    assert (length b < length ((ch "p") :: ds')) as Hb'.
    { unfold p_field in Hlen. rewrite !app_assoc, <-(app_assoc _ ws'), <-Ea in Hlen.
      rewrite !length_app in Hlen. simpl in *. lia. }
    apply (f_equal (λ l, l !! length b)) in E. cbv beta in E.
    rewrite lookup_app_r, Nat.sub_diag in E by lia. simpl in E.
    rewrite app_comm_cons, lookup_app_l in E by done.
    symmetry in E. apply list_elem_of_lookup_2 in E.
    apply elem_of_cons in E as [?|Hl]; [done|].
    destruct Hok' as [_ _ _ _ Hds']. rewrite Forall_forall in Hds'.
    by apply Hds' in Hl.
Qed.

Lemma scan_finds_field pre k :
  k ≤ length pre →
  ∃ m, m ∈ matches (scan re_p_value k (pre ++ p_field ws mid ds ++ rest)) ∧
       group1 re_p_value m = ds.
Proof.
  revert k. induction pre as [|c pre IH]; intros k Hk.
  - destruct k; [|simpl in Hk; lia].
    destruct (rmatch_p_complete ws mid ds rest Hok Hrest) as (m & Hm & Hg & _).
    exists m. split; [|done]. by apply scan_match_here.
  - change ((c :: pre) ++ ?x) with (c :: (pre ++ x)).
    setoid_rewrite scan_cons_cases. destruct k as [|k].
    + destruct (rmatch re_p_value (c :: pre ++ p_field ws mid ds ++ rest))
        as [m|] eqn:Hm; [|apply IH; lia].
      destruct (decide (length (group0 m) - 1 ≤ length pre)) as [Hle|Hgt].
      * destruct (IH _ Hle) as (m' & ? & ?). exists m'. auto.
      * exists m. split; [by left|].
        apply (match_into_field (c :: pre)); [done|]. simpl. lia.
    + apply IH. simpl in Hk. lia.
Qed.

Lemma p_values_complete pre :
  digits_val 0 ds ∈ p_values (pre ++ p_field ws mid ds ++ rest).
Proof.
  unfold p_values. rewrite elem_of_sorted.
  destruct (scan_finds_field pre 0) as (m & Hm & <-);
    [lia|].
  apply list_elem_of_fmap. by exists m.
Qed.

End field_found.

(** ** [find_missing_852_fields] *)

Lemma collect_p_values_Ok records :
  collect_p_values records = Ok (batch_markers records).
Proof.
  unfold collect_p_values.
  rewrite (for_pure _ (λ acc r, acc ++ markers r)).
  - f_equal. unfold batch_markers.
    change (concat (markers <$> records))
      with ([] ++ concat (markers <$> records)).
    generalize (@nil Z). induction records as [|r rs IH]; intros acc; simpl.
    + by rewrite app_nil_r.
    + by rewrite IH, app_assoc.
  - intros r acc _. by rewrite get_p_values_markers.
Qed.

Lemma batch_markers_nil records :
  Forall (λ record, get_p_values record = Ok []) records →
  batch_markers records = [].
Proof.
  unfold batch_markers. induction 1 as [|r rs Hr _ IH]; [done|].
  simpl. unfold markers at 1. by rewrite Hr.
Qed.

Section gap_detection.
Context (records : list str).

Lemma prior_loop_Ok i :
  i ≤ length records →
  for_ (range i) [] (λ j prev,
    rj ← index records j; ps ← get_p_values rj; Ok (prev ++ ps))
  = Ok (prior_markers records i).
Proof.
  intros Hi.
  rewrite (for_pure _ (λ acc j, acc ++ from_option markers [] (records !! j))).
  - f_equal. unfold prior_markers, range. clear Hi.
    induction i as [|i IH]; [done|].
    rewrite seq_S, foldl_app, IH. simpl.
    destruct (records !! i) as [r|] eqn:E.
    + rewrite (take_S_r _ _ r), fmap_app, concat_app by done.
      simpl. by rewrite app_nil_r.
    + apply lookup_ge_None in E. rewrite !take_ge by lia.
      simpl. by rewrite app_nil_r.
  - intros j acc Hj. apply elem_of_seq in Hj.
    destruct (lookup_lt_is_Some_2 records j) as [r Hr]; [lia|].
    rewrite (index_Ok _ _ _ Hr), Hr. simpl. by rewrite get_p_values_markers.
Qed.

Lemma batch_markers_nonempty i record :
  records !! i = Some record → markers record ≠ [] → batch_markers records ≠ [].
Proof.
  intros Hi Hne E. destruct (markers record) as [|v l] eqn:Hm; [done|].
  assert (v ∈ batch_markers records) as Hv.
  { apply list_elem_of_In, in_concat. exists (markers record).
    rewrite <-!list_elem_of_In. split; [|rewrite Hm; by left].
    apply list_elem_of_fmap. exists record. split; [done|].
    by eapply list_elem_of_lookup_2. }
  rewrite E in Hv. by apply elem_of_nil in Hv.
Qed.

(** *** Rule A: the second loop *)

Lemma missing_record_step_Ok first rest i r m :
  i ≤ length records →
  missing_record_step records (first :: rest) (i, r) m
  = Ok (rule_a_pure records first m (i, r)).
Proof.
  intros Hi. unfold missing_record_step, rule_a_pure, rule_a_value. simpl.
  rewrite get_p_values_markers. simpl.
  destruct (markers r); [|done].
  case_decide; [done|].
  rewrite prior_loop_Ok by done. simpl.
  by destruct (prior_markers records i).
Qed.

Lemma rule_a_fold_lookup first l a m j :
  foldl (rule_a_pure records first) m (zip (seq a (length l)) l) !! j =
  match l !! (j - a) with
  | Some r =>
      if decide (a ≤ j) then
        match markers r with
        | [] => Some [rule_a_value records first j]
        | _ :: _ => m !! j
        end
      else m !! j
  | None => m !! j
  end.
Proof.
  revert a m. induction l as [|r l IH]; intros a m; simpl; [done|].
  rewrite IH.
  assert (rule_a_pure records first m (a, r) !! j =
          if decide (j = a) then
            match markers r with
            | [] => Some [rule_a_value records first j]
            | _ :: _ => m !! j
            end
          else m !! j) as Hstep.
  { unfold rule_a_pure. simpl. destruct (markers r).
    - rewrite lookup_insert. repeat case_decide; by simplify_eq.
    - by case_decide. }
  rewrite Hstep. clear Hstep IH.
  destruct (decide (j = a)) as [->|Hne].
  - rewrite Nat.sub_diag. simpl. rewrite decide_True by lia.
    destruct (l !! (a - S a)); [|done]. by rewrite decide_False by lia.
  - destruct (decide (a ≤ j)) as [Hle|Hgt].
    + replace (j - a) with (S (j - S a)) by lia. simpl.
      destruct (l !! (j - S a)); [|done]. by rewrite decide_True by lia.
    + replace (j - a) with 0 by lia. simpl.
      destruct (l !! (j - S a)); [|done]. by rewrite decide_False by lia.
Qed.

Lemma check_missing_records_Ok first rest :
  ∃ mA, check_missing_records records (first :: rest) = Ok mA ∧
    ∀ j, mA !! j =
         match records !! j with
         | Some r =>
             match markers r with
             | [] => Some [rule_a_value records first j]
             | _ :: _ => None
             end
         | None => None
         end.
Proof.
  eexists. split.
  - unfold check_missing_records. apply for_pure.
    intros [i r] m Hir. apply missing_record_step_Ok.
    apply enumerate_lookup in Hir as [_ Hir].
    apply lookup_lt_Some in Hir. lia.
  - intros j. unfold enumerate. rewrite rule_a_fold_lookup, Nat.sub_0_r.
    destruct (records !! j); [|done].
    rewrite decide_True by lia. by rewrite lookup_empty.
Qed.

(** *** Rule B: the third loop *)

Lemma gap_step_Ok i m :
  i + 1 < length records → gap_step records i m = Ok (gap_pure records m i).
Proof.
  intros Hi. unfold gap_step, gap_pure, gap_value.
  destruct (lookup_lt_is_Some_2 records i) as [r Hr]; [lia|].
  destruct (lookup_lt_is_Some_2 records (i + 1)) as [r' Hr']; [lia|].
  rewrite (index_Ok _ _ _ Hr), (index_Ok _ _ _ Hr'), Hr, Hr'. simpl.
  rewrite !get_p_values_markers. simpl.
  destruct (markers r) as [|x l], (markers r') as [|y l']; simpl;
    try (destruct (m !! i) eqn:E; by rewrite ?insert_id).
  destruct (range_from _ _); simpl.
  - destruct (m !! i) eqn:E; by rewrite ?insert_id.
  - by destruct (m !! i).
Qed.

Lemma gap_pure_lookup m i j :
  gap_pure records m i !! j =
  if decide (j = i) then gap_value records i (m !! i) else m !! j.
Proof.
  unfold gap_pure. destruct (gap_value records i (m !! i)) as [v|] eqn:E.
  - rewrite lookup_insert. repeat case_decide; by simplify_eq.
  - case_decide; [subst|done].
    unfold gap_value in E. repeat case_match; by simplify_eq.
Qed.

Lemma gap_fold_lookup n a m j :
  foldl (gap_pure records) m (seq a n) !! j =
  if decide (a ≤ j < a + n) then gap_value records j (m !! j) else m !! j.
Proof.
  revert a m. induction n as [|n IH]; intros a m; simpl.
  - by rewrite decide_False by lia.
  - rewrite IH, gap_pure_lookup.
    destruct (decide (j = a)) as [->|Hne].
    + rewrite decide_False by lia. by rewrite decide_True by lia.
    + destruct (decide (S a ≤ j < S a + n)).
      * by rewrite decide_True by lia.
      * by rewrite decide_False by lia.
Qed.

Lemma check_gaps_Ok mA :
  ∃ m, check_gaps records mA = Ok m ∧
       ∀ j, m !! j = gap_value records j (mA !! j).
Proof.
  eexists. split.
  - unfold check_gaps. apply for_pure.
    intros i m Hi. apply gap_step_Ok. apply elem_of_seq in Hi. lia.
  - intros j. unfold range. rewrite gap_fold_lookup.
    case_decide as Hj; [done|].
    unfold gap_value. destruct (records !! j) eqn:E; [|done].
    rewrite (proj2 (lookup_ge_None records (j + 1))); [done|].
    apply lookup_lt_Some in E. lia.
Qed.

Lemma gap_value_gap i cur next last first old :
  records !! i = Some cur → records !! (i + 1) = Some next →
  is_largest last (markers cur) → is_smallest first (markers next) →
  (first - last > 1)%Z →
  gap_value records i old = Some (default [] old ++ range_from (last + 1) first).
Proof.
  intros Hc Hn Hl Hf Hgap. unfold gap_value. rewrite Hc, Hn.
  destruct (markers cur) as [|x l]; [by destruct Hl as [?%elem_of_nil _]|].
  destruct (markers next) as [|y l']; [by destruct Hf as [?%elem_of_nil _]|].
  rewrite (is_largest_cons _ _ _ Hl), (is_smallest_cons _ _ _ Hf).
  pose proof (range_from_nonempty (last + 1) first) as Hne.
  destruct (range_from (last + 1) first); [|done]. exfalso. apply Hne; [lia|done].
Qed.

(** *** The dictionary *)

Lemma find_missing_852_fields_unfold :
  find_missing_852_fields records =
  match batch_markers records with
  | [] => Ok ∅
  | _ :: _ =>
      check_missing_records records (sorted (remove_dups (batch_markers records)))
      ≫= check_gaps records
  end.
Proof.
  unfold find_missing_852_fields. rewrite collect_p_values_Ok. simpl.
  by destruct (batch_markers records).
Qed.

(** The dictionary returned by [find_missing_852_fields], key by key. *)
Lemma find_missing_852_fields_Ok :
  batch_markers records ≠ [] →
  ∃ first rest mA m,
    sorted (remove_dups (batch_markers records)) = first :: rest ∧
    is_smallest first (batch_markers records) ∧
    check_missing_records records (first :: rest) = Ok mA ∧
    check_gaps records mA = Ok m ∧
    find_missing_852_fields records = Ok m ∧
    (∀ j, mA !! j =
          match records !! j with
          | Some r =>
              match markers r with
              | [] => Some [rule_a_value records first j]
              | _ :: _ => None
              end
          | None => None
          end) ∧
    (∀ j, m !! j = gap_value records j (mA !! j)).
Proof.
  intros Hne.
  destruct (sorted_set_head _ Hne) as (first & rest & Hs & Hfirst).
  destruct (check_missing_records_Ok first rest) as (mA & HmA & HA).
  destruct (check_gaps_Ok mA) as (m & Hm & HB).
  exists first, rest, mA, m. split_and!; try done.
  rewrite find_missing_852_fields_unfold.
  destruct (batch_markers records); [done|].
  rewrite Hs, HmA. done.
Qed.

Lemma find_missing_852_fields_total :
  ∃ m, find_missing_852_fields records = Ok m.
Proof.
  destruct (decide (batch_markers records = [])) as [E|Hne].
  - exists ∅. by rewrite find_missing_852_fields_unfold, E.
  - destruct (find_missing_852_fields_Ok Hne) as (?&?&?&m&?&?&?&?&?&?&?).
    by exists m.
Qed.

Lemma find_missing_852_fields_missing_of :
  find_missing_852_fields records = Ok (missing_of records).
Proof.
  unfold missing_of.
  by destruct find_missing_852_fields_total as [m ->].
Qed.

Lemma find_missing_852_fields_keys m j :
  find_missing_852_fields records = Ok m → is_Some (m !! j) →
  j < length records.
Proof.
  intros Hm [vs Hj].
  destruct (decide (batch_markers records = [])) as [E|Hne].
  { rewrite find_missing_852_fields_unfold, E in Hm. by simplify_eq. }
  destruct (find_missing_852_fields_Ok Hne)
    as (first & rest & mA & m' & _ & _ & _ & _ & Hfm & HA & HB).
  rewrite Hfm in Hm. injection Hm as ->.
  rewrite HB, HA in Hj. unfold gap_value in Hj.
  destruct (records !! j) eqn:E; [|done]. by apply lookup_lt_Some in E.
Qed.

End gap_detection.


(** ** [add_missing_852_fields] *)

Lemma startswith_653_LDR line :
  startswith line (lit "=653") = true → startswith line (lit "=LDR") = false.
Proof.
  destruct line as [|c0 [|c1 line]]; cbn; try done;
    repeat case_decide; by simplify_eq.
Qed.

Lemma find_insert_index_spec l a idx :
  let k := find_insert_index a l idx in
  (∀ i line, l !! i = Some line → startswith line (lit "=LDR") = true →
     0 < a + i →
     (∀ j line', j < i → l !! j = Some line' → 0 < a + j →
        startswith line' (lit "=LDR") = false) →
     k = a + i) ∧
  ((∀ j line', l !! j = Some line' → 0 < a + j →
      startswith line' (lit "=LDR") = false) →
   (∀ i line, l !! i = Some line → startswith line (lit "=653") = true →
      (∀ j line', i < j → l !! j = Some line' →
         startswith line' (lit "=653") = false) →
      k = a + i + 1) ∧
   ((∀ j line', l !! j = Some line' →
       startswith line' (lit "=653") = false) →
    k = idx)).
Proof.
  revert a idx. induction l as [|line0 l IH]; intros a idx; cbv zeta;
    cbn [find_insert_index].
  { split; [by intros ? ? ?|]. intros _. split; [by intros ? ? ?|done]. }
  destruct (IH (S a) (a + 1)) as (IH1a & IH1b).
  destruct (IH (S a) idx) as (IH2a & IH2b).
  assert (∀ P : nat → str → Prop,
    (∀ j line', (line0 :: l) !! j = Some line' → P j line') →
    ∀ j line', l !! j = Some line' → P (S j) line') as Htail.
  { intros P H j line' Hj. by apply (H (S j)). }
  destruct (startswith line0 (lit "=653")) eqn:H653.
  - pose proof (startswith_653_LDR _ H653) as HnL. split.
    + intros [|i] line Hi HL Hpos Hfirst; simpl in Hi.
      { simplify_eq. congruence. }
      rewrite (IH1a i line Hi HL); [lia|lia|].
      intros j line' Hj Hl' _. apply (Hfirst (S j)); [lia|done|lia].
    + intros HnoL. 
      assert (∀ j line', l !! j = Some line' → 0 < S a + j →
                startswith line' (lit "=LDR") = false) as HnoL'.
      { intros j line' Hj _. apply (HnoL (S j)); [done|lia]. }
      destruct (IH1b HnoL') as [IHs IHn]. split.
      * intros [|i] line Hi Hs Hlast; simpl in Hi.
        -- rewrite IHn; [lia|]. intros j line' Hj.
           apply (Hlast (S j)); [lia|done].
        -- rewrite (IHs i line Hi Hs); [lia|].
           intros j line' Hij Hj. apply (Hlast (S j)); [lia|done].
      * intros Hno. specialize (Hno 0 line0 eq_refl). congruence.
  - destruct (startswith line0 (lit "=LDR")) eqn:HLDR; cbn [andb].
    + destruct (decide (0 < a)) as [Ha|Ha].
      * rewrite bool_decide_eq_true_2 by done. split.
        -- intros [|i] line Hi HL Hpos Hfirst; [lia|].
           specialize (Hfirst 0 line0). rewrite Hfirst in HLDR; [done|lia|done|lia].
        -- intros HnoL. specialize (HnoL 0 line0 eq_refl). 
           rewrite HnoL in HLDR; [done|lia].
      * rewrite bool_decide_eq_false_2 by done. assert (a = 0) as -> by lia.
        split.
        -- intros [|i] line Hi HL Hpos Hfirst; [lia|]. simpl in Hi.
           rewrite (IH2a i line Hi HL); [lia|lia|].
           intros j line' Hj Hl' _. apply (Hfirst (S j)); [lia|done|lia].
        -- intros HnoL.
           assert (∀ j line', l !! j = Some line' → 0 < 1 + j →
                     startswith line' (lit "=LDR") = false) as HnoL'.
           { intros j line' Hj _. apply (HnoL (S j)); [done|lia]. }
           destruct (IH2b HnoL') as [IHs IHn]. split.
           ++ intros [|i] line Hi Hs Hlast; simpl in Hi; [congruence|].
              rewrite (IHs i line Hi Hs); [lia|].
              intros j line' Hij Hj. apply (Hlast (S j)); [lia|done].
           ++ intros Hno. apply IHn. intros j line' Hj. by apply (Hno (S j)).
    + split.
      * intros [|i] line Hi HL Hpos Hfirst; simpl in Hi; [congruence|].
        rewrite (IH2a i line Hi HL); [lia|lia|].
        intros j line' Hj Hl' _. apply (Hfirst (S j)); [lia|done|lia].
      * intros HnoL.
        assert (∀ j line', l !! j = Some line' → 0 < S a + j →
                  startswith line' (lit "=LDR") = false) as HnoL'.
        { intros j line' Hj _. apply (HnoL (S j)); [done|lia]. }
        destruct (IH2b HnoL') as [IHs IHn]. split.
        -- intros [|i] line Hi Hs Hlast; simpl in Hi; [congruence|].
           rewrite (IHs i line Hi Hs); [lia|].
           intros j line' Hij Hj. apply (Hlast (S j)); [lia|done].
        -- intros Hno. apply IHn. intros j line' Hj. by apply (Hno (S j)).
Qed.

Lemma append_fields template (vs : list Z) init :
  foldl (λ new_lines missing_p, new_lines ++ [new_852 template missing_p]) init vs
  = init ++ (new_852 template <$> vs).
Proof.
  revert init. induction vs as [|v vs IH]; intros init; simpl.
  - by rewrite app_nil_r.
  - by rewrite IH, <-app_assoc.
Qed.

(** ** [split], [join] and [strip] *)

Lemma startswith_app s p : startswith s p = true ↔ ∃ rest, s = p ++ rest.
Proof.
  revert s. induction p as [|c p IH]; intros s; simpl.
  - split; [intros _; by exists s|done].
  - destruct s as [|d s]; [split; [done|by intros [? ?]]|].
    case_decide; subst.
    + rewrite IH. split; intros [rest ?]; exists rest; by simplify_eq.
    + split; [done|]. intros [rest ?]. by simplify_eq.
Qed.

Lemma split_go_nonempty sep k s : split_go sep k s ≠ [].
Proof.
  revert k. induction s as [|c s IH]; intros k; simpl; [done|].
  destruct k; [|done]. repeat case_match; done.
Qed.

Lemma split_go_skip sep k s : split_go sep k s = split_go sep 0 (drop k s).
Proof.
  revert k. induction s as [|c s IH]; intros [|k]; try done.
  simpl. apply IH.
Qed.

Lemma str_join_cons sep x l :
  l ≠ [] → str_join sep (x :: l) = x ++ sep ++ str_join sep l.
Proof. by destruct l. Qed.

Lemma str_join_cons_head sep c p ps :
  str_join sep ((c :: p) :: ps) = c :: str_join sep (p :: ps).
Proof. by destruct ps. Qed.

Lemma split_join sep s : sep ≠ [] → str_join sep (split_go sep 0 s) = s.
Proof.
  intros Hsep. remember (length s) as n eqn:Hn.
  revert s Hn. induction (lt_wf n) as [n _ IH]. intros s Hn.
  destruct s as [|c s]; [done|]. cbn [split_go].
  destruct (startswith (c :: s) sep) eqn:E.
  - apply startswith_app in E as [rest E].
    destruct sep as [|d sep]; [done|]. injection E as -> ->.
    rewrite split_go_skip.
    replace (length (d :: sep) - 1) with (length sep) by (simpl; lia).
    rewrite drop_app_length.
    rewrite str_join_cons by apply split_go_nonempty.
    rewrite app_nil_l, (IH (length rest)); [done| |done].
    rewrite Hn. simpl. rewrite length_app. lia.
  - pose proof (IH (length s)) as IHs. 
    destruct (split_go sep 0 s) as [|p ps] eqn:Es.
    { by apply split_go_nonempty in Es. }
    rewrite str_join_cons_head, <-Es, IHs; [done| |done]. rewrite Hn. simpl. lia.
Qed.

Lemma lstrip_spec s :
  ∃ ws, s = ws ++ lstrip s ∧ Forall (λ c, is_space c = true) ws.
Proof.
  induction s as [|c s (ws & E & Hws)]; simpl.
  - by exists [].
  - destruct (is_space c) eqn:Hc.
    + exists (c :: ws). split; [by rewrite E at 1|by constructor].
    + by exists [].
Qed.

Lemma rstrip_spec s :
  ∃ ws, s = rstrip s ++ ws ∧ Forall (λ c, is_space c = true) ws.
Proof.
  unfold rstrip. destruct (lstrip_spec (reverse s)) as (ws & E & Hws).
  exists (reverse ws). split.
  - by rewrite <-reverse_app, <-E, reverse_involutive.
  - by apply Forall_reverse.
Qed.

Lemma strip_spec s :
  ∃ ws1 ws2, s = ws1 ++ strip s ++ ws2 ∧
    Forall (λ c, is_space c = true) ws1 ∧ Forall (λ c, is_space c = true) ws2.
Proof.
  destruct (lstrip_spec s) as (ws1 & E1 & H1).
  destruct (rstrip_spec (lstrip s)) as (ws2 & E2 & H2).
  exists ws1, ws2. unfold strip. by rewrite <-E2, <-E1.
Qed.

Lemma lstrip_not_headed s : not_headed is_space (lstrip s).
Proof.
  induction s as [|c s IH]; simpl; [done|].
  destruct (is_space c) eqn:E; [done|]. exact E.
Qed.

Lemma lstrip_id s : not_headed is_space s → lstrip s = s.
Proof. destruct s as [|c s]; simpl; [done|]. by intros ->. Qed.

Lemma lstrip_snoc s c : is_space c = false → ∃ u, lstrip (s ++ [c]) = u ++ [c].
Proof.
  intros Hc. induction s as [|d s [u IH]]; simpl.
  - rewrite Hc. by exists [].
  - destruct (is_space d); [by exists u|]. by exists (d :: s).
Qed.

Lemma rstrip_not_headed s : not_headed is_space s → not_headed is_space (rstrip s).
Proof.
  destruct s as [|c s]; [done|]. simpl. intros Hc. unfold rstrip.
  rewrite reverse_cons. destruct (lstrip_snoc (reverse s) c Hc) as [u ->].
  by rewrite reverse_snoc.
Qed.

Lemma strip_strip s : strip (strip s) = strip s.
Proof.
  unfold strip at 1.
  rewrite (lstrip_id (strip s))
    by (apply rstrip_not_headed, lstrip_not_headed).
  unfold strip, rstrip. rewrite reverse_involutive.
  by rewrite (lstrip_id (lstrip _)) by apply lstrip_not_headed.
Qed.

(** ** [process_marc_records] *)

Lemma split_records_Ok input_text :
  split_records input_text = Ok (records_of input_text).
Proof.
  unfold records_of, split_records. simpl.
  pose proof (split_go_nonempty LDR 0 (strip input_text)).
  destruct (split_go LDR 0 (strip input_text)); done.
Qed.

Lemma records_of_strip s : records_of (strip s) = records_of s.
Proof. unfold records_of, split_records. by rewrite strip_strip. Qed.

Lemma add_fields_loop_Ok m t keys records :
  NoDup keys →
  (∀ k, k ∈ keys → k < length records ∧ is_Some (m !! k)) →
  for_ keys records (add_fields_step m t) = Ok (patched m t keys records).
Proof.
  revert records. induction keys as [|k keys IH]; intros records Hnd Hk;
    cbn [for_].
  - f_equal. unfold patched. apply list_eq. intros j.
    rewrite list_lookup_imap. destruct (records !! j); simpl; [|done].
    by destruct (m !! j).
  - apply NoDup_cons in Hnd as [Hk' Hnd].
    destruct (Hk k) as [Hlt [vs Hvs]]; [by left|].
    destruct (lookup_lt_is_Some_2 records k Hlt) as [r Hr].
    assert (add_fields_step m t k records
            = Ok (<[k := add_missing_852_fields r vs (Some t)]> records)) as ->.
    { unfold add_fields_step. rewrite (index_Ok _ _ _ Hr). simpl.
      unfold getitem. rewrite Hvs. simpl. unfold setitem.
      by rewrite decide_True by done. }
    simpl. rewrite IH; [|done|].
    + f_equal. unfold patched. apply list_eq. intros j.
      rewrite !list_lookup_imap.
      destruct (decide (j = k)) as [->|Hne].
      * rewrite list_lookup_insert_eq by done. rewrite Hr. simpl. rewrite Hvs.
        rewrite decide_False by done. rewrite decide_True; [done|by left].
      * rewrite list_lookup_insert_ne by done.
        destruct (records !! j); simpl; [|done]. destruct (m !! j); [|done].
        destruct (decide (j ∈ keys)).
        -- rewrite decide_True; [done|by right].
        -- rewrite decide_False; [done|]. by intros [?|?]%elem_of_cons.
    + intros k0 Hk0. rewrite length_insert. apply Hk. by right.
Qed.

Lemma sorted_keys_elem_of (m : gmap nat (list Z)) k :
  k ∈ sorted_keys (map_to_list m).*1 ↔ is_Some (m !! k).
Proof.
  unfold sorted_keys. rewrite merge_sort_Permutation.
  rewrite list_elem_of_fmap. split.
  - intros ([k' v] & -> & H). apply elem_of_map_to_list in H. by exists v.
  - intros [v H]. exists (k, v). split; [done|]. by apply elem_of_map_to_list.
Qed.

Lemma sorted_keys_NoDup (m : gmap nat (list Z)) :
  NoDup (sorted_keys (map_to_list m).*1).
Proof.
  unfold sorted_keys. rewrite merge_sort_Permutation.
  apply NoDup_fst_map_to_list.
Qed.

Lemma add_fields_Ok records m t :
  find_missing_852_fields records = Ok m →
  for_ (sorted_keys (map_to_list m).*1) records (add_fields_step m t)
  = Ok (repaired m t records).
Proof.
  intros Hm. rewrite add_fields_loop_Ok.
  - f_equal. unfold patched, repaired. apply imap_ext. intros j r _.
    destruct (m !! j) eqn:E; [|done].
    rewrite decide_True; [done|]. apply sorted_keys_elem_of. by rewrite E.
  - apply sorted_keys_NoDup.
  - intros k Hk%sorted_keys_elem_of. split; [|done].
    by eapply find_missing_852_fields_keys.
Qed.

Lemma repaired_empty t records : repaired ∅ t records = records.
Proof.
  unfold repaired. apply list_eq. intros j. rewrite list_lookup_imap.
  destruct (records !! j); [|done]. simpl. by rewrite lookup_empty.
Qed.

Lemma process_marc_records_Ok input_text :
  process_marc_records input_text =
  Ok (match records_of input_text with
      | [] => input_text
      | _ :: _ =>
          match get_852_field_template (records_of input_text) with
          | None | Some [] => input_text
          | Some template_852 =>
              str_join [LF; LF]
                (repaired (missing_of (records_of input_text)) template_852
                   (records_of input_text))
          end
      end).
Proof.
  unfold process_marc_records. rewrite split_records_Ok. simpl.
  destruct (records_of input_text) as [|r rs] eqn:E; [done|].
  destruct (get_852_field_template (r :: rs)) as [[|c t]|]; [done| |done].
  rewrite find_missing_852_fields_missing_of. simpl.
  fold (add_fields_step (missing_of (r :: rs)) (c :: t)).
  rewrite add_fields_Ok by apply find_missing_852_fields_missing_of. done.
Qed.

Lemma count_records_Ok text : ∃ n, count_records text = Ok n.
Proof. unfold count_records. simpl. by eexists. Qed.

(** ** Counting the headers "=852" *)

Lemma startswith_tag_app a b :
  a ≠ [] → breaks_tag b → startswith (a ++ b) TAG = startswith a TAG.
Proof.
  intros Ha Hb. unfold TAG, lit. simpl.
  destruct a as [|c0 a]; [done|]. simpl. case_decide; [|done].
  destruct a as [|c1 a]; simpl.
  { destruct b as [|c b]; [done|]. destruct Hb as (? & ? & ?). by case_decide. }
  case_decide; [|done].
  destruct a as [|c2 a]; simpl.
  { destruct b as [|c b]; [done|]. destruct Hb as (? & ? & ?). by case_decide. }
  case_decide; [|done].
  destruct a as [|c3 a]; simpl.
  { destruct b as [|c b]; [done|]. destruct Hb as (? & ? & ?). by case_decide. }
  done.
Qed.

Lemma occ_app a b : breaks_tag b → occ (a ++ b) = occ a + occ b.
Proof.
  intros Hb. induction a as [|c a IH]; [done|].
  change ((c :: a) ++ b) with (c :: (a ++ b)). cbn [occ].
  change (c :: (a ++ b)) with ((c :: a) ++ b).
  rewrite startswith_tag_app, IH by done. lia.
Qed.

Lemma occ_app_ge a b : occ a + occ b ≤ occ (a ++ b).
Proof.
  induction a as [|c a IH]; [simpl; lia|].
  change ((c :: a) ++ b) with (c :: (a ++ b)). cbn [occ].
  destruct (startswith (c :: a) TAG) eqn:E; [|lia].
  apply startswith_app in E as [rest E].
  assert (startswith (c :: a ++ b) TAG = true) as ->; [|lia].
  apply startswith_app. exists (rest ++ b).
  change (c :: a ++ b) with ((c :: a) ++ b). by rewrite E, <-app_assoc.
Qed.

Lemma occ_cons c s : c ≠ (ch "=") → occ (c :: s) = occ s.
Proof. intros Hc. cbn [occ]. unfold TAG, lit. simpl. by case_decide. Qed.

Lemma occ_no_eq s : Forall (λ c, c ≠ (ch "=")) s → occ s = 0.
Proof. induction 1 as [|c s Hc _ IH]; [done|]. by rewrite occ_cons. Qed.

Lemma occ_skip ws s : Forall (λ c, c ≠ (ch "=")) ws → occ (ws ++ s) = occ s.
Proof.
  induction 1 as [|c ws Hc _ IH]; [done|].
  change ((c :: ws) ++ s) with (c :: (ws ++ s)). by rewrite occ_cons.
Qed.

Lemma occ_LDR s : occ (LDR ++ s) = occ s.
Proof. unfold LDR, lit. cbn. done. Qed.

Lemma occ_pos_iff s :
  0 < occ s ↔ ∃ pre rest, s = pre ++ TAG ++ rest.
Proof.
  induction s as [|c s IH].
  - simpl. split; [lia|]. intros (pre & rest & E). by destruct pre.
  - cbn [occ]. destruct (startswith (c :: s) TAG) eqn:E.
    + split; [|lia]. intros _. apply startswith_app in E as [rest E].
      by exists [], rest.
    + simpl. rewrite IH. split.
      * intros (pre & rest & ->). by exists (c :: pre), rest.
      * intros (pre & rest & E'). destruct pre as [|c' pre].
        -- simpl in E'. assert (startswith (c :: s) TAG = true); [|congruence].
           apply startswith_app. by exists rest.
        -- injection E' as -> ->. by exists pre, rest.
Qed.

Lemma occ_spaces ws : Forall (λ c, is_space c = true) ws → occ ws = 0.
Proof.
  intros H. apply occ_no_eq. eapply Forall_impl; [done|].
  intros c. apply is_space_not_eq.
Qed.

Lemma spaces_breaks ws : Forall (λ c, is_space c = true) ws → breaks_tag ws.
Proof. destruct 1; [done|]. by apply is_space_breaks. Qed.

Lemma occ_strip s : occ (strip s) = occ s.
Proof.
  destruct (strip_spec s) as (ws1 & ws2 & E & H1 & H2).
  rewrite E at 2. rewrite occ_skip, (occ_app _ ws2).
  - rewrite (occ_spaces ws2) by done. lia.
  - by apply spaces_breaks.
  - eapply Forall_impl; [done|]. intros c. apply is_space_not_eq.
Qed.

Lemma strip_nil_occ s : strip s = [] → occ s = 0.
Proof. intros E. rewrite <-occ_strip, E. done. Qed.

Lemma total_occ_app l1 l2 : total_occ (l1 ++ l2) = total_occ l1 + total_occ l2.
Proof. apply sum_list_with_app. Qed.

Lemma occ_join_LDR parts : occ (str_join LDR parts) = total_occ parts.
Proof.
  unfold total_occ. induction parts as [|p [|q parts] IH]; [done|simpl; lia|].
  rewrite str_join_cons by done. rewrite occ_app, occ_LDR, IH; [done|].
  unfold LDR, lit. simpl. split_and!; done.
Qed.

Lemma occ_join_ge sep l : total_occ l ≤ occ (str_join sep l).
Proof.
  unfold total_occ. induction l as [|p [|q l] IH]; [done|simpl; lia|].
  rewrite str_join_cons by done.
  pose proof (occ_app_ge p (sep ++ str_join sep (q :: l))).
  pose proof (occ_app_ge sep (str_join sep (q :: l))).
  change (sum_list_with occ (p :: q :: l))
    with (occ p + sum_list_with occ (q :: l)). lia.
Qed.

Lemma occ_join_blank_line l : occ (str_join [LF; LF] l) = total_occ l.
Proof.
  induction l as [|p [|q l] IH]; [done|cbn; lia|].
  rewrite str_join_cons by done. rewrite occ_app; [|done].
  change ([LF; LF] ++ ?x) with (LF :: LF :: x).
  rewrite !occ_cons, IH by done. done.
Qed.

(** The records hold the headers of the input, and a repaired record
    those of the record. *)

Lemma total_occ_records_of input_text :
  total_occ (records_of input_text) = occ input_text.
Proof.
  unfold records_of, split_records. simpl.
  rewrite <-(occ_strip input_text).
  rewrite <-(split_join LDR (strip input_text)) at 2 by done.
  rewrite occ_join_LDR.
  destruct (split_go LDR 0 (strip input_text)) as [|first parts] eqn:E.
  { by apply split_go_nonempty in E. }
  clear E. simpl.
  assert (∀ records,
    total_occ (foldl (λ records part,
                        match strip part with
                        | [] => records
                        | _ :: _ => records ++ [LDR ++ part]
                        end) records (drop 0 parts))
    = total_occ records + total_occ parts) as Hfold.
  { rewrite drop_0. induction parts as [|p parts IH]; intros records;
      cbn [foldl].
    - change (total_occ []) with 0. lia.
    - rewrite IH. change (total_occ (p :: parts)) with (occ p + total_occ parts).
      destruct (strip p) eqn:Ep.
      + rewrite (strip_nil_occ p Ep). lia.
      + rewrite total_occ_app. change (total_occ [LDR ++ p]) with (occ (LDR ++ p) + 0).
        rewrite occ_LDR. lia. }
  rewrite Hfold. change (total_occ (first :: parts)) with (occ first + total_occ parts).
  destruct (strip first) eqn:Ef.
  - rewrite (strip_nil_occ first Ef). done.
  - rewrite <-Ef. change (total_occ [strip first]) with (occ (strip first) + 0).
    rewrite occ_strip. lia.
Qed.

Lemma splitlines_head s l ls :
  splitlines s = l :: ls → ∃ b, s = l ++ b ∧ breaks_tag b.
Proof.
  revert l ls. induction s as [|c s IH]; intros l ls; [done|]. cbn [splitlines].
  destruct (is_linebreak c) eqn:Hc.
  - intros [= <- _]. exists (c :: s). split; [done|]. by apply is_linebreak_breaks.
  - destruct (splitlines s) as [|l' ls'] eqn:E.
    + intros [= <- _]. destruct s as [|d s].
      * by exists [].
      * exfalso. cbn [splitlines] in E. repeat case_match; done.
    + intros [= <- _]. destruct (IH _ _ eq_refl) as (b & -> & Hb).
      by exists b.
Qed.

Lemma total_occ_splitlines s : total_occ (splitlines s) = occ s.
Proof.
  remember (length s) as n eqn:Hn.
  revert s Hn. induction (lt_wf n) as [n _ IH]. intros s Hn.
  destruct s as [|c s]; [done|]. cbn [splitlines].
  destruct (is_linebreak c) eqn:Hc.
  - rewrite occ_cons by by apply is_linebreak_not_eq.
    change (total_occ ([] :: ?l)) with (total_occ l).
    assert (total_occ (splitlines s) = occ s) as Hs.
    { apply (IH (length s)); [rewrite Hn; simpl; lia|done]. }
    case_decide; [|done]. destruct s as [|d s]; [done|].
    case_decide; [subst d|done].
    rewrite (occ_cons LF) by done.
    apply (IH (length s)); [rewrite Hn; simpl; lia|done].
  - assert (total_occ (splitlines s) = occ s) as Hs.
    { apply (IH (length s)); [rewrite Hn; simpl; lia|done]. }
    destruct (splitlines s) as [|l ls] eqn:E.
    + destruct s as [|d s]; [done|].
      exfalso. cbn [splitlines] in E. repeat case_match; done.
    + apply splitlines_head in E as (b & -> & Hb).
      change (total_occ ((c :: l) :: ls)) with (occ (c :: l) + total_occ ls).
      change (total_occ (l :: ls)) with (occ l + total_occ ls) in Hs.
      change (c :: l ++ b) with ((c :: l) ++ b).
      rewrite occ_app in Hs |- * by done. lia.
Qed.

Lemma occ_add_missing_852_fields record vs template :
  occ record ≤ occ (add_missing_852_fields record vs template).
Proof.
  unfold add_missing_852_fields.
  destruct vs as [|v vs]; [done|]. destruct template as [[|c t]|]; [done| |done].
  set (k := find_insert_index _ _ _).
  etrans; [|apply occ_join_ge].
  rewrite <-total_occ_splitlines.
  rewrite <-(take_drop k (splitlines record)) at 1.
  rewrite !total_occ_app. 
  assert (total_occ (take k (splitlines record)) ≤
          total_occ (foldl (λ new_lines missing_p,
                       new_lines ++ [new_852 (c :: t) missing_p])
                     (take k (splitlines record)) (v :: vs))); [|lia].
  generalize (take k (splitlines record)). generalize (v :: vs).
  intros l. induction l as [|x l IH]; intros init; simpl; [done|].
  etrans; [|apply IH]. rewrite total_occ_app. lia.
Qed.

Lemma total_occ_imap (f : nat → str → str) l :
  (∀ j r, occ r ≤ occ (f j r)) → total_occ l ≤ total_occ (imap f l).
Proof.
  revert f. induction l as [|r l IH]; intros f Hf; [done|].
  change (total_occ (imap f (r :: l)))
    with (occ (f 0 r) + total_occ (imap (f ∘ S) l)).
  change (total_occ (r :: l)) with (occ r + total_occ l).
  pose proof (Hf 0 r). pose proof (IH (f ∘ S) (λ j r, Hf (S j) r)). lia.
Qed.

Lemma total_occ_repaired m t records :
  total_occ records ≤ total_occ (repaired m t records).
Proof.
  apply total_occ_imap. intros j r. destruct (m !! j); [|done].
  apply occ_add_missing_852_fields.
Qed.

Lemma occ_process_marc_records input_text output_text :
  process_marc_records input_text = Ok output_text →
  occ input_text ≤ occ output_text.
Proof.
  rewrite process_marc_records_Ok. intros [= <-].
  destruct (records_of input_text) as [|r rs] eqn:E; [done|].
  destruct (get_852_field_template (r :: rs)) as [[|c t]|]; [done| |done].
  etrans; [|apply occ_join_ge]. etrans; [|apply total_occ_repaired].
  by rewrite <-E, total_occ_records_of.
Qed.

(** The count of [get_processing_stats], and the template. *)

Lemma rmatch_852 s :
  rmatch re_852 s =
  if startswith s TAG then Some [[(ch "=")]; [(ch "8")]; [(ch "5")]; [(ch "2")]]
  else None.
Proof.
  unfold re_852, TAG, lit. cbn.
  repeat (destruct s as [|? s]; [done|]; case_decide; [subst|done]; cbn).
  done.
Qed.

Lemma scan_852_length s k :
  (∀ i c, i < k → s !! i = Some c → c ≠ (ch "=")) →
  length (matches (scan re_852 k s)) = occ s.
Proof.
  revert k. induction s as [|c s IH]; intros k Hk.
  - by destruct k.
  - cbn [occ]. destruct k as [|k].
    + rewrite matches_scan_0, rmatch_852.
      destruct (startswith (c :: s) TAG) eqn:E.
      * change (length (group0 _) - 1) with 3. cbn [length].
        rewrite (IH 3); [done|].
        apply startswith_app in E as [rest E]. injection E as -> ->.
        intros [|[|[|i]]] d Hi Hd; [simpl in Hd; by simplify_eq..|lia].
      * by rewrite (IH 0) by (intros; lia).
    + cbn [scan].
      rewrite (IH k) by (intros i d Hi Hd; apply (Hk (S i) d); [lia|done]).
      assert (startswith (c :: s) TAG = false) as ->; [|done].
      specialize (Hk 0 c). unfold TAG, lit. cbn. case_decide; [|done].
      exfalso. apply Hk; [lia|done|done].
Qed.

Lemma count_852_occ text : count_852 text = Z.of_nat (occ text).
Proof.
  unfold count_852, finditer. rewrite scan_852_length; [done|]. intros; lia.
Qed.

Lemma rmatch_852_line s m :
  rmatch re_852_line s = Some m →
  startswith s TAG = true ∧ group1 re_852_line m ≠ [].
Proof.
  unfold re_852_line, TAG, lit. cbn. intros H.
  apply fmap_Some in H as (? & H & ->).
  repeat literal H s.
  split; [by cbn; repeat case_decide|done].
Qed.

Lemma get_852_field_template_Some records t :
  get_852_field_template records = Some t →
  t ≠ [] ∧ ∃ record, record ∈ records ∧ 0 < occ record.
Proof.
  induction records as [|r records IH]; [done|]. simpl.
  destruct (search re_852_line r) as [m|] eqn:E.
  - intros [= <-].
    apply search_Some in E as (pre & rest & -> & Hm).
    apply rmatch_852_line in Hm as [Hs Hg]. split; [done|].
    exists (pre ++ rest). split; [by left|].
    apply startswith_app in Hs as [rest' ->].
    apply occ_pos_iff. by exists pre, rest'.
  - intros [? (record & ? & ?)]%IH. split; [done|].
    exists record. split; [by right|done].
Qed.

Lemma no_header_no_template input_text :
  occ input_text = 0 → get_852_field_template (records_of input_text) = None.
Proof.
  intros H0.
  destruct (get_852_field_template (records_of input_text)) as [t|] eqn:E;
    [|done].
  apply get_852_field_template_Some in E as [_ (record & Hin & Hpos)].
  pose proof (sum_list_with_in _ occ _ Hin) as Hle.
  fold (total_occ (records_of input_text)) in Hle.
  rewrite total_occ_records_of in Hle. lia.
Qed.

(** ** The first match of a search *)

Section first_match.
Context (r : regex).

Lemma search_None s :
  search r s = None ↔ ∀ pre rest, s = pre ++ rest → rmatch r rest = None.
Proof.
  unfold search, finditer. induction s as [|c s IH].
  - simpl. split.
    + intros H pre rest E. symmetry in E. apply app_eq_nil in E as [-> ->].
      by destruct (rmatch r []).
    + intros H. by rewrite (H [] []).
  - rewrite matches_scan_0. split.
    + intros H pre rest E.
      destruct (rmatch r (c :: s)) as [m|] eqn:Hm; [done|].
      destruct pre as [|d pre]; simpl in E; [by subst|].
      injection E as -> ->. by apply (proj1 IH H pre).
    + intros H. rewrite (H [] (c :: s)) by done.
      apply IH. intros pre rest ->. by apply (H (c :: pre)).
Qed.

Lemma search_first s m :
  search r s = Some m →
  ∃ pre rest, s = pre ++ rest ∧ rmatch r rest = Some m ∧
    ∀ pre1 pre2, pre = pre1 ++ pre2 → pre2 ≠ [] →
      rmatch r (pre2 ++ rest) = None.
Proof.
  unfold search, finditer. induction s as [|c s IH].
  - simpl. destruct (rmatch r []) as [m'|] eqn:E; [|done].
    intros [= <-]. exists [], []. split_and!; [done..|].
    intros pre1 pre2 E'. symmetry in E'. by apply app_eq_nil in E' as [_ ->].
  - rewrite matches_scan_0.
    destruct (rmatch r (c :: s)) as [m'|] eqn:E.
    + intros [= <-]. exists [], (c :: s). split_and!; [done..|].
      intros pre1 pre2 E'. symmetry in E'. by apply app_eq_nil in E' as [_ ->].
    + intros (pre & rest & -> & Hm & Hfirst)%IH.
      exists (c :: pre), rest. split_and!; [done..|].
      intros pre1 pre2 E' Hne.
      destruct pre1 as [|d pre1]; simpl in E'.
      * by subst.
      * injection E' as -> ->. by apply (Hfirst pre1).
Qed.

End first_match.

(** ** The pattern of [get_852_field_template] *)

Lemma rmatch_852_line_sound s m :
  rmatch re_852_line s = Some m →
  ∃ ws tail post,
    s = lit "=852" ++ ws ++ tail ++ post ∧
    group1 re_852_line m = lit "=852" ++ ws ++ tail ∧
    ws ≠ [] ∧ Forall (λ c, is_space c = true) ws ∧
    not_headed is_space tail ∧
    Forall (λ c, c ≠ LF) tail ∧
    (post = [] ∨ ∃ post', post = LF :: post').
Proof.
  unfold re_852_line. intros H. cbn [rmatch] in H.
  apply fmap_Some in H as (? & H & ->).
  repeat literal H s.
  destruct s as [|c s]; [done|]. simpl in H.
  destruct (is_space c) eqn:Hc; [|done].
  apply fmap_Some in H as ([ws segs] & H & ->).
  destruct (run_split is_space s) as (a & b & -> & Ha & Hb).
  destruct (run_split (λ c, negb (bool_decide (c = LF))) b)
    as (tail & post & -> & Htail & Hpost).
  rewrite (greedy_longest _ _ a (tail ++ post) [tail; []]) in H; [|done| |].
  - injection H as <- <-.
    exists (c :: a), tail, post. split_and!.
    + done.
    + unfold group1. cbn. by rewrite app_nil_r.
    + done.
    + by constructor.
    + destruct tail as [|x tail]; [done|].
      destruct post; exact Hb.
    + eapply Forall_impl; [exact Htail|]. intros x Hx ->. done.
    + destruct post as [|x post]; [by left|]. right. exists post.
      simpl in Hpost. apply negb_false_iff, bool_decide_eq_true in Hpost.
      by subst.
  - done.
  - cbn. by rewrite (greedy_longest _ _ tail post [[]]).
Qed.

Lemma rmatch_852_line_complete s :
  field_start s → is_Some (rmatch re_852_line s).
Proof.
  intros (c & t & -> & Hc). unfold re_852_line. cbn. repeat case_decide; try done.
  rewrite Hc.
  destruct (run_split is_space t) as (a & b & -> & Ha & Hb).
  destruct (run_split (λ c, negb (bool_decide (c = LF))) b)
    as (tail & post & -> & Htail & Hpost).
  rewrite (greedy_longest _ _ a (tail ++ post) [tail; []]); [by eexists|done| |].
  - done.
  - cbn. by rewrite (greedy_longest _ _ tail post [[]]).
Qed.

Lemma rmatch_852_line_None s :
  rmatch re_852_line s = None ↔ ¬ field_start s.
Proof.
  split.
  - intros H [m Hm]%rmatch_852_line_complete. congruence.
  - intros H. destruct (rmatch re_852_line s) as [m|] eqn:Hm; [|done].
    destruct H.
    apply rmatch_852_line_sound in Hm
      as (ws & tail & post & -> & _ & Hne & Hws & _).
    destruct ws as [|c ws]; [done|]. apply Forall_cons in Hws as [Hc _].
    by exists c, (ws ++ tail ++ post).
Qed.

Lemma search_852_line_None record :
  search re_852_line record = None ↔ ¬ has_852_field record.
Proof.
  rewrite search_None. split.
  - intros H (pre & rest & -> & Hs).
    by apply (rmatch_852_line_None rest); [apply (H pre)|].
  - intros H pre rest ->. apply rmatch_852_line_None.
    intros Hs. apply H. by exists pre, rest.
Qed.

Lemma get_852_field_template_first records t :
  get_852_field_template records = Some t →
  ∃ before record after m,
    records = before ++ record :: after ∧
    Forall (λ r, ¬ has_852_field r) before ∧
    search re_852_line record = Some m ∧ t = group1 re_852_line m.
Proof.
  induction records as [|r records IH]; [done|]. simpl.
  destruct (search re_852_line r) as [m|] eqn:E.
  - intros [= <-]. exists [], r, records, m. by split_and!.
  - intros (before & record & after & m & -> & Hb & Hm & ->)%IH.
    exists (r :: before), record, after, m. split_and!; [done| |done..].
    constructor; [by apply search_852_line_None|done].
Qed.

(** ** The parts of [str.split] and the record list *)

Lemma split_go_head sep s p ps :
  sep ≠ [] → split_go sep 0 s = p :: ps → ∃ b, s = p ++ b.
Proof.
  intros Hsep E. pose proof (split_join sep s Hsep) as H. rewrite E in H.
  destruct ps as [|q ps].
  - exists []. by rewrite app_nil_r.
  - rewrite str_join_cons in H by done. by eexists.
Qed.

Lemma split_go_no_sep sep s :
  sep ≠ [] → Forall (λ part, ¬ occurs sep part) (split_go sep 0 s).
Proof.
  intros Hsep. remember (length s) as n eqn:Hn.
  revert s Hn. induction (lt_wf n) as [n _ IH]. intros s Hn.
  destruct s as [|c s].
  { repeat constructor. intros (pre & post & E). symmetry in E.
    apply app_eq_nil in E as [_ E]. by apply app_eq_nil in E as [? _]. }
  cbn [split_go]. destruct (startswith (c :: s) sep) eqn:Hs.
  - constructor.
    + intros (pre & post & E). symmetry in E.
      apply app_eq_nil in E as [_ E]. by apply app_eq_nil in E as [? _].
    + rewrite split_go_skip. apply (IH (length (drop (length sep - 1) s)));
        [rewrite Hn, length_drop; simpl; lia|done].
  - assert (Forall (λ part, ¬ occurs sep part) (split_go sep 0 s)) as Hrec.
    { apply (IH (length s)); [rewrite Hn; simpl; lia|done]. }
    destruct (split_go sep 0 s) as [|p ps] eqn:E.
    { by apply split_go_nonempty in E. }
    apply Forall_cons in Hrec as [Hp Hps]. constructor; [|done].
    intros (pre & post & E').
    destruct pre as [|d pre]; simpl in E'.
    + apply (split_go_head _ _ _ _ Hsep) in E as [b ->].
      assert (startswith (c :: p ++ b) sep = true) as Hs'.
      { apply startswith_app. exists (post ++ b).
        change (c :: p ++ b) with ((c :: p) ++ b).
        by rewrite E', <-app_assoc. }
      congruence.
    + injection E' as -> ->. apply Hp. by exists pre, post.
Qed.

Lemma LDR_at_start part pre post :
  ¬ occurs LDR part → LDR ++ part = pre ++ LDR ++ post → pre = [].
Proof.
  intros Hno E.
  destruct pre as [|c1 [|c2 [|c3 [|c4 pre]]]]; [done|exfalso..].
  - destruct part as [|x part]; [done|]. cbn in E. simplify_eq.
  - destruct part as [|x [|y part]]; cbn in E; simplify_eq.
  - destruct part as [|x [|y [|z part]]]; cbn in E; simplify_eq.
  - cbn in E. injection E as <- <- <- <- ->. apply Hno. by exists pre, post.
Qed.

Lemma occurs_strip sep s : occurs sep (strip s) → occurs sep s.
Proof.
  intros (pre & post & E).
  destruct (strip_spec s) as (ws1 & ws2 & Hs & _).
  exists (ws1 ++ pre), (post ++ ws2).
  rewrite Hs at 1. rewrite E. by rewrite <-!app_assoc.
Qed.

Lemma strip_LDR_nonempty part : strip (LDR ++ part) ≠ [].
Proof.
  intros E. destruct (strip_spec (LDR ++ part)) as (ws1 & ws2 & Hs & H1 & H2).
  rewrite E in Hs.
  assert (Forall (λ c, is_space c = true) (LDR ++ part)) as H.
  { rewrite Hs. apply Forall_app. split; [done|]. by apply Forall_app. }
  by apply Forall_cons in H as [? _].
Qed.

Lemma records_fold (records : list str) (parts : list str) :
  foldl (λ records part,
           match strip part with
           | [] => records
           | _ :: _ => records ++ [LDR ++ part]
           end) records parts
  = records ++ ((λ part, LDR ++ part) <$> filter (λ part, strip part ≠ []) parts).
Proof.
  revert records. induction parts as [|p parts IH]; intros records; cbn [foldl].
  - by rewrite app_nil_r.
  - rewrite IH, filter_cons. destruct (strip p) eqn:E.
    + by rewrite decide_False by (by intros []).
    + rewrite decide_True by done. by rewrite <-app_assoc.
Qed.

Lemma records_of_shape input_text :
  ∃ first parts,
    split_go LDR 0 (strip input_text) = first :: parts ∧
    records_of input_text =
      match strip first with [] => [] | _ :: _ => [strip first] end
      ++ ((λ part, LDR ++ part) <$> filter (λ part, strip part ≠ []) parts).
Proof.
  unfold records_of, split_records. simpl.
  destruct (split_go LDR 0 (strip input_text)) as [|first parts] eqn:E.
  { by apply split_go_nonempty in E. }
  exists first, parts. split; [done|]. simpl. by rewrite drop_0, records_fold.
Qed.

Lemma records_of_elem input_text i record :
  records_of input_text !! i = Some record →
  (i = 0 ∧ strip record ≠ [] ∧ ¬ occurs LDR record)
  ∨ (∃ part, record = LDR ++ part ∧ strip part ≠ [] ∧ ¬ occurs LDR part).
Proof.
  destruct (records_of_shape input_text) as (first & parts & E & ->).
  pose proof (split_go_no_sep LDR (strip input_text)) as Hno.
  rewrite E in Hno. apply Forall_cons in Hno as [Hfirst Hparts]; [|done].
  assert (∀ k, ((λ part, LDR ++ part) <$>
                  filter (λ part, strip part ≠ []) parts) !! k = Some record →
               ∃ part, record = LDR ++ part ∧ strip part ≠ [] ∧
                       ¬ occurs LDR part) as Hrest.
  { intros k Hk. apply list_lookup_fmap_Some in Hk as (part & -> & Hk).
    exists part. split; [done|].
    apply list_elem_of_lookup_2, list_elem_of_filter in Hk as [Hne Hk].
    split; [done|]. by apply (proj1 (Forall_forall _ _) Hparts). }
  intros Hi. destruct (strip first) as [|c f] eqn:Ef.
  - right. by apply (Hrest i).
  - destruct i as [|i]; simpl in Hi.
    + left. injection Hi as <-. rewrite <-Ef. split_and!; [done| |].
      * rewrite strip_strip. by rewrite Ef.
      * intros H. by apply Hfirst, occurs_strip.
    + right. by apply (Hrest i).
Qed.

Lemma LDR_at_start_only_free record :
  ¬ occurs LDR record → LDR_at_start_only record.
Proof. intros Hno pre post E. destruct Hno. by exists pre, post. Qed.

Lemma records_of_LDR_at_start_only input_text i record :
  records_of input_text !! i = Some record → LDR_at_start_only record.
Proof.
  intros [(_ & _ & Hno)|(part & -> & _ & Hno)]%records_of_elem.
  - by apply LDR_at_start_only_free.
  - intros pre post. by apply LDR_at_start.
Qed.

Lemma splitlines_lookup s i line :
  splitlines s !! i = Some line →
  ∃ pre post, s = pre ++ line ++ post ∧ (0 < i → pre ≠ []).
Proof.
  remember (length s) as n eqn:Hn.
  revert s i line Hn. induction (lt_wf n) as [n _ IH]. intros s i line Hn.
  destruct s as [|c s]; [done|]. cbn [splitlines].
  assert (∀ s' a j, s = a ++ s' → splitlines s' !! j = Some line →
            ∃ pre post, c :: s = pre ++ line ++ post ∧ pre ≠ []) as Hnext.
  { intros s' a j -> Hj.
    destruct (IH (length s')) with (s := s') (i := j) (line := line)
      as (pre & post & -> & _); [rewrite Hn; simpl; rewrite length_app; lia|done..|].
    exists (c :: a ++ pre), post. split; [|done]. simpl. by rewrite <-app_assoc. }
  destruct (is_linebreak c) eqn:Hc.
  - destruct i as [|i].
    + intros [= <-]. exists [], (c :: s). split; [done|lia].
    + cbn [lookup list_lookup].
      intros Hi.
      assert (∃ pre post, c :: s = pre ++ line ++ post ∧ pre ≠ [])
        as (pre & post & E & Hpre); [|by exists pre, post].
      case_decide.
      * destruct s as [|d s]; [done|]. case_decide.
        -- by apply (Hnext s [d] i).
        -- by apply (Hnext (d :: s) [] i).
      * by apply (Hnext s [] i).
  - destruct (splitlines s) as [|l ls] eqn:E.
    + destruct i as [|i]; [|done]. intros [= <-].
      destruct s as [|d s].
      * exists [], []. split; [done|lia].
      * exfalso. cbn [splitlines] in E. repeat case_match; done.
    + destruct i as [|i].
      * intros [= <-]. apply splitlines_head in E as (b & -> & _).
        exists [], b. split; [done|lia].
      * cbn [lookup list_lookup]. intros Hi.
        destruct (Hnext s [] (S i)) as (pre & post & E' & Hpre);
          [done|by rewrite E|].
        by exists pre, post.
Qed.

(** ** [str(n)] and [int(s)] *)

Lemma lit_digits_uint d :
  Forall (λ c, is_digit c = true ∧ c ≠ ch "=")
    (lit (NilEmpty.string_of_uint d)).
Proof. induction d; simpl; constructor; done. Qed.

Lemma digits_val_uint_acc d acc :
  digits_val (Zpos acc) (lit (NilEmpty.string_of_uint d))
  = Zpos (Pos.of_uint_acc d acc).
Proof.
  revert acc. induction d as [|d IH|d IH|d IH|d IH|d IH|d IH|d IH|d IH|d IH|d IH];
    intros acc; [done|..];
    cbn [NilEmpty.string_of_uint lit list_ascii_of_string fmap list_fmap
         digits_val Pos.of_uint_acc];
    match goal with
    | |- digits_val (_ + digit_value ?c)%Z _ = _ =>
        let v := eval vm_compute in (digit_value c) in
        change (digit_value c) with v
    end;
    rewrite <-IH; f_equal; lia.
Qed.

Lemma digits_val_uint d :
  digits_val 0 (lit (NilEmpty.string_of_uint d)) = Z.of_N (Pos.of_uint d).
Proof.
  induction d as [|d IH|d IH|d IH|d IH|d IH|d IH|d IH|d IH|d IH|d IH];
    [done|exact IH|..];
    cbn [NilEmpty.string_of_uint lit list_ascii_of_string fmap list_fmap
         digits_val Pos.of_uint];
    match goal with
    | |- digits_val (_ + digit_value ?c)%Z _ = _ =>
        let v := eval vm_compute in (digit_value c) in
        change (digit_value c) with v
    end;
    apply (digits_val_uint_acc d).
Qed.

Lemma str_of_int_digits v :
  (0 ≤ v)%Z →
  str_of_int v ≠ [] ∧
  Forall (λ c, is_digit c = true ∧ c ≠ ch "=") (str_of_int v) ∧
  digits_val 0 (str_of_int v) = v.
Proof.
  intros Hv. destruct v as [|p|p]; [by repeat constructor| |lia].
  unfold str_of_int. cbn [Z.to_int NilZero.string_of_int].
  pose proof (DecimalPos.Unsigned.to_uint_nonnil p) as Hnil.
  pose proof (DecimalPos.Unsigned.of_to p) as Hof.
  assert (NilZero.string_of_uint (Pos.to_uint p)
          = NilEmpty.string_of_uint (Pos.to_uint p)) as ->.
  { by destruct (Pos.to_uint p). }
  split_and!.
  - by destruct (Pos.to_uint p).
  - apply lit_digits_uint.
  - by rewrite digits_val_uint, Hof.
Qed.

(** ** The substitution of [add_missing_852_fields] *)

Lemma scan_skip r k s :
  k ≤ length s → scan r k s = scan r 0 (drop k s).
Proof.
  revert s. induction k as [|k IH]; intros s Hk; [done|].
  destruct s as [|c s]; simpl in Hk; [lia|]. simpl. apply IH. lia.
Qed.

Lemma rmatch_p_subfield_sound s m :
  rmatch re_p_subfield s = Some m →
  ∃ ds rest,
    s = lit "$p" ++ ds ++ rest ∧ ds ≠ [] ∧
    Forall (λ c, is_digit c = true) ds ∧ not_headed is_digit rest ∧
    group0 m = lit "$p" ++ ds.
Proof.
  unfold re_p_subfield. intros H.
  repeat literal H s.
  destruct s as [|d s]; [done|]. simpl in H.
  destruct (is_digit d) eqn:Hd; [|done].
  apply fmap_Some in H as ([ds segs] & H & ->).
  destruct (run_split is_digit s) as (a & rest & -> & Ha & Hrest).
  rewrite (greedy_longest _ _ a rest []) in H by done.
  injection H as <- <-.
  exists (d :: a), rest. split_and!; [done|done|by constructor|done|].
  unfold group0. cbn. by rewrite app_nil_r.
Qed.

Lemma rmatch_p_subfield_complete ds rest :
  ds ≠ [] → Forall (λ c, is_digit c = true) ds → not_headed is_digit rest →
  ∃ m, rmatch re_p_subfield (lit "$p" ++ ds ++ rest) = Some m ∧
       group0 m = lit "$p" ++ ds.
Proof.
  intros Hne Hds Hrest. destruct ds as [|d ds]; [done|].
  apply Forall_cons in Hds as [Hd Hds].
  exists [[ch "$"]; [ch "p"]; d :: ds]. split.
  - unfold re_p_subfield. cbn. rewrite Hd.
    by rewrite (greedy_longest _ _ ds rest []).
  - unfold group0. cbn. by rewrite app_nil_r.
Qed.

Lemma rmatch_p_subfield_None s :
  rmatch re_p_subfield s = None ↔ ¬ marker_start s.
Proof.
  split.
  - intros H (d & rest & -> & Hd).
    destruct (run_split is_digit rest) as (a & b & -> & Ha & Hb).
    destruct (rmatch_p_subfield_complete (d :: a) b) as (m & Hm & _);
      [done|by constructor|done|].
    simpl in Hm, H. congruence.
  - intros H. destruct (rmatch re_p_subfield s) as [m|] eqn:Hm; [|done].
    destruct H.
    apply rmatch_p_subfield_sound in Hm as (ds & rest & -> & Hne & Hds & _).
    destruct ds as [|d ds]; [done|]. apply Forall_cons in Hds as [Hd _].
    by exists d, (ds ++ rest).
Qed.

Section substitution.
Context (repl : str).

Lemma sub_no_match c s :
  ¬ marker_start (c :: s) →
  sub re_p_subfield repl (c :: s) = c :: sub re_p_subfield repl s.
Proof.
  intros H%rmatch_p_subfield_None. unfold sub. cbn [scan]. by rewrite H.
Qed.

Lemma sub_match ds rest :
  ds ≠ [] → Forall (λ c, is_digit c = true) ds → not_headed is_digit rest →
  sub re_p_subfield repl (lit "$p" ++ ds ++ rest)
  = repl ++ sub re_p_subfield repl rest.
Proof.
  intros Hne Hds Hrest.
  destruct (rmatch_p_subfield_complete ds rest) as (m & Hm & Hg); [done..|].
  unfold sub. change (lit "$p" ++ ds ++ rest) with (ch "$" :: ch "p" :: ds ++ rest) in *.
  cbn [scan]. rewrite Hm, Hg. cbn [length app lit].
  change (length (lit "$p" ++ ds)) with (S (S (length ds))).
  cbn [fmap list_fmap concat].
  rewrite scan_skip by (simpl; rewrite length_app; lia).
  cbn [drop]. by rewrite drop_app_length.
Qed.

Lemma sub_skip pre s :
  Forall (λ c, c ≠ ch "$") pre →
  sub re_p_subfield repl (pre ++ s) = pre ++ sub re_p_subfield repl s.
Proof.
  induction 1 as [|c pre Hc _ IH]; [done|]. simpl.
  rewrite sub_no_match, IH; [done|].
  intros (d & rest & E & _). by injection E as ->.
Qed.

Lemma sub_not_headed s :
  repl ≠ [] → not_headed is_digit repl → not_headed is_digit s →
  not_headed is_digit (sub re_p_subfield repl s).
Proof.
  intros Hne Hrepl Hs. destruct s as [|c s]; [done|].
  destruct (rmatch re_p_subfield (c :: s)) as [m|] eqn:Hm.
  - apply rmatch_p_subfield_sound in Hm as (ds & rest & E & ? & ? & ? & _).
    rewrite E, sub_match by done. by destruct repl.
  - apply rmatch_p_subfield_None in Hm. by rewrite sub_no_match.
Qed.

Lemma sub_no_marker s :
  search re_p_subfield s = None → sub re_p_subfield repl s = s.
Proof.
  rewrite search_None. induction s as [|c s IH]; intros H; [done|].
  rewrite sub_no_match.
  - rewrite IH; [done|]. intros pre rest ->. by apply (H (c :: pre)).
  - apply rmatch_p_subfield_None. by apply (H []).
Qed.

Lemma startswith_sub r' s p :
  repl = ch "$" :: r' → Forall (λ c, c ≠ ch "$") p →
  startswith (sub re_p_subfield repl s) p = startswith s p.
Proof.
  intros Hrepl Hp. revert s.
  induction Hp as [|c p Hc _ IH]; intros s; [done|].
  destruct s as [|d s]; [done|].
  destruct (rmatch re_p_subfield (d :: s)) as [m|] eqn:Hm.
  - apply rmatch_p_subfield_sound in Hm as (ds & rest & E & ? & ? & ? & _).
    rewrite E, sub_match by done. rewrite Hrepl. cbn [startswith lit app].
    cbn. by rewrite !decide_False by done.
  - apply rmatch_p_subfield_None in Hm. rewrite sub_no_match by done.
    cbn. case_decide; [|done]. apply IH.
Qed.

Lemma occ_sub r' s :
  repl = ch "$" :: r' → Forall (λ c, c ≠ ch "=") r' →
  occ (sub re_p_subfield repl s) = occ s.
Proof.
  intros Hrepl Hr'. remember (length s) as n eqn:Hn.
  revert s Hn. induction (lt_wf n) as [n _ IH]. intros s Hn.
  destruct s as [|c s]; [done|].
  destruct (rmatch re_p_subfield (c :: s)) as [m|] eqn:Hm.
  - apply rmatch_p_subfield_sound in Hm as (ds & rest & E & ? & Hds & ? & _).
    rewrite E, sub_match by done.
    rewrite (app_assoc (lit "$p") ds rest), (occ_skip (lit "$p" ++ ds)).
    + rewrite (occ_skip repl).
      * apply (IH (length rest)); [|done].
        rewrite Hn, E. cbn. rewrite length_app. lia.
      * rewrite Hrepl. by constructor.
    + repeat constructor; [done..|].
      eapply Forall_impl; [exact Hds|]. by intros x Hx ->.
  - apply rmatch_p_subfield_None in Hm. rewrite sub_no_match by done.
    cbn [occ]. f_equal.
    + change TAG with (ch "=" :: lit "852"). cbn [startswith].
      case_decide; [|done].
      rewrite (startswith_sub r'); [done..|]. by repeat constructor.
    + apply (IH (length s)); [rewrite Hn; simpl; lia|done].
Qed.

End substitution.

(** ** The new fields *)

Lemma p_field_ok_str_of_int ws mid ds v :
  p_field_ok ws mid ds → (0 ≤ v)%Z → p_field_ok ws mid (str_of_int v).
Proof.
  intros [] (Hne & Hd & _)%str_of_int_digits. split; [done..|].
  eapply Forall_impl; [exact Hd|]. by intros c [? _].
Qed.

Lemma new_852_p_field ws mid ds rest v :
  p_field_ok ws mid ds → not_headed is_digit rest →
  new_852 (p_field ws mid ds ++ rest) v
  = p_field ws mid (str_of_int v) ++ new_852 rest v.
Proof.
  intros Hok Hrest. unfold new_852. rewrite p_field_split, sub_skip.
  - change (ch "$" :: ch "p" :: ds ++ rest) with (lit "$p" ++ ds ++ rest).
    rewrite sub_match by (done || by destruct Hok).
    unfold p_field. by rewrite <-!app_assoc.
  - eapply Forall_impl; [by apply (p_field_head_no_dollar ws mid ds)|].
    intros c. apply no_dollar_true.
Qed.

Lemma new_852_not_headed rest v :
  not_headed is_digit rest → not_headed is_digit (new_852 rest v).
Proof. intros H. by apply sub_not_headed. Qed.

Lemma occ_new_852 t v : (0 ≤ v)%Z → occ (new_852 t v) = occ t.
Proof.
  intros (_ & Hd & _)%str_of_int_digits.
  apply (occ_sub _ (ch "p" :: str_of_int v)); [done|].
  constructor; [done|]. eapply Forall_impl; [exact Hd|]. by intros c [_ ?].
Qed.

Lemma add_missing_852_fields_lines record v vs c t :
  add_missing_852_fields record (v :: vs) (Some (c :: t)) =
  str_join [LF]
    (take (find_insert_index 0 (splitlines record) (length (splitlines record)))
       (splitlines record)
     ++ (new_852 (c :: t) <$> v :: vs)
     ++ drop (find_insert_index 0 (splitlines record)
                (length (splitlines record))) (splitlines record)).
Proof.
  unfold add_missing_852_fields. by rewrite append_fields, <-app_assoc.
Qed.

Lemma str_join_middle sep (A : list str) F B :
  ∃ pre post,
    str_join sep (A ++ F :: B) = pre ++ F ++ post ∧
    (post = [] ∨ ∃ post', post = sep ++ post').
Proof.
  induction A as [|a A (pre & post & E & H)].
  - destruct B as [|b B].
    + exists [], []. split; [by rewrite app_nil_r|by left].
    + exists [], (sep ++ str_join sep (b :: B)).
      split; [|right; by eexists].
      cbn [app]. by rewrite str_join_cons.
  - exists (a ++ sep ++ pre), post. split; [|done].
    change ((a :: A) ++ F :: B) with (a :: (A ++ F :: B)).
    rewrite str_join_cons; [|by destruct A].
    by rewrite E, <-!app_assoc.
Qed.

Lemma markers_p_values text : markers text = p_values text.
Proof. unfold markers. by rewrite get_p_values_Ok. Qed.

Lemma markers_inserted record vs ws mid ds rest v :
  p_field_ok ws mid ds → not_headed is_digit rest →
  v ∈ vs → (0 ≤ v)%Z →
  v ∈ markers (add_missing_852_fields record vs
                 (Some (p_field ws mid ds ++ rest))).
Proof.
  intros Hok Hrest Hv Hpos.
  destruct vs as [|v0 vs]; [by apply elem_of_nil in Hv|].
  assert (∃ c t, p_field ws mid ds ++ rest = c :: t) as (c & t & Et)
    by (by eexists _, _).
  rewrite Et, add_missing_852_fields_lines, <-Et. clear c t Et.
  apply list_elem_of_split in Hv as (l1 & l2 & ->).
  rewrite fmap_app, fmap_cons, <-app_assoc, <-app_comm_cons, app_assoc.
  destruct (str_join_middle [LF] (take (find_insert_index 0 (splitlines record)
              (length (splitlines record))) (splitlines record)
              ++ (new_852 (p_field ws mid ds ++ rest) <$> l1))
              (new_852 (p_field ws mid ds ++ rest) v)
              ((new_852 (p_field ws mid ds ++ rest) <$> l2)
               ++ drop (find_insert_index 0 (splitlines record)
                          (length (splitlines record))) (splitlines record)))
    as (pre & post & -> & Hpost).
  rewrite new_852_p_field, <-app_assoc, markers_p_values by done.
  destruct (str_of_int_digits v Hpos) as (_ & _ & Hval).
  rewrite <-Hval at 1.
  apply p_values_complete; [by apply (p_field_ok_str_of_int ws mid ds)|].
  pose proof (new_852_not_headed rest v Hrest) as Hnh.
  destruct (new_852 rest v) as [|x r]; [|done].
  destruct Hpost as [->|[post' ->]]; done.
Qed.

(** ** The entries of the dictionary *)

Lemma digits_val_nonneg acc s : (0 ≤ acc)%Z → (0 ≤ digits_val acc s)%Z.
Proof.
  revert acc. induction s as [|c s IH]; intros acc Hacc; [done|].
  apply IH. unfold digit_value. destruct (digit_zero c); lia.
Qed.

Lemma markers_nonneg record : Forall (λ v, (0 ≤ v)%Z) (markers record).
Proof.
  rewrite markers_p_values. apply Forall_forall. intros v Hv.
  apply elem_of_sorted, list_elem_of_fmap in Hv as (m & -> & _).
  by apply digits_val_nonneg.
Qed.

Lemma concat_markers_nonneg records :
  Forall (λ v, (0 ≤ v)%Z) (concat (markers <$> records)).
Proof.
  apply Forall_concat, Forall_fmap, Forall_forall. intros r _.
  apply markers_nonneg.
Qed.

Lemma range_from_sorted a b : StronglySorted Z.lt (range_from a b).
Proof.
  unfold range_from. generalize (Z.to_nat (b - a)) as n. generalize 0 as s.
  intros s n. revert s. induction n as [|n IH]; intros s; [constructor|].
  cbn [seq fmap list_fmap]. constructor; [apply IH|].
  apply Forall_forall. intros z (k & -> & Hk%elem_of_seq)%list_elem_of_fmap.
  lia.
Qed.

Lemma rule_a_value_nonneg records first i :
  is_smallest first (batch_markers records) →
  (0 ≤ rule_a_value records first i)%Z.
Proof.
  intros [Hfirst _]. unfold rule_a_value.
  pose proof (concat_markers_nonneg records) as Hb.
  pose proof (concat_markers_nonneg (take i records)) as Hp.
  fold (prior_markers records i) in Hp.
  assert (0 ≤ first)%Z by by apply (proj1 (Forall_forall _ _) Hb).
  case_decide; [done|].
  destruct (prior_markers records i) as [|x l] eqn:E; [done|].
  destruct (foldl_max_largest x l) as [Hin _].
  apply (proj1 (Forall_forall _ _) Hp) in Hin. lia.
Qed.

Section entries.
Context (records : list str).

Lemma missing_entry m i vs :
  find_missing_852_fields records = Ok m → m !! i = Some vs →
  ∃ record,
    records !! i = Some record ∧
    ((markers record = [] ∧
      ∃ first, is_smallest first (batch_markers records) ∧
               vs = [rule_a_value records first i])
     ∨ (∃ x l y l' next,
          markers record = x :: l ∧ records !! (i + 1) = Some next ∧
          markers next = y :: l' ∧
          vs = range_from (foldl Z.max x l + 1) (foldl Z.min y l') ∧
          vs ≠ [])).
Proof.
  intros Hm Hi.
  destruct (decide (batch_markers records = [])) as [E|Hne].
  { rewrite find_missing_852_fields_unfold, E in Hm. by simplify_eq. }
  destruct (find_missing_852_fields_Ok _ Hne)
    as (first & rest & mA & m' & _ & Hfirst & _ & _ & Hfm & HA & HB).
  rewrite Hfm in Hm. injection Hm as ->.
  rewrite HB in Hi. specialize (HA i). unfold gap_value in Hi.
  destruct (records !! i) as [record|] eqn:Hrec; [|by rewrite HA in Hi].
  exists record. split; [done|].
  destruct (markers record) as [|x l] eqn:Hmk.
  - left. split; [done|]. exists first. split; [done|].
    rewrite HA in Hi. destruct (records !! (i + 1)); by simplify_eq.
  - right. rewrite HA in Hi.
    destruct (records !! (i + 1)) as [next|] eqn:Hnext; [|done].
    destruct (markers next) as [|y l'] eqn:Hmn; [done|].
    exists x, l, y, l', next. split_and!; [done..| |].
    + destruct (range_from _ _); by simplify_eq.
    + destruct (range_from _ _); by simplify_eq.
Qed.

Lemma missing_entry_nonneg m i vs :
  find_missing_852_fields records = Ok m → m !! i = Some vs →
  vs ≠ [] ∧ Forall (λ v, (0 ≤ v)%Z) vs.
Proof.
  intros Hm Hi.
  destruct (missing_entry m i vs Hm Hi) as (record & Hrec & [H|H]).
  - destruct H as (_ & first & Hfirst & ->). split; [done|].
    repeat constructor. by apply rule_a_value_nonneg.
  - destruct H as (x & l & y & l' & next & Hmk & _ & _ & -> & Hne).
    split; [done|]. apply Forall_forall. intros z [Hz _]%elem_of_range_from.
    destruct (foldl_max_largest x l) as [Hin _]. rewrite <-Hmk in Hin.
    pose proof (markers_nonneg record) as Hnn.
    apply (proj1 (Forall_forall _ _) Hnn) in Hin. lia.
Qed.

Lemma missing_none_markers m i record :
  find_missing_852_fields records = Ok m → batch_markers records ≠ [] →
  records !! i = Some record → m !! i = None → markers record ≠ [].
Proof.
  intros Hm Hne Hrec Hi Hmk.
  destruct (find_missing_852_fields_Ok _ Hne)
    as (first & rest & mA & m' & _ & _ & _ & _ & Hfm & HA & HB).
  rewrite Hfm in Hm. injection Hm as ->.
  rewrite HB in Hi. specialize (HA i). unfold gap_value in Hi.
  rewrite Hrec, Hmk in Hi, HA. rewrite HA in Hi.
  by destruct (records !! (i + 1)).
Qed.

End entries.

Lemma template_in_record records t :
  get_852_field_template records = Some t →
  ∃ i record pre post,
    records !! i = Some record ∧ record = pre ++ t ++ post ∧
    (post = [] ∨ ∃ post', post = LF :: post').
Proof.
  intros (before & record & after & m & -> & _ & Hm & ->)
    %get_852_field_template_first.
  apply search_first in Hm as (pre & rest & -> & Hm & _).
  apply rmatch_852_line_sound in Hm
    as (ws & tail & post & -> & Hg & _ & _ & _ & _ & Hpost).
  exists (length before), (pre ++ lit "=852" ++ ws ++ tail ++ post), pre, post.
  split_and!; [|by rewrite Hg, <-!app_assoc|done].
  by rewrite list_lookup_middle.
Qed.

Lemma template_batch_markers records ws mid ds rest :
  get_852_field_template records = Some (p_field ws mid ds ++ rest) →
  p_field_ok ws mid ds → not_headed is_digit rest →
  batch_markers records ≠ [].
Proof.
  intros (i & record & pre & post & Hi & -> & Hpost)%template_in_record
    Hok Hrest.
  apply (batch_markers_nonempty records i _ Hi).
  rewrite markers_p_values, <-app_assoc. intros E.
  assert (not_headed is_digit (rest ++ post)) as Hnh.
  { destruct rest; [|done]. by destruct Hpost as [->|[? ->]]. }
  pose proof (p_values_complete ws mid ds (rest ++ post) Hok Hnh pre) as Hin.
  rewrite E in Hin. by apply elem_of_nil in Hin.
Qed.

Lemma template_starts_with_tag records t :
  get_852_field_template records = Some t → ∃ rest, t = TAG ++ rest.
Proof.
  intros (before & record & after & m & -> & _ & Hm & ->)
    %get_852_field_template_first.
  apply search_Some in Hm as (pre & rest & -> & Hm).
  apply rmatch_852_line_sound in Hm as (ws & tail & post & -> & -> & _).
  by exists (ws ++ tail).
Qed.

(** ** The number of headers added *)

Lemma occ_join_line l : occ (str_join [LF] l) = total_occ l.
Proof.
  induction l as [|p [|q l] IH]; [done|cbn; lia|].
  rewrite str_join_cons by done. rewrite occ_app; [|done].
  change ([LF] ++ ?x) with (LF :: x).
  rewrite occ_cons, IH by done. done.
Qed.

Lemma total_occ_new_fields t vs :
  Forall (λ v, (0 ≤ v)%Z) vs →
  total_occ (new_852 t <$> vs) = length vs * occ t.
Proof.
  induction 1 as [|v vs Hv _ IH]; [done|].
  change (total_occ (new_852 t <$> v :: vs))
    with (occ (new_852 t v) + total_occ (new_852 t <$> vs)).
  rewrite IH, occ_new_852 by done. simpl. lia.
Qed.

Lemma occ_add_missing_852_fields_exact record vs t :
  Forall (λ v, (0 ≤ v)%Z) vs →
  occ (add_missing_852_fields record vs (Some t))
  = occ record + length vs * occ t.
Proof.
  intros Hvs. destruct vs as [|v vs]; [simpl; lia|].
  destruct t as [|c t]; [simpl; lia|].
  rewrite add_missing_852_fields_lines, occ_join_line, !total_occ_app.
  rewrite total_occ_new_fields by done.
  pose proof (total_occ_splitlines record) as Hlines.
  rewrite <-(take_drop (find_insert_index 0 (splitlines record)
                          (length (splitlines record))) (splitlines record)),
    total_occ_app in Hlines.
  lia.
Qed.

Lemma total_occ_imap_exact (f : nat → str → str) (g : nat → nat) l a :
  (∀ j r, l !! j = Some r → occ (f j r) = occ r + g (a + j)) →
  total_occ (imap f l) = total_occ l + sum_list_with g (seq a (length l)).
Proof.
  revert f a. induction l as [|r l IH]; intros f a Hf; [done|].
  change (total_occ (imap f (r :: l)))
    with (occ (f 0 r) + total_occ (imap (f ∘ S) l)).
  change (total_occ (r :: l)) with (occ r + total_occ l).
  rewrite (Hf 0 r) by done. rewrite (IH (f ∘ S) (S a)).
  - rewrite Nat.add_0_r. simpl. lia.
  - intros j r' Hj. simpl. rewrite (Hf (S j) r' Hj). f_equal. f_equal. lia.
Qed.

Lemma sum_list_with_mul {A} (h : A → nat) c l :
  sum_list_with (λ x, h x * c) l = sum_list_with h l * c.
Proof. induction l as [|x l IH]; simpl; [done|]. rewrite IH. lia. Qed.

Lemma sum_lookup_insert (m : gmap nat (list Z)) i x (l : list nat) :
  m !! i = None → NoDup l →
  sum_list_with (λ j, length (default [] (<[i:=x]> m !! j))) l
  = (if decide (i ∈ l) then length x else 0)
    + sum_list_with (λ j, length (default [] (m !! j))) l.
Proof.
  intros Hi. induction 1 as [|j l Hj _ IH].
  - by destruct (decide (i ∈ [])) as [H%elem_of_nil|].
  - change (sum_list_with ?f (j :: l)) with (f j + sum_list_with f l).
    cbv beta. rewrite IH, lookup_insert.
    destruct (decide (i = j)) as [->|Hne].
    + rewrite (decide_True (P := j ∈ j :: l)) by left.
      rewrite (decide_False (P := j ∈ l)) by done.
      rewrite Hi. simpl. lia.
    + destruct (decide (i ∈ l)) as [Hin|Hin].
      * rewrite (decide_True (P := i ∈ j :: l)) by (by right). lia.
      * rewrite (decide_False (P := i ∈ j :: l)); [lia|].
        by intros [?|?]%elem_of_cons.
Qed.

Lemma sum_lookup_seq (m : gmap nat (list Z)) n :
  (∀ j, is_Some (m !! j) → j < n) →
  sum_list_with (λ j, length (default [] (m !! j))) (seq 0 n)
  = assigned_values m.
Proof.
  unfold assigned_values.
  induction m as [|i x m Hi _ IH] using map_first_key_ind; intros Hn.
  - rewrite map_to_list_empty. simpl.
    induction (seq 0 n) as [|j l IHl]; simpl; [done|].
    by rewrite lookup_empty, IHl.
  - rewrite map_to_list_insert by done. simpl. rewrite <-IH.
    + rewrite sum_lookup_insert by (done || apply NoDup_seq).
      rewrite decide_True; [done|]. apply elem_of_seq.
      split; [lia|]. simpl. apply Hn. rewrite lookup_insert_eq. by eexists.
    + intros j Hj. apply Hn. rewrite lookup_insert_ne; [done|].
      intros ->. rewrite Hi in Hj. by destruct Hj.
Qed.

Lemma total_occ_repaired_exact records m t :
  find_missing_852_fields records = Ok m →
  total_occ (repaired m t records)
  = total_occ records + assigned_values m * occ t.
Proof.
  intros Hm. unfold repaired.
  rewrite (total_occ_imap_exact _
             (λ j, length (default [] (m !! j)) * occ t) _ 0).
  - rewrite sum_list_with_mul, sum_lookup_seq; [done|].
    intros j. by apply find_missing_852_fields_keys.
  - intros j r Hj. simpl. destruct (m !! j) as [vs|] eqn:E; [|simpl; lia].
    apply occ_add_missing_852_fields_exact.
    by apply (missing_entry_nonneg records m j vs Hm).
Qed.

(** ** Blank input *)

Lemma strip_nil_spaces s : strip s = [] → Forall (λ c, is_space c = true) s.
Proof.
  intros E. destruct (strip_spec s) as (ws1 & ws2 & Hs & H1 & H2).
  rewrite Hs, E. by apply Forall_app.
Qed.

Lemma split_go_spaces sep s :
  ¬ Forall (λ c, is_space c = true) sep →
  Forall (λ c, is_space c = true) s → split_go sep 0 s = [s].
Proof.
  intros Hsep. induction 1 as [|c s Hc Hs IH]; [done|].
  cbn [split_go]. destruct (startswith (c :: s) sep) eqn:E.
  - apply startswith_app in E as [rest E]. destruct Hsep.
    assert (Forall (λ c, is_space c = true) (sep ++ rest)) as H
      by (rewrite <-E; by constructor).
    by apply Forall_app in H as [? _].
  - by rewrite IH.
Qed.

Lemma count_records_blank s : strip s = [] → count_records s = Ok 0%Z.
Proof.
  intros E. unfold count_records. cbn [str_split app mbind result_bind].
  rewrite split_go_spaces.
  - rewrite filter_cons, decide_False by (by intros []). done.
  - intros H. do 2 apply Forall_cons in H as [_ H].
    by apply Forall_cons in H as [? _].
  - by apply strip_nil_spaces.
Qed.

(** ** The records of the output *)

Lemma occurs_app_r sep a b : occurs sep b → occurs sep (a ++ b).
Proof.
  intros (pre & post & ->). exists (a ++ pre), post. by rewrite <-!app_assoc.
Qed.

Lemma occurs_LDR_skip a b :
  Forall (λ c, c ≠ ch "=") a → occurs LDR (a ++ b) → occurs LDR b.
Proof.
  induction 1 as [|c a Hc _ IH]; [done|]. intros (pre & post & E).
  destruct pre as [|d pre]; cbn in E.
  - by simplify_eq.
  - injection E as -> E. apply IH. by exists pre, post.
Qed.

Lemma occurs_LDR_line a b :
  ¬ occurs LDR a → ¬ occurs LDR b → ¬ occurs LDR (a ++ LF :: b).
Proof.
  intros Ha Hb (pre & post & E).
  apply app_eq_app in E as [k [[-> E]|[-> E]]].
  - destruct k as [|c1 [|c2 [|c3 [|c4 k]]]]; cbn in E; simplify_eq.
    apply Ha. by exists pre, k.
  - destruct k as [|c k]; cbn in E; simplify_eq.
    apply Hb. by exists k, post.
Qed.

Lemma occurs_LDR_join ls :
  Forall (λ l, ¬ occurs LDR l) ls → ¬ occurs LDR (str_join [LF] ls).
Proof.
  induction 1 as [|l ls Hl Hls IH].
  - intros (pre & post & E). symmetry in E.
    apply app_eq_nil in E as [_ E]. by apply app_eq_nil in E as [? _].
  - destruct ls as [|l' ls]; [done|]. rewrite str_join_cons by done.
    by apply occurs_LDR_line.
Qed.

Lemma LDR_at_start_only_join l ls :
  LDR_at_start_only l → Forall (λ l, ¬ occurs LDR l) ls →
  LDR_at_start_only (str_join [LF] (l :: ls)).
Proof.
  intros Hl Hls. destruct ls as [|l' ls]; [done|].
  rewrite str_join_cons by done. intros pre post E.
  pose proof (occurs_LDR_join _ Hls) as Hj.
  apply app_eq_app in E as [k [[-> E]|[-> E]]].
  - destruct k as [|c1 [|c2 [|c3 [|c4 k]]]]; cbn in E; simplify_eq.
    by apply (Hl pre k).
  - exfalso. destruct k as [|c k]; cbn in E; simplify_eq.
    apply Hj. by exists k, post.
Qed.

Lemma occurs_LDR_sub r' repl s :
  repl = ch "$" :: r' → Forall (λ c, c ≠ ch "=") r' →
  occurs LDR (sub re_p_subfield repl s) → occurs LDR s.
Proof.
  intros Hrepl Hr'. remember (length s) as n eqn:Hn.
  revert s Hn. induction (lt_wf n) as [n _ IH]. intros s Hn.
  destruct s as [|c s].
  { intros (pre & post & E). symmetry in E.
    apply app_eq_nil in E as [_ E]. by apply app_eq_nil in E as [? _]. }
  destruct (rmatch re_p_subfield (c :: s)) as [m|] eqn:Hm.
  - apply rmatch_p_subfield_sound in Hm as (ds & rest & E & ? & Hds & ? & _).
    rewrite E, sub_match by done. intros Hocc.
    apply occurs_LDR_skip in Hocc; [|rewrite Hrepl; by constructor].
    rewrite (app_assoc (lit "$p") ds rest). apply occurs_app_r.
    apply (IH (length rest)); [|done..].
    rewrite Hn, E. cbn. rewrite length_app. lia.
  - apply rmatch_p_subfield_None in Hm. rewrite sub_no_match by done.
    intros (pre & post & E). destruct pre as [|d pre]; simpl in E.
    + assert (startswith (c :: sub re_p_subfield repl s) LDR = true) as Hs
        by (apply startswith_app; by exists post).
      change LDR with (ch "=" :: lit "LDR") in Hs. cbn [startswith] in Hs.
      case_decide; [subst c|done].
      rewrite (startswith_sub _ r') in Hs; [|done|by repeat constructor].
      apply startswith_app in Hs as [rest ->]. by exists [], rest.
    + injection E as -> E. apply (occurs_app_r _ [d]).
      apply (IH (length s)); [rewrite Hn; simpl; lia|done|].
      by exists pre, post.
Qed.

Lemma occurs_LDR_new_852 t v :
  (0 ≤ v)%Z → ¬ occurs LDR t → ¬ occurs LDR (new_852 t v).
Proof.
  intros (_ & Hd & _)%str_of_int_digits Ht H. apply Ht.
  apply (occurs_LDR_sub (ch "p" :: str_of_int v)) in H; [done..|].
  constructor; [done|]. eapply Forall_impl; [exact Hd|]. by intros c [_ ?].
Qed.

Lemma find_insert_index_pos a l idx :
  0 < a → 0 < idx → 0 < find_insert_index a l idx.
Proof.
  revert a idx. induction l as [|line l IH]; intros a idx Ha Hidx; [done|].
  cbn [find_insert_index]. destruct (startswith line (lit "=653")).
  - apply IH; lia.
  - destruct (startswith line (lit "=LDR") && bool_decide (0 < a)); [done|].
    apply IH; lia.
Qed.

Lemma find_insert_index_first line l :
  0 < find_insert_index 0 (line :: l) (length (line :: l)).
Proof.
  cbn [find_insert_index].
  destruct (startswith line (lit "=653")); [apply find_insert_index_pos; lia|].
  rewrite andb_false_r. apply find_insert_index_pos; simpl; lia.
Qed.

Lemma template_LDR_free input_text t :
  get_852_field_template (records_of input_text) = Some t → ¬ occurs LDR t.
Proof.
  intros Ht (a & b & E).
  destruct (template_starts_with_tag _ _ Ht) as [rest Hrest].
  apply template_in_record in Ht as (i & record & pre & post & Hi & Hr & _).
  apply records_of_LDR_at_start_only in Hi.
  assert (pre ++ a = []) as Hnil.
  { apply (Hi _ (b ++ post)). rewrite Hr, E. by rewrite <-!app_assoc. }
  apply app_eq_nil in Hnil as [_ ->]. rewrite Hrest in E. done.
Qed.

Lemma splitlines_nil s : splitlines s = [] → s = [].
Proof.
  destruct s as [|c s]; [done|]. cbn [splitlines].
  destruct (is_linebreak c); [done|]. by destruct (splitlines s).
Qed.

Lemma splitlines_LDR part :
  ∃ l ls, splitlines (LDR ++ part) = (LDR ++ l) :: ls.
Proof.
  change (LDR ++ part) with (ch "=" :: ch "L" :: ch "D" :: ch "R" :: part).
  cbn [splitlines].
  change (is_linebreak (ch "=")) with false.
  change (is_linebreak (ch "L")) with false.
  change (is_linebreak (ch "D")) with false.
  change (is_linebreak (ch "R")) with false.
  cbv iota.
  destruct (splitlines part) as [|l ls].
  - by exists [], [].
  - by exists l, ls.
Qed.

Lemma str_join_app_head sep a b (l : list str) :
  str_join sep ((a ++ b) :: l) = a ++ str_join sep (b :: l).
Proof. destruct l; [done|]. rewrite !str_join_cons by done. by rewrite <-app_assoc. Qed.

Lemma splitlines_LDR_free r :
  LDR_at_start_only r →
  ∀ line ls, splitlines r = line :: ls →
    LDR_at_start_only line ∧ Forall (λ l, ¬ occurs LDR l) ls.
Proof.
  intros Hr line ls E. split.
  - apply splitlines_head in E as (b & -> & _). intros pre post E'.
    apply (Hr pre (post ++ b)). rewrite E'. by rewrite <-!app_assoc.
  - apply Forall_lookup. intros i l Hi (pre & post & ->).
    assert (splitlines r !! S i = Some (pre ++ LDR ++ post)) as Hl
      by by rewrite E.
    apply splitlines_lookup in Hl as (pre' & post' & E' & Hpre).
    assert (pre' ++ pre = []) as Hnil.
    { apply (Hr _ (post ++ post')). rewrite E'. by rewrite <-!app_assoc. }
    apply app_eq_nil in Hnil as [-> _]. apply Hpre; [lia|done].
Qed.

Lemma add_missing_852_fields_shape r vs t :
  vs ≠ [] → Forall (λ v, (0 ≤ v)%Z) vs →
  (∃ rest, t = TAG ++ rest) → ¬ occurs LDR t →
  LDR_at_start_only r → r ≠ [] →
  LDR_at_start_only (add_missing_852_fields r vs (Some t)) ∧
  (∀ part, r = LDR ++ part →
     ∃ q, add_missing_852_fields r vs (Some t) = LDR ++ q) ∧
  0 < occ (add_missing_852_fields r vs (Some t)).
Proof.
  intros Hvs Hnn [rest ->] Ht Hr Hne.
  split_and!; [| |].
  3:{ rewrite occ_add_missing_852_fields_exact by done.
      assert (0 < occ (TAG ++ rest)) by (apply occ_pos_iff; by exists [], rest).
      destruct vs; [done|]. simpl. lia. }
  all: destruct vs as [|v vs]; [done|];
    change (TAG ++ rest) with (ch "=" :: lit "852" ++ rest) in *;
    rewrite add_missing_852_fields_lines;
    destruct (splitlines r) as [|line ls] eqn:E;
      [by apply splitlines_nil in E|];
    pose proof (find_insert_index_first line ls) as Hk;
    destruct (find_insert_index 0 (line :: ls) (length (line :: ls)))
      as [|k]; [lia|]; cbn [take drop];
    destruct (splitlines_LDR_free r Hr line ls E) as [Hline Hls].
  - rewrite <-app_comm_cons. apply LDR_at_start_only_join; [done|].
    apply Forall_app. split; [by apply Forall_take|].
    apply Forall_app. split; [|by apply Forall_drop].
    apply Forall_fmap, Forall_forall. intros w Hw. cbv beta.
    apply occurs_LDR_new_852; [|done].
    by apply (proj1 (Forall_forall _ _) Hnn).
  - intros part ->.
    destruct (splitlines_LDR part) as (l & ls' & E').
    rewrite E in E'. injection E' as -> ->.
    eexists. rewrite <-app_comm_cons. apply (str_join_app_head [LF] LDR l).
Qed.

Lemma repaired_shape input_text t j r' :
  get_852_field_template (records_of input_text) = Some t →
  repaired (missing_of (records_of input_text)) t (records_of input_text) !! j
  = Some r' →
  LDR_at_start_only r' ∧ strip r' ≠ [] ∧
  (0 < j → ∃ q, r' = LDR ++ q ∧ strip q ≠ []).
Proof.
  intros Ht Hj.
  pose proof (find_missing_852_fields_missing_of (records_of input_text)) as Hm.
  unfold repaired in Hj. rewrite list_lookup_imap in Hj.
  apply fmap_Some in Hj as (r & Hr & ->).
  pose proof (records_of_LDR_at_start_only _ _ _ Hr) as Hstart.
  assert (strip r ≠ []) as Hne.
  { apply records_of_elem in Hr as [(_ & ? & _)|(part & -> & _)];
      [done|apply strip_LDR_nonempty]. }
  destruct (missing_of (records_of input_text) !! j) as [vs|] eqn:E.
  - destruct (missing_entry_nonneg _ _ j vs Hm E) as [Hvs Hnn].
    destruct (add_missing_852_fields_shape r vs t Hvs Hnn) as (H1 & H2 & H3);
      [by apply (template_starts_with_tag _ _ Ht)
      |by apply (template_LDR_free input_text)|done|by destruct r|].
    split_and!; [done| |].
    + intros Hs. apply strip_nil_occ in Hs. lia.
    + intros Hpos.
      apply records_of_elem in Hr as [(-> & _)|(part & -> & _)]; [lia|].
      destruct (H2 part eq_refl) as [q Hq]. exists q. split; [done|].
      intros Hs. apply strip_nil_occ in Hs.
      rewrite Hq, occ_LDR in H3. lia.
  - split_and!; [done..|]. intros Hpos.
    apply records_of_elem in Hr as [(-> & _)|(part & -> & ? & _)]; [lia|].
    by exists part.
Qed.

(** ** The record count of the statistics *)

Lemma join_blank_line_LDR r0 qs :
  str_join [LF; LF] (r0 :: ((λ q, LDR ++ q) <$> qs))
  = str_join ([LF; LF] ++ LDR) (r0 :: qs).
Proof.
  revert r0. induction qs as [|q qs IH]; intros r0; [done|].
  rewrite fmap_cons, !str_join_cons by done.
  by rewrite str_join_app_head, IH.
Qed.

Lemma separator_not_inside u rest pre1 pre2 :
  LDR_at_start_only u → u = pre1 ++ pre2 → pre2 ≠ [] →
  startswith (pre2 ++ ([LF; LF] ++ LDR) ++ rest) ([LF; LF] ++ LDR) = false.
Proof.
  intros Hu -> Hne.
  destruct (startswith _ _) eqn:E; [|done]. exfalso.
  apply startswith_app in E as [z E].
  destruct pre2 as [|c1 [|c2 [|c3 [|c4 [|c5 [|c6 pre2]]]]]];
    cbn in E; simplify_eq.
  assert (pre1 ++ [LF; LF] = []) as Hnil
    by (apply (Hu _ pre2); by rewrite <-app_assoc).
  by apply app_eq_nil in Hnil as [_ ?].
Qed.

Lemma separator_not_in u pre rest :
  LDR_at_start_only u → u = pre ++ rest →
  startswith rest ([LF; LF] ++ LDR) = false.
Proof.
  intros Hu ->. destruct (startswith _ _) eqn:E; [|done]. exfalso.
  apply startswith_app in E as [z ->].
  assert (pre ++ [LF; LF] = []) as Hnil
    by (apply (Hu _ z); by rewrite <-!app_assoc).
  by apply app_eq_nil in Hnil as [_ ?].
Qed.

Lemma split_go_prefix sep u rest :
  sep ≠ [] →
  (∀ pre1 pre2, u = pre1 ++ pre2 → pre2 ≠ [] →
     startswith (pre2 ++ sep ++ rest) sep = false) →
  split_go sep 0 (u ++ sep ++ rest) = u :: split_go sep 0 rest.
Proof.
  intros Hsep. induction u as [|c u IH]; intros Hu.
  - destruct sep as [|d sep]; [done|]. cbn [app split_go].
    assert (startswith (d :: sep ++ rest) (d :: sep) = true) as ->
      by (apply startswith_app; by exists rest).
    rewrite split_go_skip.
    replace (length (d :: sep) - 1) with (length sep) by (simpl; lia).
    by rewrite drop_app_length.
  - cbn [app split_go].
    assert (startswith (c :: u ++ sep ++ rest) sep = false) as ->
      by (by apply (Hu [] (c :: u))).
    rewrite IH; [done|]. intros pre1 pre2 -> Hne.
    by apply (Hu (c :: pre1)).
Qed.

Lemma split_go_none sep u :
  (∀ pre rest, u = pre ++ rest → startswith rest sep = false) →
  split_go sep 0 u = [u].
Proof.
  induction u as [|c u IH]; intros Hu; [done|].
  cbn [split_go]. rewrite (Hu [] (c :: u)) by done.
  rewrite IH; [done|]. intros pre rest ->. by apply (Hu (c :: pre)).
Qed.

Lemma split_join_records u us :
  Forall LDR_at_start_only (u :: us) →
  split_go ([LF; LF] ++ LDR) 0 (str_join ([LF; LF] ++ LDR) (u :: us))
  = u :: us.
Proof.
  revert u. induction us as [|u' us IH]; intros u [Hu Hus]%Forall_cons.
  - apply split_go_none. intros pre rest. by apply separator_not_in.
  - rewrite str_join_cons by done. rewrite split_go_prefix; [|done|].
    + by rewrite IH.
    + intros pre1 pre2. by apply separator_not_inside.
Qed.

Lemma LDR_free_tail q : LDR_at_start_only (LDR ++ q) → ¬ occurs LDR q.
Proof.
  intros H (pre & post & ->).
  assert (LDR ++ pre = []) as Hnil; [|done].
  apply (H _ post). by rewrite <-app_assoc.
Qed.

Lemma records_tails (rs : list str) :
  Forall (λ r, ∃ q, r = LDR ++ q ∧ strip q ≠ [] ∧ LDR_at_start_only q) rs →
  ∃ qs, rs = (λ q, LDR ++ q) <$> qs ∧
        Forall (λ q, strip q ≠ [] ∧ LDR_at_start_only q) qs.
Proof.
  induction 1 as [|r rs (q & -> & Hq & Hq') _ (qs & -> & Hqs)].
  - by exists [].
  - exists (q :: qs). split; [done|]. by constructor.
Qed.

Lemma count_records_join rs :
  rs ≠ [] →
  (∀ j r, rs !! j = Some r →
     LDR_at_start_only r ∧ strip r ≠ [] ∧
     (0 < j → ∃ q, r = LDR ++ q ∧ strip q ≠ [])) →
  count_records (str_join [LF; LF] rs) = Ok (Z.of_nat (length rs)).
Proof.
  intros Hne Hrs. destruct rs as [|r0 rs]; [done|].
  destruct (Hrs 0 r0 eq_refl) as (H0 & H0' & _).
  destruct (records_tails rs) as (qs & -> & Hqs).
  { apply Forall_lookup. intros j r Hj.
    destruct (Hrs (S j) r Hj) as (Hr & _ & (q & -> & Hq)); [lia|].
    exists q. split_and!; [done..|].
    by apply LDR_at_start_only_free, LDR_free_tail. }
  unfold count_records. cbn [str_split app mbind result_bind].
  rewrite join_blank_line_LDR.
  change (LF :: LF :: LDR) with ([LF; LF] ++ LDR).
  rewrite split_join_records.
  - rewrite filter_cons, decide_True by done. cbn [length].
    rewrite length_fmap. do 3 f_equal.
    clear -Hqs. induction Hqs as [|q qs [Hq _] _ IH]; [done|].
    rewrite filter_cons, decide_True by done. cbn [length]. by rewrite IH.
  - constructor; [done|]. eapply Forall_impl; [exact Hqs|]. by intros q [_ ?].
Qed.

(** ** The limits of the interpreter *)

Lemma for_ext {A S} (f g : A → S → result S) xs st :
  (∀ x st', x ∈ xs → f x st' = g x st') → for_ xs st f = for_ xs st g.
Proof.
  revert st. induction xs as [|x xs IH]; intros st H; [done|].
  cbn [for_]. rewrite (H x st) by left.
  destruct (g x st) as [st'|e]; [|done]. simpl. apply IH.
  intros y st'' Hy. apply H. by right.
Qed.

Lemma for_Ok_elem {A S} (f : A → S → result S) xs st st' x :
  for_ xs st f = Ok st' → x ∈ xs → ∃ s s', f x s = Ok s'.
Proof.
  revert st. induction xs as [|y xs IH]; intros st H Hx;
    [by apply elem_of_nil in Hx|].
  cbn [for_] in H. destruct (f y st) as [s'|e] eqn:E; [|done].
  apply elem_of_cons in Hx as [->|Hx]; [by exists st, s'|].
  by apply (IH s').
Qed.

Lemma mapM_ext {A B} (f g : A → result B) l :
  (∀ x, x ∈ l → f x = g x) → mapM f l = mapM g l.
Proof.
  induction l as [|x l IH]; intros H; [done|].
  cbn [mapM]. rewrite (H x) by left. rewrite IH; [done|].
  intros y Hy. apply H. by right.
Qed.

Lemma mapM_Ok_elem {A B} (f : A → result B) l vs x :
  mapM f l = Ok vs → x ∈ l → ∃ v, f x = Ok v.
Proof.
  revert vs. induction l as [|y l IH]; intros vs H Hx;
    [by apply elem_of_nil in Hx|].
  cbn [mapM] in H. destruct (f y) as [v|e] eqn:E; [|done].
  simpl in H. destruct (mapM f l) as [vs'|e] eqn:E'; [|done].
  apply elem_of_cons in Hx as [->|Hx]; [by exists v|].
  by apply (IH vs').
Qed.

Section limited.
Context (max_str_digits : nat) (maxsize : Z).

Lemma limited_get_p_values text :
  markers_fit max_str_digits text →
  Limited.get_p_values max_str_digits text = get_p_values text.
Proof.
  intros Hfit. unfold Limited.get_p_values, get_p_values.
  rewrite (mapM_ext _ (λ m, int (group1 re_p_value m))); [done|].
  intros m Hm. unfold Limited.int.
  by rewrite decide_False by by apply (proj1 (Forall_forall _ _) Hfit).
Qed.

Lemma limited_get_p_values_fit text vs :
  Limited.get_p_values max_str_digits text = Ok vs →
  markers_fit max_str_digits text.
Proof.
  unfold Limited.get_p_values. intros H.
  destruct (mapM _ _) as [ws|] eqn:E; [|done].
  apply Forall_forall. intros m Hm.
  destruct (mapM_Ok_elem _ _ _ m E Hm) as [v Hv].
  unfold Limited.int in Hv. by case_decide.
Qed.

Lemma limited_collect_fit records acc vs :
  for_ records acc (λ record all_p_values,
    p_values ← Limited.get_p_values max_str_digits record;
    Ok (all_p_values ++ p_values)) = Ok vs →
  Forall (markers_fit max_str_digits) records.
Proof.
  revert acc. induction records as [|r records IH]; intros acc H; [done|].
  cbn [for_] in H.
  destruct (Limited.get_p_values max_str_digits r) as [ps|] eqn:E; [|done].
  cbn [mbind result_bind] in H.
  constructor; [by eapply limited_get_p_values_fit|by eapply IH].
Qed.

Context (records : list str).
Context (Hfit : Forall (markers_fit max_str_digits) records).

Lemma limited_get_p_values_elem record :
  record ∈ records →
  Limited.get_p_values max_str_digits record = Ok (markers record).
Proof.
  intros Hr. rewrite limited_get_p_values, get_p_values_markers; [done|].
  by apply (proj1 (Forall_forall _ _) Hfit).
Qed.

Lemma limited_collect_p_values :
  Limited.collect_p_values max_str_digits records = collect_p_values records.
Proof.
  apply for_ext. intros r st Hr.
  by rewrite limited_get_p_values_elem, get_p_values_markers.
Qed.

Lemma limited_check_missing_records all_p_values :
  Limited.check_missing_records max_str_digits records all_p_values
  = check_missing_records records all_p_values.
Proof.
  apply for_ext. intros [i r] st Hir.
  assert (r ∈ records) as Hr.
  { apply enumerate_lookup in Hir as [_ Hir].
    by eapply list_elem_of_lookup_2. }
  unfold Limited.missing_record_step, missing_record_step.
  rewrite limited_get_p_values_elem, get_p_values_markers by done.
  destruct (markers r) as [|? ?]; [|done]. simpl.
  case_decide; [done|].
  rewrite (for_ext _ (λ j prev,
             rj ← index records j; ps ← get_p_values rj; Ok (prev ++ ps)));
    [done|].
  intros j prev _. unfold index.
  destruct (records !! j) as [rj|] eqn:E; [|done]. simpl.
  rewrite limited_get_p_values_elem, get_p_values_markers; [done|].
  by eapply list_elem_of_lookup_2.
Qed.

Lemma limited_gap_step i st :
  gaps_fit maxsize records →
  Limited.gap_step max_str_digits maxsize records i st = gap_step records i st.
Proof.
  intros Hgaps. unfold Limited.gap_step, gap_step, index.
  destruct (records !! i) as [ri|] eqn:Ei; [|done]. simpl.
  rewrite limited_get_p_values_elem by by eapply list_elem_of_lookup_2.
  rewrite get_p_values_markers. simpl.
  destruct (records !! (i + 1)) as [rn|] eqn:En; [|done]. simpl.
  rewrite limited_get_p_values_elem by by eapply list_elem_of_lookup_2.
  rewrite get_p_values_markers. simpl.
  destruct (markers ri) as [|x l] eqn:Hi; [done|].
  destruct (markers rn) as [|y l'] eqn:Hn; [done|]. simpl.
  unfold Limited.list_range. rewrite decide_False; [done|].
  apply Z.le_ngt, (Hgaps i ri rn); [done..| |].
  - rewrite Hi. apply foldl_max_largest.
  - rewrite Hn. apply foldl_min_smallest.
Qed.

Lemma limited_gap_step_fit i st st' cur next last first :
  Limited.gap_step max_str_digits maxsize records i st = Ok st' →
  records !! i = Some cur → records !! (i + 1) = Some next →
  is_largest last (markers cur) → is_smallest first (markers next) →
  (first - (last + 1) ≤ maxsize)%Z.
Proof.
  intros H Hi Hn Hlast Hfirst.
  unfold Limited.gap_step, index in H. rewrite Hi, Hn in H. simpl in H.
  rewrite !limited_get_p_values_elem in H
    by by eapply list_elem_of_lookup_2.
  simpl in H.
  destruct (markers cur) as [|x l] eqn:Ec;
    [destruct Hlast as [?%elem_of_nil _]; done|].
  destruct (markers next) as [|y l'] eqn:En;
    [destruct Hfirst as [?%elem_of_nil _]; done|].
  simpl in H. unfold Limited.list_range in H.
  rewrite (is_largest_unique _ _ _ Hlast (foldl_max_largest x l)).
  rewrite (is_smallest_unique _ _ _ Hfirst (foldl_min_smallest y l')).
  case_decide; [done|lia].
Qed.

Lemma limited_find_missing_852_fields :
  gaps_fit maxsize records →
  Limited.find_missing_852_fields max_str_digits maxsize records
  = find_missing_852_fields records.
Proof.
  intros Hgaps.
  unfold Limited.find_missing_852_fields, find_missing_852_fields.
  rewrite limited_collect_p_values.
  destruct (collect_p_values records) as [[|v all]|]; [done| |done].
  cbn [mbind result_bind]. cbv zeta.
  rewrite limited_check_missing_records.
  destruct (check_missing_records records _) as [mA|]; [|done].
  cbn [mbind result_bind].
  apply for_ext. intros i st _. by apply limited_gap_step.
Qed.

Lemma limited_find_missing_852_fields_fit m :
  Limited.find_missing_852_fields max_str_digits maxsize records = Ok m →
  gaps_fit maxsize records.
Proof.
  unfold Limited.find_missing_852_fields.
  rewrite limited_collect_p_values, collect_p_values_Ok.
  cbn [mbind result_bind].
  intros H i cur next last first Hi Hn Hlast Hfirst.
  destruct (batch_markers records) as [|v all] eqn:Eb.
  { destruct Hlast as [Hin _]. exfalso.
    apply (batch_markers_nonempty records i cur Hi); [|done].
    intros Hnil. rewrite Hnil in Hin. by apply elem_of_nil in Hin. }
  cbv zeta in H.
  destruct (Limited.check_missing_records _ _ _) as [mA|]; [|done].
  cbn [mbind result_bind] in H.
  assert (i ∈ range (length records - 1)) as Hrange.
  { apply elem_of_seq. apply lookup_lt_Some in Hn. lia. }
  destruct (for_Ok_elem _ _ _ _ i H Hrange) as (s & s' & Hs).
  by apply (limited_gap_step_fit i s s' cur next).
Qed.

End limited.

Lemma limited_add_missing_852_fields max_str_digits record vs template :
  Forall (λ v, ¬ exceeds max_str_digits (length (str_of_int (Z.abs v)))) vs →
  Limited.add_missing_852_fields max_str_digits record vs template
  = Ok (add_missing_852_fields record vs template).
Proof.
  intros Hvs. unfold Limited.add_missing_852_fields, add_missing_852_fields.
  destruct vs as [|v vs]; [done|]. destruct template as [[|c t]|]; [done| |done].
  rewrite (for_pure _ (λ new_lines missing_p,
             new_lines ++ [new_852 (c :: t) missing_p])); [done|].
  intros w st Hw. unfold Limited.new_852, Limited.str_of_int.
  by rewrite decide_False by by apply (proj1 (Forall_forall _ _) Hvs).
Qed.

Lemma limited_add_missing_852_fields_fit max_str_digits record vs c t out :
  Limited.add_missing_852_fields max_str_digits record vs (Some (c :: t))
  = Ok out →
  Forall (λ v, ¬ exceeds max_str_digits (length (str_of_int (Z.abs v)))) vs.
Proof.
  unfold Limited.add_missing_852_fields. intros H.
  destruct vs as [|v vs]; [done|].
  destruct (for_ (v :: vs) _ _) as [new_lines|] eqn:E; [|done].
  apply Forall_forall. intros w Hw.
  destruct (for_Ok_elem _ _ _ _ w E Hw) as (s & s' & Hs).
  unfold Limited.new_852, Limited.str_of_int in Hs. by case_decide.
Qed.

Lemma limited_add_fields max_str_digits m t keys records :
  values_fit max_str_digits m →
  for_ keys records (Limited.add_fields_step max_str_digits m t)
  = for_ keys records (add_fields_step m t).
Proof.
  intros Hm. apply for_ext. intros k st _.
  unfold Limited.add_fields_step, add_fields_step.
  destruct (index st k) as [r|]; [|done]. simpl.
  unfold getitem. destruct (m !! k) as [vs|] eqn:E; [|done]. simpl.
  by rewrite (limited_add_missing_852_fields _ _ _ _ (Hm k vs E)).
Qed.

Lemma limited_add_fields_fit max_str_digits m c t records out :
  for_ (sorted_keys (map_to_list m).*1) records
    (Limited.add_fields_step max_str_digits m (c :: t)) = Ok out →
  values_fit max_str_digits m.
Proof.
  intros H k vs Hk.
  assert (k ∈ sorted_keys (map_to_list m).*1) as Hin
    by (apply sorted_keys_elem_of; by rewrite Hk).
  destruct (for_Ok_elem _ _ _ _ k H Hin) as (s & s' & Hs).
  unfold Limited.add_fields_step, getitem in Hs.
  destruct (index s k) as [r|]; [|done]. rewrite Hk in Hs. simpl in Hs.
  destruct (Limited.add_missing_852_fields _ _ _ _) as [r'|] eqn:E; [|done].
  by eapply limited_add_missing_852_fields_fit.
Qed.

Lemma limited_process_marc_records max_str_digits maxsize input_text :
  within_limits max_str_digits maxsize input_text →
  Limited.process_marc_records max_str_digits maxsize input_text
  = process_marc_records input_text.
Proof.
  intros (Hfit & Hvals & Hgaps).
  unfold Limited.process_marc_records, process_marc_records.
  rewrite split_records_Ok. simpl.
  destruct (records_of input_text) as [|r rs] eqn:E; [done|].
  destruct (get_852_field_template (r :: rs)) as [[|c t]|]; [done| |done].
  rewrite limited_find_missing_852_fields by done.
  rewrite find_missing_852_fields_missing_of. simpl.
  by rewrite limited_add_fields.
Qed.

Lemma no_field_no_match record :
  ¬ has_852_field record → finditer re_p_value record = [].
Proof.
  intros Hno. destruct (finditer re_p_value record) as [|m ms] eqn:E; [done|].
  destruct Hno.
  assert (m ∈ finditer re_p_value record) as Hm by (rewrite E; left).
  apply matches_sound in Hm as (pre & rest & -> & Hm).
  apply rmatch_p_sound in Hm
    as (ws & mid & ds & rest' & -> & [Hne Hws _ _ _] & _).
  destruct ws as [|c ws]; [done|]. apply Forall_cons in Hws as [Hc _].
  exists pre, (p_field (c :: ws) mid ds ++ rest'). split; [done|].
  exists c, (ws ++ mid ++ lit "$p" ++ ds ++ rest'). split; [|done].
  unfold p_field. by rewrite <-!app_assoc.
Qed.

Lemma no_template_within_limits max_str_digits maxsize input_text :
  get_852_field_template (records_of input_text) = None →
  within_limits max_str_digits maxsize input_text.
Proof.
  intros Ht. unfold within_limits.
  assert (Forall (λ r, finditer re_p_value r = []) (records_of input_text))
    as Hno.
  { induction (records_of input_text) as [|r rs IH]; [done|].
    cbn [get_852_field_template] in Ht.
    destruct (search re_852_line r) as [m|] eqn:E; [done|].
    constructor; [|by apply IH].
    by apply no_field_no_match, search_852_line_None. }
  assert (∀ r, r ∈ records_of input_text → markers r = []) as Hmk.
  { intros r Hr. rewrite markers_p_values. unfold p_values.
    by rewrite (proj1 (Forall_forall _ _) Hno r Hr). }
  split_and!.
  - eapply Forall_impl; [exact Hno|]. intros r Hr.
    unfold markers_fit. by rewrite Hr.
  - intros i vs Hi. exfalso.
    pose proof (find_missing_852_fields_missing_of (records_of input_text))
      as Hm.
    destruct (missing_entry _ _ _ _ Hm Hi) as (r & Hr & [H|H]).
    + destruct H as (_ & f & [Hf _] & _).
      apply list_elem_of_In, in_concat in Hf as (l & Hl & Hf).
      apply list_elem_of_In, list_elem_of_fmap in Hl as (r' & -> & Hr').
      rewrite (Hmk r' Hr') in Hf. done.
    + destruct H as (x & l & _ & _ & _ & Hx & _).
      rewrite (Hmk r) in Hx; [done|]. by eapply list_elem_of_lookup_2.
  - intros i cur next last first Hi _ [Hin _] _.
    rewrite (Hmk cur) in Hin by by eapply list_elem_of_lookup_2.
    by apply elem_of_nil in Hin.
Qed.

Lemma limited_process_marc_records_fit max_str_digits maxsize input_text out :
  Limited.process_marc_records max_str_digits maxsize input_text = Ok out →
  within_limits max_str_digits maxsize input_text.
Proof.
  unfold Limited.process_marc_records.
  rewrite split_records_Ok. cbn [mbind result_bind]. intros H.
  destruct (get_852_field_template (records_of input_text))
    as [[|c t]|] eqn:Et.
  - by apply get_852_field_template_Some in Et as [? _].
  - destruct (records_of input_text) as [|r rs] eqn:E; [done|].
    rewrite <-E in *. clear E r rs.
    destruct (Limited.find_missing_852_fields _ _ _) as [m|] eqn:Em; [|done].
    cbn [mbind result_bind] in H.
    assert (Forall (markers_fit max_str_digits) (records_of input_text))
      as Hfit.
    { unfold Limited.find_missing_852_fields, Limited.collect_p_values in Em.
      destruct (for_ (records_of input_text) [] _) as [vs|] eqn:Ec; [|done].
      by eapply limited_collect_fit. }
    pose proof (limited_find_missing_852_fields_fit _ _ _ Hfit m Em) as Hgaps.
    rewrite limited_find_missing_852_fields in Em by done.
    rewrite find_missing_852_fields_missing_of in Em. injection Em as <-.
    destruct (for_ _ _ _) as [records'|] eqn:Ef; [|done].
    split_and!; [done| |done]. by eapply limited_add_fields_fit.
  - by apply no_template_within_limits.
Qed.

(** ** White space around a text *)

Lemma lstrip_spaces ws s :
  Forall (λ c, is_space c = true) ws → lstrip (ws ++ s) = lstrip s.
Proof. induction 1 as [|c ws Hc _ IH]; simpl; [done|]. by rewrite Hc. Qed.

Lemma lstrip_app s t : lstrip s ≠ [] → lstrip (s ++ t) = lstrip s ++ t.
Proof.
  induction s as [|c s IH]; simpl; [done|].
  destruct (is_space c); [apply IH|done].
Qed.

Lemma rstrip_spaces s ws :
  Forall (λ c, is_space c = true) ws → rstrip (s ++ ws) = rstrip s.
Proof.
  intros Hws. unfold rstrip.
  by rewrite reverse_app, lstrip_spaces by by apply Forall_reverse.
Qed.

Lemma rstrip_app s t : rstrip t ≠ [] → rstrip (s ++ t) = s ++ rstrip t.
Proof.
  unfold rstrip. intros Ht. rewrite reverse_app, lstrip_app.
  - by rewrite reverse_app, reverse_involutive.
  - intros E. by rewrite E in Ht.
Qed.

Lemma spaces_strip_nil s : Forall (λ c, is_space c = true) s → strip s = [].
Proof.
  intros Hs. unfold strip.
  by rewrite <-(app_nil_r s), lstrip_spaces.
Qed.

Lemma nonblank_lstrip s : strip s ≠ [] → lstrip s ≠ [].
Proof. unfold strip. intros H E. by rewrite E in H. Qed.

Lemma nonblank_rstrip s : strip s ≠ [] → rstrip s ≠ [].
Proof.
  intros H E. apply H, spaces_strip_nil.
  destruct (rstrip_spec s) as (ws & Hs & Hws). rewrite Hs, E. done.
Qed.

Lemma strip_spaces_l ws s :
  Forall (λ c, is_space c = true) ws → strip (ws ++ s) = strip s.
Proof. intros Hws. unfold strip. by rewrite lstrip_spaces. Qed.

Lemma strip_spaces_r s ws :
  Forall (λ c, is_space c = true) ws → strip (s ++ ws) = strip s.
Proof.
  intros Hws. unfold strip.
  destruct (decide (lstrip s = [])) as [E|Hne].
  - destruct (lstrip_spec s) as (ws' & Hs & Hws').
    rewrite E, app_nil_r in Hs. subst ws'.
    rewrite E, <-(app_nil_r (s ++ ws)), lstrip_spaces; [done|].
    by apply Forall_app.
  - by rewrite lstrip_app, rstrip_spaces.
Qed.

Lemma strip_lstrip s : strip (lstrip s) = strip s.
Proof.
  destruct (lstrip_spec s) as (ws & Hs & Hws).
  rewrite Hs at 2. by rewrite strip_spaces_l.
Qed.

Lemma nonblank_app_l s t : strip s ≠ [] → strip (s ++ t) ≠ [].
Proof.
  intros H E. apply H, spaces_strip_nil.
  apply strip_nil_spaces in E. by apply Forall_app in E as [? _].
Qed.



(** ** The markers of a text, as a set *)










(** ** The records of the output, read again *)

Lemma occurs_app_l sep a b : occurs sep a → occurs sep (a ++ b).
Proof.
  intros (pre & post & ->). exists pre, (post ++ b). by rewrite <-!app_assoc.
Qed.

Lemma occurs_lstrip sep s : occurs sep (lstrip s) → occurs sep s.
Proof.
  destruct (lstrip_spec s) as (ws & E & _). rewrite E at 2.
  apply occurs_app_r.
Qed.

Lemma occurs_rstrip sep s : occurs sep (rstrip s) → occurs sep s.
Proof.
  destruct (rstrip_spec s) as (ws & E & _). rewrite E at 2.
  apply occurs_app_l.
Qed.

Lemma split_LDR_free u rest :
  ¬ occurs LDR u →
  split_go LDR 0 (u ++ LDR ++ rest) = u :: split_go LDR 0 rest.
Proof.
  intros Hu. apply split_go_prefix; [done|].
  intros pre1 pre2 -> Hne.
  destruct (startswith _ _) eqn:E; [|done]. exfalso.
  apply startswith_app in E as [z E].
  destruct pre2 as [|c1 [|c2 [|c3 [|c4 pre2]]]]; cbn in E; simplify_eq.
  apply Hu. by exists pre1, pre2.
Qed.

Lemma split_LDR_none u : ¬ occurs LDR u → split_go LDR 0 u = [u].
Proof.
  intros Hu. apply split_go_none. intros pre rest ->.
  destruct (startswith _ _) eqn:E; [|done]. exfalso.
  apply startswith_app in E as [z ->]. apply Hu. by exists pre, z.
Qed.

Lemma join_records_nonblank sep u (qs : list str) :
  strip u ≠ [] → strip (str_join sep (u :: qs)) ≠ [].
Proof.
  intros Hu. destruct qs as [|q qs]; [done|].
  rewrite str_join_cons by done. by apply nonblank_app_l.
Qed.

Lemma split_reparted u qs :
  Forall (λ q, ¬ occurs LDR q ∧ strip q ≠ []) (u :: qs) →
  split_go LDR 0 (rstrip (str_join ([LF; LF] ++ LDR) (u :: qs)))
  = reparted u qs.
Proof.
  revert u. induction qs as [|q qs IH]; intros u [[Hu Hu'] Hqs]%Forall_cons.
  - cbn [str_join reparted]. apply split_LDR_none.
    intros H. by apply Hu, occurs_rstrip.
  - rewrite str_join_cons by done. cbn [reparted].
    pose proof Hqs as [[Hq Hq'] _]%Forall_cons.
    rewrite (app_assoc u), rstrip_app
      by by apply nonblank_rstrip, join_records_nonblank.
    rewrite <-!app_assoc, (app_assoc u [LF; LF]).
    rewrite split_LDR_free.
    + by rewrite IH.
    + apply (occurs_LDR_line u [LF]); [done|].
      intros (pre & post & E).
      destruct pre as [|c1 [|c2 [|c3 pre]]]; cbn in E; simplify_eq.
Qed.

Lemma reparted_trails u qs :
  Forall2 (λ p q, ∃ ws, Forall (λ c, is_space c = true) ws ∧
                        (p = q ++ ws ∨ q = p ++ ws))
    (reparted u qs) (u :: qs).
Proof.
  revert u. induction qs as [|q qs IH]; intros u; cbn [reparted].
  - constructor; [|constructor].
    destruct (rstrip_spec u) as (ws & E & Hws). exists ws. by split; [|right].
  - constructor; [|apply IH].
    exists [LF; LF]. split; [by repeat constructor|by left].
Qed.

Lemma reparted_records u qs :
  Forall (λ q, strip q ≠ []) (u :: qs) →
  filter (λ part, strip part ≠ []) (reparted u qs) = reparted u qs ∧
  Forall2 (λ a b, strip a = strip b)
    ((λ part, LDR ++ part) <$> reparted u qs)
    ((λ part, LDR ++ part) <$> u :: qs).
Proof.
  intros Hne. pose proof (reparted_trails u qs) as H.
  induction H as [|p q ps qs' (ws & Hws & Hpq) _ IH]; [done|].
  apply Forall_cons in Hne as [Hq Hqs]. destruct (IH Hqs) as [IH1 IH2].
  assert (strip p = strip q) as Es.
  { destruct Hpq as [->| ->]; by rewrite (strip_spaces_r _ ws). }
  split.
  - rewrite filter_cons, decide_True by by rewrite Es. by rewrite IH1.
  - rewrite !fmap_cons. constructor; [|done].
    destruct Hpq as [->| ->];
      by rewrite app_assoc, (strip_spaces_r _ ws).
Qed.

Lemma records_tails_free (rs : list str) :
  Forall (λ r, ∃ q, r = LDR ++ q ∧ strip q ≠ [] ∧ ¬ occurs LDR q) rs →
  ∃ qs, rs = (λ q, LDR ++ q) <$> qs ∧
        Forall (λ q, ¬ occurs LDR q ∧ strip q ≠ []) qs.
Proof.
  induction 1 as [|r rs (q & -> & Hq & Hq') _ (qs & -> & Hqs)].
  - by exists [].
  - exists (q :: qs). split; [done|]. by constructor.
Qed.

Lemma records_of_LDR_records q qs :
  Forall (λ q, ¬ occurs LDR q ∧ strip q ≠ []) (q :: qs) →
  records_of (str_join [LF; LF] ((λ q, LDR ++ q) <$> q :: qs))
  = (λ part, LDR ++ part) <$> reparted q qs.
Proof.
  intros Hqs.
  destruct (records_of_shape
              (str_join [LF; LF] ((λ q, LDR ++ q) <$> q :: qs)))
    as (first & parts & Hsplit & ->).
  rewrite fmap_cons, str_join_app_head, join_blank_line_LDR in Hsplit.
  assert (Forall (λ q, strip q ≠ []) (q :: qs)) as Hne
    by (eapply Forall_impl; [exact Hqs|]; by intros ? [_ ?]).
  unfold strip in Hsplit. rewrite (lstrip_id (LDR ++ _)) in Hsplit by done.
  rewrite rstrip_app in Hsplit
    by (apply nonblank_rstrip, join_records_nonblank;
        by apply Forall_cons in Hne as [? _]).
  change (LDR ++ ?s) with ([] ++ LDR ++ s) in Hsplit.
  rewrite split_LDR_free, split_reparted in Hsplit; [|done|].
  2:{ intros (pre & post & E). symmetry in E.
      apply app_eq_nil in E as [_ E]. by apply app_eq_nil in E as [? _]. }
  injection Hsplit as <- <-.
  by destruct (reparted_records q qs Hne) as [-> _].
Qed.

Lemma records_of_preamble_records r0 qs :
  ¬ occurs LDR r0 → strip r0 ≠ [] →
  Forall (λ q, ¬ occurs LDR q ∧ strip q ≠ []) qs →
  records_of (str_join [LF; LF] (r0 :: ((λ q, LDR ++ q) <$> qs)))
  = strip r0 :: match qs with
                | [] => []
                | q :: qs' => (λ part, LDR ++ part) <$> reparted q qs'
                end.
Proof.
  intros Hr0 Hr0' Hqs.
  destruct (records_of_shape
              (str_join [LF; LF] (r0 :: ((λ q, LDR ++ q) <$> qs))))
    as (first & parts & Hsplit & ->).
  rewrite join_blank_line_LDR in Hsplit.
  assert (lstrip (str_join ([LF; LF] ++ LDR) (r0 :: qs))
          = str_join ([LF; LF] ++ LDR) (lstrip r0 :: qs)) as El.
  { destruct qs as [|q qs]; [done|]. rewrite !str_join_cons by done.
    by rewrite lstrip_app by by apply nonblank_lstrip. }
  assert (strip (lstrip r0) ≠ []) as Hu by by rewrite strip_lstrip.
  unfold strip in Hsplit. rewrite El, split_reparted in Hsplit.
  2:{ constructor; [|done]. split; [|done].
      intros H. by apply Hr0, occurs_lstrip. }
  assert (Forall (λ q, strip q ≠ []) qs) as Hne
    by (eapply Forall_impl; [exact Hqs|]; by intros ? [_ ?]).
  destruct qs as [|q qs]; cbn [reparted] in Hsplit; injection Hsplit as <- <-.
  - fold (strip r0). rewrite strip_strip.
    by destruct (strip r0) eqn:E.
  - rewrite strip_spaces_r, strip_lstrip by by repeat constructor.
    destruct (strip r0) eqn:E; [done|]. rewrite <-E.
    by destruct (reparted_records q qs Hne) as [-> _].
Qed.

Lemma record_list_cases (rs : list str) :
  (∀ j r, rs !! j = Some r →
     (j = 0 ∧ strip r ≠ [] ∧ ¬ occurs LDR r)
     ∨ (∃ q, r = LDR ++ q ∧ strip q ≠ [] ∧ ¬ occurs LDR q)) →
  ∃ qs, Forall (λ q, ¬ occurs LDR q ∧ strip q ≠ []) qs ∧
    (rs = (λ q, LDR ++ q) <$> qs
     ∨ ∃ r0, rs = r0 :: ((λ q, LDR ++ q) <$> qs) ∧
             ¬ occurs LDR r0 ∧ strip r0 ≠ []).
Proof.
  intros Hrs. destruct rs as [|r0 rs]; [exists []; split; [done|by left]|].
  destruct (records_tails_free rs) as (qs & -> & Hqs).
  { apply Forall_lookup. intros j r Hj.
    destruct (Hrs (S j) r Hj) as [(? & _)|H]; [done|exact H]. }
  destruct (Hrs 0 r0 eq_refl) as [(_ & Hne & Hfree)|(q & -> & Hne & Hfree)].
  - exists qs. split; [done|]. right. by exists r0.
  - exists (q :: qs). split; [by constructor|by left].
Qed.



Lemma strip_LDR_record q :
  strip q ≠ [] → strip (LDR ++ q) = LDR ++ rstrip q.
Proof.
  intros Hq. unfold strip. rewrite (lstrip_id (LDR ++ q)) by done.
  by rewrite rstrip_app by by apply nonblank_rstrip.
Qed.

Lemma filter_LDR_records (qs : list str) :
  filter (λ r, startswith r LDR = true) ((λ q, LDR ++ q) <$> qs)
  = (λ q, LDR ++ q) <$> qs.
Proof.
  induction qs as [|q qs IH]; [done|].
  rewrite fmap_cons, filter_cons, decide_True, IH; [done|].
  apply startswith_app. by exists q.
Qed.


(** ** The records written by the first pass *)





(** ** Markers that survive the insertion *)



(** ** Batches without defect *)




(** ** The second pass *)




(** ** When the second pass changes nothing *)







Lemma reparted_fixed q qs :
  reparted q qs = q :: qs → qs = [] ∧ rstrip q = q.
Proof.
  destruct qs as [|q' qs]; cbn [reparted]; [by intros [= ->]|].
  intros [= E _]. apply (f_equal length) in E.
  rewrite length_app in E. simpl in E. lia.
Qed.

Lemma records_of_join_fixed (rs : list str) :
  (∀ j r, rs !! j = Some r →
     (j = 0 ∧ strip r ≠ [] ∧ ¬ occurs LDR r)
     ∨ (∃ q, r = LDR ++ q ∧ strip q ≠ [] ∧ ¬ occurs LDR q)) →
  records_of (str_join [LF; LF] rs) = rs →
  length (filter (λ r, startswith r LDR = true) rs) ≤ 1 ∧
  Forall (λ r, strip r = r) rs.
Proof.
  assert (∀ l l' : list str,
            (λ part, LDR ++ part) <$> l = (λ part, LDR ++ part) <$> l' →
            l = l') as Hinj.
  { intros l l' E.
    apply (list_fmap_eq_inj (λ part : str, LDR ++ part)); [|done].
    intros a b. apply app_inv_head. }
  intros (qs & Hqs & [->|(r0 & -> & Hfree & Hne)])%record_list_cases.
  - destruct qs as [|q qs]; [intros _; split; [simpl; lia|constructor]|].
    rewrite records_of_LDR_records by done.
    intros [-> Hq]%Hinj%reparted_fixed.
    apply Forall_cons in Hqs as [[_ Hne] _].
    split; [rewrite filter_LDR_records; simpl; lia|].
    constructor; [|done]. by rewrite strip_LDR_record, Hq.
  - rewrite records_of_preamble_records by done. intros [= Hs E].
    rewrite filter_cons, decide_False.
    2:{ intros [z ->]%startswith_app. apply Hfree. by exists [], z. }
    rewrite filter_LDR_records, length_fmap.
    destruct qs as [|q qs].
    { split; [simpl; lia|by constructor]. }
    change ((λ q0, LDR ++ q0) <$> q :: qs)
      with ((λ part, LDR ++ part) <$> (q :: qs)) in E.
    apply Hinj, reparted_fixed in E as [-> Hq].
    apply Forall_cons in Hqs as [[_ Hne'] _].
    split; [simpl; lia|].
    constructor; [done|]. constructor; [|done].
    by rewrite strip_LDR_record, Hq.
Qed.



(** * The examples of the specification *)

(** Rule A, first record: the record without field gets marker 5. *)
Example rule_a_minimal_case :
  process_marc_records
    (nl ["=LDR a"; "=245  t"; ""; "=LDR b"; "=852  \\$p5$hX"]%string)
  = Ok (nl ["=LDR a"; "=245  t"; ""; "=852  \\$p5$hX"; "";
            "=LDR b"; "=852  \\$p5$hX"]%string).
Proof. vm_compute. reflexivity. Qed.

(** Rule A, mid-batch: markers 1, none, 3 give record 1 the marker 2. *)
Example rule_a_mid_batch_case :
  find_missing_852_fields mid_batch_gap = Ok {[ 1 := [2%Z] ]}.
Proof. vm_compute. reflexivity. Qed.

(** Rule B: markers 1, 2 and 5, 6 give record 0 the markers 3 and 4. *)
Example rule_b_gap_case :
  find_missing_852_fields adjacent_gap = Ok {[ 0 := [3%Z; 4%Z] ]}.
Proof. vm_compute. reflexivity. Qed.

(** The new fields go after the last subject heading, before the other
    lines. *)
Example insertion_after_subject_headings :
  add_missing_852_fields subject_record [7%Z; 8%Z]
    (Some (lit "=852  \\$p1$hX"))
  = nl ["=LDR a"; "=653  x"; "=653  y"; "=852  \\$p7$hX"; "=852  \\$p8$hX";
        "=700  z"]%string.
Proof. vm_compute. reflexivity. Qed.

(** Without any 852 field the text comes back as it is. *)
Example no_template_case :
  process_marc_records (nl ["  =LDR a"; "=245  t"; ""; "=LDR b"; ""]%string)
  = Ok (nl ["  =LDR a"; "=245  t"; ""; "=LDR b"; ""]%string).
Proof. vm_compute. reflexivity. Qed.

(** * The properties of the specification *)

(** ** Gap detection *)

(** C1. Rule A.  In a batch that has some marker, a record without marker
    gets exactly one value: at ordinal 0 the smallest marker of the batch;
    at ordinal [i > 0] one more than the largest marker of the records
    before [i], and the smallest marker of the batch when no record before
    [i] has a marker. *)
Theorem rule_a_zero_marker_records records i record :
  records !! i = Some record →
  get_p_values record = Ok [] →
  batch_markers records ≠ [] →
  ∃ m v,
    find_missing_852_fields records = Ok m ∧ m !! i = Some [v] ∧
    (i = 0 → is_smallest v (batch_markers records)) ∧
    (0 < i → prior_markers records i ≠ [] →
       ∃ top, is_largest top (prior_markers records i) ∧ v = (top + 1)%Z) ∧
    (0 < i → prior_markers records i = [] →
       is_smallest v (batch_markers records)).
Proof.
  intros Hi Hrec%markers_nil Hne.
  destruct (find_missing_852_fields_Ok _ Hne)
    as (first & rest & mA & m & _ & Hfirst & _ & _ & Hm & HA & HB).
  exists m, (rule_a_value records first i).
  refine (conj Hm (conj _ (conj _ (conj _ _)))).
  - rewrite HB, HA. unfold gap_value. rewrite Hi, Hrec.
    by destruct (records !! (i + 1)).
  - intros ->. done.
  - intros Hpos Hprior. unfold rule_a_value. rewrite decide_False by lia.
    destruct (prior_markers records i) as [|x l]; [done|].
    eexists. split; [apply foldl_max_largest|done].
  - intros Hpos Hprior. unfold rule_a_value. rewrite decide_False by lia.
    by rewrite Hprior.
Qed.

Lemma rule_a_zero_marker_records_witness :
  mid_batch_gap !! 1 = Some record_none ∧
  get_p_values record_none = Ok [] ∧
  batch_markers mid_batch_gap ≠ [] ∧
  ∃ m v,
    find_missing_852_fields mid_batch_gap = Ok m ∧ m !! 1 = Some [v] ∧
    (1 = 0 → is_smallest v (batch_markers mid_batch_gap)) ∧
    (0 < 1 → prior_markers mid_batch_gap 1 ≠ [] →
       ∃ top, is_largest top (prior_markers mid_batch_gap 1) ∧ v = (top + 1)%Z) ∧
    (0 < 1 → prior_markers mid_batch_gap 1 = [] →
       is_smallest v (batch_markers mid_batch_gap)).
Proof.
  assert (batch_markers mid_batch_gap ≠ []) as Hne
    by (vm_compute; discriminate).
  split_and!; [reflexivity|vm_compute; reflexivity|exact Hne|].
  apply (rule_a_zero_marker_records mid_batch_gap 1 record_none);
    [reflexivity|vm_compute; reflexivity|exact Hne].
Defined.

(** C2. Rule B.  When records [i] and [i+1] both have markers, [last] is
    the largest marker of record [i], [first] the smallest of record [i+1]
    and [first - last > 1], the integers strictly between [last] and
    [first] are appended to whatever record [i] had been assigned before
    the gap loop; in [find_missing_852_fields] they are the whole entry of
    record [i]. *)
Theorem rule_b_gap_between_records records i cur next last first :
  records !! i = Some cur → records !! (i + 1) = Some next →
  is_largest last (markers cur) → is_smallest first (markers next) →
  (first - last > 1)%Z →
  (∀ z, z ∈ range_from (last + 1) first ↔ (last < z < first)%Z) ∧
  (∀ missing_fields, ∃ m,
      check_gaps records missing_fields = Ok m ∧
      m !! i = Some (default [] (missing_fields !! i)
                       ++ range_from (last + 1) first)) ∧
  (∃ m, find_missing_852_fields records = Ok m ∧
        m !! i = Some (range_from (last + 1) first)).
Proof.
  intros Hc Hn Hl Hf Hgap. split_and!.
  - intros z. rewrite elem_of_range_from. lia.
  - intros mf. destruct (check_gaps_Ok records mf) as (m & Hm & HB).
    exists m. split; [done|]. rewrite HB. by eapply gap_value_gap.
  - assert (markers cur ≠ []) as Hcur.
    { intros E. rewrite E in Hl. by destruct Hl as [?%elem_of_nil _]. }
    destruct (find_missing_852_fields_Ok records)
      as (? & ? & mA & m & _ & _ & _ & _ & Hm & HA & HB);
      [exact (batch_markers_nonempty _ _ _ Hc Hcur)|].
    exists m. split; [done|].
    rewrite HB, (gap_value_gap _ _ _ _ _ _ _ Hc Hn Hl Hf Hgap), HA, Hc.
    by destruct (markers cur).
Qed.

Lemma rule_b_gap_between_records_witness :
  is_largest 2%Z (markers record_1_2) ∧
  is_smallest 5%Z (markers record_5_6) ∧
  (∀ z, z ∈ range_from (2 + 1) 5 ↔ (2 < z < 5)%Z) ∧
  (∀ missing_fields, ∃ m,
      check_gaps adjacent_gap missing_fields = Ok m ∧
      m !! 0 = Some (default [] (missing_fields !! 0) ++ range_from (2 + 1) 5)) ∧
  (∃ m, find_missing_852_fields adjacent_gap = Ok m ∧
        m !! 0 = Some (range_from (2 + 1) 5)).
Proof.
  assert (is_largest 2%Z (markers record_1_2)) as Hl
    by (vm_compute; split; [by right; left|by repeat constructor]).
  assert (is_smallest 5%Z (markers record_5_6)) as Hf
    by (vm_compute; split; [by left|by repeat constructor]).
  split; [exact Hl|]. split; [exact Hf|].
  apply (rule_b_gap_between_records adjacent_gap 0 record_1_2 record_5_6 2%Z 5%Z);
    [reflexivity|reflexivity|exact Hl|exact Hf|lia].
Defined.

(** C10.  Every entry of the dictionary comes from one rule only: either
    the record has no marker, the entry is the single value rule A gave it
    and rule B added nothing, or the record has markers, rule A gave it
    nothing and the entry is the gap rule B found after it. *)
Theorem rules_a_and_b_exclusive records m i vs :
  find_missing_852_fields records = Ok m → m !! i = Some vs →
  ∃ all_p_values mA record,
    check_missing_records records all_p_values = Ok mA ∧
    check_gaps records mA = Ok m ∧
    records !! i = Some record ∧
    ((get_p_values record = Ok [] ∧ mA !! i = Some vs ∧ length vs = 1)
     ∨ (get_p_values record ≠ Ok [] ∧ mA !! i = None ∧
        ∃ next last first,
          records !! (i + 1) = Some next ∧
          is_largest last (markers record) ∧
          is_smallest first (markers next) ∧
          vs = range_from (last + 1) first)).
Proof.
  intros Hm Hi.
  destruct (decide (batch_markers records = [])) as [E|Hne].
  { rewrite find_missing_852_fields_unfold, E in Hm. by simplify_eq. }
  destruct (find_missing_852_fields_Ok _ Hne)
    as (first & rest & mA & m' & _ & _ & HmA & Hm' & Hfm & HA & HB).
  rewrite Hfm in Hm. injection Hm as ->.
  rewrite HB in Hi. specialize (HA i).
  unfold gap_value in Hi.
  destruct (records !! i) as [record|] eqn:Hrec; [|by rewrite HA in Hi].
  exists (first :: rest), mA, record. split_and!; [done..|].
  destruct (markers record) as [|x l] eqn:Hmk.
  - left. apply markers_nil in Hmk. rewrite HA in Hi |- *.
    destruct (records !! (i + 1)); by simplify_eq.
  - right. split; [rewrite markers_nil, Hmk; done|]. split; [done|].
    rewrite HA in Hi.
    destruct (records !! (i + 1)) as [next|] eqn:Hnext; [|done].
    destruct (markers next) as [|y l'] eqn:Hmn; [done|].
    exists next, (foldl Z.max x l), (foldl Z.min y l').
    split_and!; [done|apply foldl_max_largest|rewrite Hmn; apply foldl_min_smallest|].
    destruct (range_from _ _); by simplify_eq.
Qed.

Lemma rules_a_and_b_exclusive_witness :
  find_missing_852_fields adjacent_gap = Ok {[ 0 := [3%Z; 4%Z] ]} ∧
  ({[ 0 := [3%Z; 4%Z] ]} : gmap nat (list Z)) !! 0 = Some [3%Z; 4%Z] ∧
  ∃ all_p_values mA record,
    check_missing_records adjacent_gap all_p_values = Ok mA ∧
    check_gaps adjacent_gap mA = Ok {[ 0 := [3%Z; 4%Z] ]} ∧
    adjacent_gap !! 0 = Some record ∧
    ((get_p_values record = Ok [] ∧ mA !! 0 = Some [3%Z; 4%Z] ∧
      length [3%Z; 4%Z] = 1)
     ∨ (get_p_values record ≠ Ok [] ∧ mA !! 0 = None ∧
        ∃ next last first,
          adjacent_gap !! (0 + 1) = Some next ∧
          is_largest last (markers record) ∧
          is_smallest first (markers next) ∧
          [3%Z; 4%Z] = range_from (last + 1) first)).
Proof.
  assert (find_missing_852_fields adjacent_gap = Ok {[ 0 := [3%Z; 4%Z] ]})
    as Hm by (vm_compute; reflexivity).
  split; [exact Hm|]. split; [reflexivity|].
  apply (rules_a_and_b_exclusive adjacent_gap _ 0 [3%Z; 4%Z] Hm).
  reflexivity.
Defined.

(** ** Marker extraction *)

(** C3, as the code has it.  A marker is extracted from every 852 field
    whose text between the header's white space and "$p" holds no dollar
    sign, wherever the field stands in the text; and every extracted marker
    is the digit run of such a field, so that no extraction reaches past
    the first dollar sign that follows the header. *)
Theorem marker_extraction_up_to_first_dollar :
  (∀ pre ws mid ds rest,
      p_field_ok ws mid ds → not_headed is_digit rest →
      ∃ vs v,
        get_p_values (pre ++ p_field ws mid ds ++ rest) = Ok vs ∧
        int ds = Ok v ∧ v ∈ vs) ∧
  (∀ text vs v,
      get_p_values text = Ok vs → v ∈ vs →
      ∃ pre ws mid ds rest,
        text = pre ++ p_field ws mid ds ++ rest ∧ p_field_ok ws mid ds ∧
        not_headed is_digit rest ∧ int ds = Ok v).
Proof.
  split.
  - intros pre ws mid ds rest Hok Hrest.
    exists (p_values (pre ++ p_field ws mid ds ++ rest)), (digits_val 0 ds).
    split_and!.
    + apply get_p_values_Ok.
    + destruct Hok. by apply int_Ok.
    + by apply p_values_complete.
  - intros text vs v Hvs Hv. rewrite get_p_values_Ok in Hvs.
    injection Hvs as <-. by apply p_values_sound.
Qed.

Lemma marker_extraction_up_to_first_dollar_witness :
  p_field_ok (lit "  ") (lit "\\") (lit "700") ∧
  not_headed is_digit (lit "$aMain") ∧
  (∃ vs v,
     get_p_values (lit "=LDR a " ++ p_field (lit "  ") (lit "\\") (lit "700")
                     ++ lit "$aMain") = Ok vs ∧
     int (lit "700") = Ok v ∧ v ∈ vs) ∧
  (get_p_values (lit "=852 $p12") = Ok [12%Z] ∧ 12%Z ∈ [12%Z] ∧
   ∃ pre ws mid ds rest,
     lit "=852 $p12" = pre ++ p_field ws mid ds ++ rest ∧ p_field_ok ws mid ds ∧
     not_headed is_digit rest ∧ int ds = Ok 12%Z).
Proof.
  assert (p_field_ok (lit "  ") (lit "\\") (lit "700")) as Hok.
  { split; [discriminate|repeat constructor|repeat constructor; discriminate
           |discriminate|repeat constructor]. }
  assert (get_p_values (lit "=852 $p12") = Ok [12%Z]) as H12
    by (vm_compute; reflexivity).
  assert (12%Z ∈ [12%Z]) as Hin by (by left).
  split; [exact Hok|]. split; [reflexivity|]. split.
  - exact (proj1 marker_extraction_up_to_first_dollar
             (lit "=LDR a ") _ _ _ (lit "$aMain") Hok eq_refl).
  - split; [exact H12|]. split; [exact Hin|].
    exact (proj2 marker_extraction_up_to_first_dollar _ _ _ H12 Hin).
Defined.

(** C3 fails as stated: a sub-field before "$p" hides the marker, and a
    header with nothing but white space after it takes the marker of the
    next line's field. *)
Lemma marker_extraction_counterexample :
  get_p_values (lit "=852  \\$aMain$p700") = Ok [] ∧
  get_p_values (nl ["=852  "; "=999  $p5"]%string) = Ok [5%Z].
Proof. split; vm_compute; reflexivity. Qed.

(** ** The whole transformation *)




(** C5, as the code has it.  When some record has an 852 field and no
    record has a marker, gap detection assigns nothing, no field is added,
    and the output is the record list joined by blank lines.  The record
    list is what the code builds from the input: the stripped input is cut
    at every "=LDR"; the first part, stripped, is a record when it is not
    blank, and every later part that is not blank is a record with "=LDR"
    before it.  Blank parts leave no trace in the output.  The output is
    the input only if at most one record begins with "=LDR" and no record
    has white space at its ends. *)
Theorem no_markers_records_rejoined input_text template :
  get_852_field_template (records_of input_text) = Some template →
  Forall (λ record, get_p_values record = Ok []) (records_of input_text) →
  find_missing_852_fields (records_of input_text) = Ok ∅ ∧
  ∃ first parts output_text st,
    strip input_text = str_join LDR (first :: parts) ∧
    Forall (λ part, ¬ occurs LDR part) (first :: parts) ∧
    records_of input_text
    = match strip first with [] => [] | _ :: _ => [strip first] end
      ++ ((λ part, LDR ++ part) <$> filter (λ part, strip part ≠ []) parts) ∧
    process_marc_records input_text = Ok output_text ∧
    output_text = str_join [LF; LF] (records_of input_text) ∧
    (output_text = input_text →
     length (filter (λ record, startswith record LDR = true)
               (records_of input_text)) ≤ 1 ∧
     Forall (λ record, strip record = record) (records_of input_text)) ∧
    get_processing_stats input_text output_text = Ok st ∧
    added_fields st = 0%Z.
Proof.
  intros Ht Hnone.
  pose proof (batch_markers_nil _ Hnone) as Hb.
  assert (find_missing_852_fields (records_of input_text) = Ok ∅) as Hm
    by by rewrite find_missing_852_fields_unfold, Hb.
  split; [done|].
  destruct (records_of_shape input_text) as (first & parts & Hsplit & Hrec).
  destruct (count_records_Ok input_text) as [n Hn].
  destruct (count_records_Ok (str_join [LF; LF] (records_of input_text)))
    as [n' Hn'].
  exists first, parts, (str_join [LF; LF] (records_of input_text)).
  eexists. split_and!.
  - by rewrite <-Hsplit, split_join.
  - rewrite <-Hsplit. by apply split_go_no_sep.
  - done.
  - rewrite process_marc_records_Ok, Ht.
    unfold missing_of. rewrite Hm, repaired_empty.
    destruct (records_of input_text); [done|].
    apply get_852_field_template_Some in Ht as [Ht _]. by destruct template.
  - done.
  - intros Hsame. apply records_of_join_fixed.
    + intros j r. apply records_of_elem.
    + by rewrite Hsame.
  - unfold get_processing_stats. rewrite Hn, Hn'. reflexivity.
  - cbn [added_fields].
    rewrite !count_852_occ, occ_join_blank_line, total_occ_records_of. lia.
Qed.

Lemma no_markers_records_rejoined_witness :
  get_852_field_template (records_of no_marker_batch) = Some (lit "=852  x") ∧
  Forall (λ record, get_p_values record = Ok []) (records_of no_marker_batch) ∧
  find_missing_852_fields (records_of no_marker_batch) = Ok ∅ ∧
  ∃ first parts output_text st,
    strip no_marker_batch = str_join LDR (first :: parts) ∧
    Forall (λ part, ¬ occurs LDR part) (first :: parts) ∧
    records_of no_marker_batch
    = match strip first with [] => [] | _ :: _ => [strip first] end
      ++ ((λ part, LDR ++ part) <$> filter (λ part, strip part ≠ []) parts) ∧
    process_marc_records no_marker_batch = Ok output_text ∧
    output_text = str_join [LF; LF] (records_of no_marker_batch) ∧
    (output_text = no_marker_batch →
     length (filter (λ record, startswith record LDR = true)
               (records_of no_marker_batch)) ≤ 1 ∧
     Forall (λ record, strip record = record) (records_of no_marker_batch)) ∧
    get_processing_stats no_marker_batch output_text = Ok st ∧
    added_fields st = 0%Z.
Proof.
  assert (get_852_field_template (records_of no_marker_batch)
          = Some (lit "=852  x")) as Ht by (vm_compute; reflexivity).
  assert (Forall (λ record, get_p_values record = Ok [])
            (records_of no_marker_batch)) as Hnone.
  { replace (records_of no_marker_batch)
      with [nl ["=LDR a"; "=852  x"; ""; ""]%string; lit "=LDR b"]
      by (vm_compute; reflexivity).
    repeat (constructor; [vm_compute; reflexivity|]). constructor. }
  split; [exact Ht|]. split; [exact Hnone|].
  exact (no_markers_records_rejoined no_marker_batch _ Ht Hnone).
Defined.

(** C5 fails as stated: the output of a batch of two records without
    marker is not the input, which gets one more blank line between the
    records; and an "=LDR" that only white space follows is dropped. *)
Lemma no_markers_output_differs :
  (get_852_field_template (records_of no_marker_batch)
   = Some (lit "=852  x") ∧
   Forall (λ record, get_p_values record = Ok [])
     (records_of no_marker_batch) ∧
   find_missing_852_fields (records_of no_marker_batch) = Ok ∅ ∧
   ∃ output_text,
     process_marc_records no_marker_batch = Ok output_text ∧
     output_text ≠ no_marker_batch) ∧
  (get_852_field_template (records_of empty_leaders)
   = Some (lit "=852  x") ∧
   Forall (λ record, get_p_values record = Ok []) (records_of empty_leaders) ∧
   process_marc_records empty_leaders
   = Ok (nl ["=LDR a"; "=852  x"]%string)).
Proof.
  split.
  - split_and!; [vm_compute; reflexivity| |vm_compute; reflexivity|].
    { replace (records_of no_marker_batch)
        with [nl ["=LDR a"; "=852  x"; ""; ""]%string; lit "=LDR b"]
        by (vm_compute; reflexivity).
      repeat (constructor; [vm_compute; reflexivity|]). constructor. }
    eexists. split; [vm_compute; reflexivity|].
    intros E. discriminate E.
  - split_and!; [vm_compute; reflexivity| |vm_compute; reflexivity].
    replace (records_of empty_leaders)
      with [nl ["=LDR a"; "=852  x"]%string] by (vm_compute; reflexivity).
    repeat (constructor; [vm_compute; reflexivity|]). constructor.
Qed.

(** C6.  An input without any "=852" is returned as it is, and the
    statistics report no added field. *)
Theorem no_template_output_unchanged input_text :
  count_852 input_text = 0%Z →
  ∃ output_text st,
    process_marc_records input_text = Ok output_text ∧
    output_text = input_text ∧
    get_processing_stats input_text output_text = Ok st ∧
    added_fields st = 0%Z.
Proof.
  intros H0. rewrite count_852_occ in H0.
  exists input_text.
  destruct (count_records_Ok input_text) as [n Hn].
  eexists. split_and!.
  - rewrite process_marc_records_Ok, no_header_no_template by lia.
    by destruct (records_of input_text).
  - done.
  - unfold get_processing_stats. rewrite Hn. simpl. done.
  - simpl. lia.
Qed.

Lemma no_template_output_unchanged_witness :
  count_852 (nl ["=LDR a"; "=245  t"; ""; "=LDR b"; "=653  s"]%string) = 0%Z ∧
  ∃ output_text st,
    process_marc_records (nl ["=LDR a"; "=245  t"; ""; "=LDR b"; "=653  s"]%string)
    = Ok output_text ∧
    output_text = nl ["=LDR a"; "=245  t"; ""; "=LDR b"; "=653  s"]%string ∧
    get_processing_stats
      (nl ["=LDR a"; "=245  t"; ""; "=LDR b"; "=653  s"]%string) output_text
    = Ok st ∧
    added_fields st = 0%Z.
Proof.
  split; [vm_compute; reflexivity|].
  apply no_template_output_unchanged. vm_compute. reflexivity.
Defined.

(** C7.  With values to add and a template, the new fields are inserted
    together, in the order of the values, at one line index [k]: the
    index of the first line, the first one apart, that begins with "=LDR",
    when there is one; otherwise the index after the last line that
    begins with "=653", when there is one; otherwise the end of the
    record. *)
Theorem insertion_placement record missing_values template :
  missing_values ≠ [] → template ≠ [] →
  let lines := splitlines record in
  ∃ k,
    add_missing_852_fields record missing_values (Some template)
    = str_join [LF]
        (take k lines ++ (new_852 template <$> missing_values) ++ drop k lines) ∧
    (∀ i, inner_record_start lines i →
          (∀ j, j < i → ¬ inner_record_start lines j) → k = i) ∧
    ((∀ i, ¬ inner_record_start lines i) →
     (∀ i, subject_line lines i →
           (∀ j, i < j → ¬ subject_line lines j) → k = i + 1) ∧
     ((∀ i, ¬ subject_line lines i) → k = length lines)).
Proof.
  intros Hvs Ht lines.
  exists (find_insert_index 0 lines (length lines)). split.
  - unfold add_missing_852_fields.
    destruct missing_values as [|v vs]; [done|].
    destruct template as [|c t]; [done|].
    fold lines. by rewrite append_fields, <-app_assoc.
  - destruct (find_insert_index_spec lines 0 (length lines)) as [H1 H2].
    assert (∀ b : bool, b ≠ true → b = false) as Hb by by intros [].
    split.
    + intros i (Hi & line & Hline & HL) Hfirst.
      apply (H1 i line Hline HL); [done|].
      intros j line' Hj Hline' Hpos. apply Hb. intros HL'.
      apply (Hfirst j Hj). split; [done|]. by exists line'.
    + intros HnoL. destruct H2 as [H2 H3].
      { intros j line' Hj Hpos. apply Hb. intros HL'.
        apply (HnoL j). split; [done|]. by exists line'. }
      split.
      * intros i (line & Hline & Hs) Hlast.
        apply (H2 i line Hline Hs).
        intros j line' Hij Hj. apply Hb. intros Hs'.
        apply (Hlast j Hij). by exists line'.
      * intros Hno. apply H3. intros j line' Hj. apply Hb. intros Hs'.
        apply (Hno j). by exists line'.
Qed.

Lemma insertion_placement_witness :
  [7%Z; 8%Z] ≠ [] ∧ lit "=852  \\$p1$hX" ≠ [] ∧
  ∃ k,
    add_missing_852_fields subject_record [7%Z; 8%Z]
      (Some (lit "=852  \\$p1$hX"))
    = str_join [LF]
        (take k (splitlines subject_record)
         ++ (new_852 (lit "=852  \\$p1$hX") <$> [7%Z; 8%Z])
         ++ drop k (splitlines subject_record)) ∧
    (∀ i, inner_record_start (splitlines subject_record) i →
          (∀ j, j < i → ¬ inner_record_start (splitlines subject_record) j) →
          k = i) ∧
    ((∀ i, ¬ inner_record_start (splitlines subject_record) i) →
     (∀ i, subject_line (splitlines subject_record) i →
           (∀ j, i < j → ¬ subject_line (splitlines subject_record) j) →
           k = i + 1) ∧
     ((∀ i, ¬ subject_line (splitlines subject_record) i) →
      k = length (splitlines subject_record))).
Proof.
  split; [discriminate|]. split; [discriminate|].
  apply (insertion_placement subject_record [7%Z; 8%Z]
           (lit "=852  \\$p1$hX")); discriminate.
Defined.

(** C8.  The output never has fewer "=852" than the input: the
    statistics' [added_fields] is not negative. *)
Theorem field_count_monotonic input_text :
  ∃ output_text st,
    process_marc_records input_text = Ok output_text ∧
    get_processing_stats input_text output_text = Ok st ∧
    (original_852_fields st ≤ processed_852_fields st)%Z ∧
    (0 ≤ added_fields st)%Z.
Proof.
  pose proof (process_marc_records_Ok input_text) as Hp.
  destruct (process_marc_records input_text) as [output_text|] eqn:Eo; [|done].
  clear Hp. rename Eo into Hp.
  pose proof (occ_process_marc_records _ _ Hp) as Hocc.
  destruct (count_records_Ok input_text) as [n Hn].
  destruct (count_records_Ok output_text) as [n' Hn'].
  exists output_text. eexists. split_and!.
  - done.
  - unfold get_processing_stats. rewrite Hn, Hn'. simpl. done.
  - simpl. rewrite !count_852_occ. lia.
  - simpl. rewrite !count_852_occ. lia.
Qed.

Lemma field_count_monotonic_witness :
  ∃ output_text st,
    process_marc_records gap_run = Ok output_text ∧
    get_processing_stats gap_run output_text = Ok st ∧
    (original_852_fields st ≤ processed_852_fields st)%Z ∧
    (0 ≤ added_fields st)%Z.
Proof. exact (field_count_monotonic gap_run). Defined.

(** C9, as the code has it.  [process_marc_records] returns a text
    exactly on the inputs that stay within the limits of the interpreter:
    every run of digits read as a marker and every value assigned by gap
    detection has at most [max_str_digits] digits (or that limit is
    switched off), and no gap between consecutive records has more than
    [maxsize] values.  On every other input it raises.  When it returns,
    the text is the one the interpreter without limits returns, so two
    invocations on equal inputs that return, under whatever limits,
    return equal texts. *)
Theorem process_total_within_limits max_str_digits maxsize input_text :
  (within_limits max_str_digits maxsize input_text ↔
   ∃ output_text,
     Limited.process_marc_records max_str_digits maxsize input_text
     = Ok output_text) ∧
  ∀ output_text,
    Limited.process_marc_records max_str_digits maxsize input_text
    = Ok output_text →
    process_marc_records input_text = Ok output_text ∧
    ∀ max_str_digits' maxsize' input_text' output_text',
      input_text' = input_text →
      Limited.process_marc_records max_str_digits' maxsize' input_text'
      = Ok output_text' →
      output_text' = output_text.
Proof.
  split.
  - split.
    + intros H. rewrite (limited_process_marc_records _ _ _ H).
      eexists. apply process_marc_records_Ok.
    + intros [output_text H]. by eapply limited_process_marc_records_fit.
  - intros output_text H.
    pose proof (limited_process_marc_records_fit _ _ _ _ H) as Hfit.
    rewrite (limited_process_marc_records _ _ _ Hfit) in H.
    split; [exact H|].
    intros max_str_digits' maxsize' ? output_text' -> H'.
    pose proof (limited_process_marc_records_fit _ _ _ _ H') as Hfit'.
    rewrite (limited_process_marc_records _ _ _ Hfit') in H'. congruence.
Qed.

Lemma process_total_within_limits_witness :
  within_limits default_max_str_digits default_maxsize gap_run ∧
  ∃ output_text,
    Limited.process_marc_records default_max_str_digits default_maxsize
      gap_run = Ok output_text ∧
    process_marc_records gap_run = Ok output_text.
Proof.
  assert (records_of gap_run
          = [nl ["=LDR a"; "=852  $p1"; ""]%string; nl ["=LDR b"; ""]%string;
             nl ["=LDR c"; ""]%string; nl ["=LDR d"; "=852  $p5"]%string])
    as E by (vm_compute; reflexivity).
  assert (within_limits default_max_str_digits default_maxsize gap_run)
    as Hfit.
  { unfold within_limits. rewrite E. split_and!.
    - repeat (constructor; [vm_compute; repeat constructor; lia|]).
      constructor.
    - replace (missing_of _)
        with ({[ 1 := [2%Z]; 2 := [2%Z] ]} : gmap nat (list Z))
        by (vm_compute; reflexivity).
      intros i vs Hi.
      apply lookup_insert_Some in Hi as [[<- <-]|[_ Hi]];
        [|apply lookup_singleton_Some in Hi as [<- <-]];
        (constructor; [|constructor]); intros [_ H]; vm_compute in H; lia.
    - intros i cur next last first Hi Hn [Hl _] [Hf _]. exfalso.
      destruct i as [|[|[|[|i]]]]; try done;
        injection Hi as <-; injection Hn as <-;
        vm_compute in Hl, Hf;
        first [by apply elem_of_nil in Hl|by apply elem_of_nil in Hf]. }
  split; [exact Hfit|].
  destruct (process_total_within_limits default_max_str_digits
              default_maxsize gap_run) as [Hiff Hsame].
  destruct (proj1 Hiff Hfit) as [output_text H].
  exists output_text. split; [exact H|]. by apply Hsame.
Defined.

(** C9 fails as stated: with the limits of a 64-bit interpreter, a marker
    of 4301 digits makes [int] raise, a marker of 4300 nines before a
    record without marker makes [str] raise on the value assigned to it,
    and a gap of [2^63] values makes [list(range(..))] raise; and with
    the limit on digits switched off the first input is returned. *)
Lemma process_raises_beyond_limits :
  Limited.process_marc_records default_max_str_digits default_maxsize
    long_marker = Raise ValueError ∧
  Limited.process_marc_records default_max_str_digits default_maxsize
    long_value = Raise ValueError ∧
  Limited.process_marc_records default_max_str_digits default_maxsize
    wide_gap = Raise OverflowError ∧
  Limited.process_marc_records 0 default_maxsize long_marker
  = Ok long_marker.
Proof. split_and!; vm_compute; reflexivity. Qed.

(** * Further properties of [app.py] *)

(** ** The template *)

(** X1.  [get_852_field_template] finds no template exactly when no record
    of the batch has an "=852" followed by a white-space character. *)
Theorem template_none_iff_no_field records :
  get_852_field_template records = None ↔
  Forall (λ record, ¬ has_852_field record) records.
Proof.
  induction records as [|r records IH]; simpl; [done|].
  destruct (search re_852_line r) as [m|] eqn:E.
  - split; [done|]. intros [H _]%Forall_cons.
    apply search_852_line_None in H. congruence.
  - rewrite IH. split.
    + intros H. constructor; [by apply search_852_line_None|done].
    + by intros [_ H]%Forall_cons.
Qed.

(** X2.  The template is taken from the first record that has such a
    field, at the first place of that record where one starts: it is the
    header, the white space after it, and the text up to the end of the
    line (the white-space run may itself span line boundaries). *)
Theorem template_is_first_field_line records t :
  get_852_field_template records = Some t →
  ∃ before record after pre ws tail post,
    records = before ++ record :: after ∧
    Forall (λ r, ¬ has_852_field r) before ∧
    record = pre ++ t ++ post ∧
    (∀ pre1 pre2, pre = pre1 ++ pre2 → pre2 ≠ [] →
       ¬ field_start (pre2 ++ t ++ post)) ∧
    t = lit "=852" ++ ws ++ tail ∧
    ws ≠ [] ∧ Forall (λ c, is_space c = true) ws ∧
    not_headed is_space tail ∧ Forall (λ c, c ≠ LF) tail ∧
    (post = [] ∨ ∃ post', post = LF :: post').
Proof.
  intros (before & record & after & m & -> & Hb & Hm & ->)
    %get_852_field_template_first.
  apply search_first in Hm as (pre & rest & -> & Hm & Hfirst).
  apply rmatch_852_line_sound in Hm
    as (ws & tail & post & -> & Hg & Hne & Hws & Htl & Htail & Hpost).
  exists before, (pre ++ lit "=852" ++ ws ++ tail ++ post), after,
    pre, ws, tail, post.
  rewrite Hg. split_and!; try done.
  - by rewrite <-!app_assoc.
  - intros pre1 pre2 E Hne2. apply rmatch_852_line_None.
    rewrite <-!app_assoc. by apply (Hfirst pre1).
Qed.

Lemma template_is_first_field_line_witness :
  get_852_field_template template_batch = Some (lit "=852  $p1 z") ∧
  ∃ before record after pre ws tail post,
    template_batch = before ++ record :: after ∧
    Forall (λ r, ¬ has_852_field r) before ∧
    record = pre ++ lit "=852  $p1 z" ++ post ∧
    (∀ pre1 pre2, pre = pre1 ++ pre2 → pre2 ≠ [] →
       ¬ field_start (pre2 ++ lit "=852  $p1 z" ++ post)) ∧
    lit "=852  $p1 z" = lit "=852" ++ ws ++ tail ∧
    ws ≠ [] ∧ Forall (λ c, is_space c = true) ws ∧
    not_headed is_space tail ∧ Forall (λ c, c ≠ LF) tail ∧
    (post = [] ∨ ∃ post', post = LF :: post').
Proof.
  split; [vm_compute; reflexivity|].
  apply (template_is_first_field_line template_batch (lit "=852  $p1 z")).
  vm_compute. reflexivity.
Defined.

(** ** The record list *)

(** X3.  Every record [process_marc_records] works on has a
    non-white-space character; every record but possibly the first
    begins with "=LDR"; and "=LDR" occurs in a record at its start only.
    So no line of a record other than its first begins with "=LDR": the
    scan for the insertion point never stops at an inner record start. *)
Theorem records_have_LDR_at_start_only input_text i record :
  records_of input_text !! i = Some record →
  strip record ≠ [] ∧
  (0 < i → startswith record LDR = true) ∧
  LDR_at_start_only record ∧
  (∀ j, ¬ inner_record_start (splitlines record) j).
Proof.
  intros Hi.
  pose proof (records_of_LDR_at_start_only _ _ _ Hi) as Hstart.
  split_and!; [| |done|].
  - apply records_of_elem in Hi as [(_ & Hne & _)|(part & -> & _ & _)];
      [done|apply strip_LDR_nonempty].
  - intros Hpos.
    apply records_of_elem in Hi as [(-> & _)|(part & -> & _)]; [lia|].
    apply startswith_app. by exists part.
  - intros j (Hj & line & Hline & [rest ->]%startswith_app).
    apply splitlines_lookup in Hline as (pre & post & E & Hpre).
    rewrite <-app_assoc in E. apply Hstart in E. by apply Hpre.
Qed.

Lemma records_have_LDR_at_start_only_witness :
  records_of gap_run !! 1 = Some (nl ["=LDR b"; ""]%string) ∧
  strip (nl ["=LDR b"; ""]%string) ≠ [] ∧
  (0 < 1 → startswith (nl ["=LDR b"; ""]%string) LDR = true) ∧
  LDR_at_start_only (nl ["=LDR b"; ""]%string) ∧
  (∀ j, ¬ inner_record_start (splitlines (nl ["=LDR b"; ""]%string)) j).
Proof.
  split; [vm_compute; reflexivity|].
  apply (records_have_LDR_at_start_only gap_run 1). vm_compute. reflexivity.
Defined.

(** ** The new fields *)

(** X4.  A new field is the template with the digits of its "$p"
    sub-field replaced by the decimal form of the missing value, when
    "$p" is the first sub-field of the template; the text after it is
    treated in the same way, and is copied unchanged when it has no "$p"
    followed by a digit. *)
Theorem new_field_is_template_with_value ws mid ds rest v :
  p_field_ok ws mid ds → not_headed is_digit rest →
  new_852 (p_field ws mid ds ++ rest) v
  = p_field ws mid (str_of_int v) ++ new_852 rest v ∧
  (search re_p_subfield rest = None → new_852 rest v = rest).
Proof.
  intros Hok Hrest. split; [by apply new_852_p_field|].
  apply sub_no_marker.
Qed.

Lemma new_field_is_template_with_value_witness :
  p_field_ok (lit "  ") (lit "\\") (lit "1") ∧
  not_headed is_digit (lit "$hX") ∧
  new_852 (p_field (lit "  ") (lit "\\") (lit "1") ++ lit "$hX") 27
  = p_field (lit "  ") (lit "\\") (str_of_int 27) ++ new_852 (lit "$hX") 27 ∧
  (search re_p_subfield (lit "$hX") = None →
   new_852 (lit "$hX") 27 = lit "$hX").
Proof.
  assert (p_field_ok (lit "  ") (lit "\\") (lit "1")) as Hok.
  { split; [discriminate|repeat constructor|repeat constructor; discriminate
           |discriminate|repeat constructor]. }
  split; [exact Hok|]. split; [reflexivity|].
  apply (new_field_is_template_with_value
           (lit "  ") (lit "\\") (lit "1") (lit "$hX") 27 Hok). reflexivity.
Defined.

(** X5.  After the insertion the record has every value it was given
    among its markers, when "$p" is the first sub-field of the template
    and the values are not negative. *)
Theorem inserted_fields_carry_their_values record vs ws mid ds rest v :
  p_field_ok ws mid ds → not_headed is_digit rest →
  v ∈ vs → (0 ≤ v)%Z →
  ∃ p_values,
    get_p_values (add_missing_852_fields record vs
                    (Some (p_field ws mid ds ++ rest))) = Ok p_values ∧
    v ∈ p_values.
Proof.
  intros Hok Hrest Hv Hpos. eexists. split; [apply get_p_values_markers|].
  by apply markers_inserted.
Qed.

Lemma inserted_fields_carry_their_values_witness :
  p_field_ok (lit "  ") (lit "\\") (lit "1") ∧
  not_headed is_digit (lit "$hX") ∧
  8%Z ∈ [7%Z; 8%Z] ∧ (0 ≤ 8)%Z ∧
  ∃ p_values,
    get_p_values (add_missing_852_fields subject_record [7%Z; 8%Z]
                    (Some (p_field (lit "  ") (lit "\\") (lit "1")
                           ++ lit "$hX"))) = Ok p_values ∧
    8%Z ∈ p_values.
Proof.
  assert (p_field_ok (lit "  ") (lit "\\") (lit "1")) as Hok.
  { split; [discriminate|repeat constructor|repeat constructor; discriminate
           |discriminate|repeat constructor]. }
  assert (8%Z ∈ [7%Z; 8%Z]) as Hin by repeat constructor.
  split; [exact Hok|]. split; [reflexivity|]. split; [exact Hin|].
  split; [lia|].
  apply (inserted_fields_carry_their_values subject_record [7%Z; 8%Z]
           (lit "  ") (lit "\\") (lit "1") (lit "$hX") 8 Hok);
    [reflexivity|exact Hin|lia].
Defined.

(** ** Gap detection *)

(** X6.  Every entry of the dictionary belongs to a record of the batch,
    and is a non-empty, strictly increasing list of values that are not
    negative and that the record does not carry already. *)
Theorem missing_fields_entries_well_formed records m i vs :
  find_missing_852_fields records = Ok m → m !! i = Some vs →
  ∃ record,
    records !! i = Some record ∧
    vs ≠ [] ∧ Forall (λ v, (0 ≤ v)%Z) vs ∧ StronglySorted Z.lt vs ∧
    Forall (λ v, v ∉ markers record) vs.
Proof.
  intros Hm Hi.
  destruct (missing_entry_nonneg records m i vs Hm Hi) as [Hne Hnn].
  destruct (missing_entry records m i vs Hm Hi) as (record & Hrec & [H|H]);
    exists record; (split_and!; [done..| |]).
  - destruct H as (_ & first & _ & ->). repeat constructor.
  - destruct H as (Hmk & first & _ & ->). rewrite Hmk.
    repeat constructor. apply not_elem_of_nil.
  - destruct H as (x & l & y & l' & next & _ & _ & _ & -> & _).
    apply range_from_sorted.
  - destruct H as (x & l & y & l' & next & Hmk & _ & _ & -> & _).
    apply Forall_forall. intros z [Hz _]%elem_of_range_from Hin.
    destruct (foldl_max_largest x l) as [_ Hall]. rewrite <-Hmk in Hall.
    apply (proj1 (Forall_forall _ _) Hall) in Hin. lia.
Qed.

Lemma missing_fields_entries_well_formed_witness :
  find_missing_852_fields adjacent_gap = Ok {[ 0 := [3%Z; 4%Z] ]} ∧
  ({[ 0 := [3%Z; 4%Z] ]} : gmap nat (list Z)) !! 0 = Some [3%Z; 4%Z] ∧
  ∃ record,
    adjacent_gap !! 0 = Some record ∧
    [3%Z; 4%Z] ≠ [] ∧ Forall (λ v, (0 ≤ v)%Z) [3%Z; 4%Z] ∧
    StronglySorted Z.lt [3%Z; 4%Z] ∧
    Forall (λ v, v ∉ markers record) [3%Z; 4%Z].
Proof.
  assert (find_missing_852_fields adjacent_gap = Ok {[ 0 := [3%Z; 4%Z] ]})
    as Hm by (vm_compute; reflexivity).
  split; [exact Hm|]. split; [reflexivity|].
  apply (missing_fields_entries_well_formed adjacent_gap _ 0 [3%Z; 4%Z] Hm).
  reflexivity.
Defined.

(** X7.  Rule A does not take its own assignments into account: two
    consecutive records without marker are given the same value. *)
Theorem adjacent_records_without_marker_get_same_value records i r r' :
  records !! i = Some r → records !! (i + 1) = Some r' →
  get_p_values r = Ok [] → get_p_values r' = Ok [] →
  batch_markers records ≠ [] →
  ∃ m v,
    find_missing_852_fields records = Ok m ∧
    m !! i = Some [v] ∧ m !! (i + 1) = Some [v].
Proof.
  intros Hi Hi' Hr%markers_nil Hr'%markers_nil Hne.
  destruct (find_missing_852_fields_Ok _ Hne)
    as (first & rest & mA & m & _ & _ & _ & _ & Hm & HA & HB).
  exists m, (rule_a_value records first i). split; [done|].
  rewrite !HB, !HA. unfold gap_value. rewrite Hi, Hi', Hr, Hr'.
  split; [done|].
  assert (rule_a_value records first (i + 1) = rule_a_value records first i)
    as ->.
  { unfold rule_a_value, prior_markers.
    rewrite Nat.add_1_r, (take_S_r _ _ _ Hi), fmap_app, concat_app.
    cbn [fmap list_fmap concat]. rewrite Hr, !app_nil_r.
    rewrite (decide_False (P := S i = 0)) by lia.
    case_decide; [by subst|done]. }
  by destruct (records !! (i + 1 + 1)).
Qed.

Lemma adjacent_records_without_marker_get_same_value_witness :
  records_of gap_run !! 1 = Some (nl ["=LDR b"; ""]%string) ∧
  records_of gap_run !! (1 + 1) = Some (nl ["=LDR c"; ""]%string) ∧
  get_p_values (nl ["=LDR b"; ""]%string) = Ok [] ∧
  get_p_values (nl ["=LDR c"; ""]%string) = Ok [] ∧
  batch_markers (records_of gap_run) ≠ [] ∧
  ∃ m v,
    find_missing_852_fields (records_of gap_run) = Ok m ∧
    m !! 1 = Some [v] ∧ m !! (1 + 1) = Some [v].
Proof.
  assert (batch_markers (records_of gap_run) ≠ []) as Hne
    by (vm_compute; discriminate).
  split_and!; [vm_compute; reflexivity..|exact Hne|].
  apply (adjacent_records_without_marker_get_same_value
           (records_of gap_run) 1 (nl ["=LDR b"; ""]%string)
           (nl ["=LDR c"; ""]%string));
    [vm_compute; reflexivity..|exact Hne].
Defined.

(** X8.  A batch in which every record has a marker and no two
    consecutive records are more than one apart gets no assignment, and
    processing adds no field to it: the output is the records of the
    input joined by a blank line. *)
Theorem contiguous_batch_gets_no_field input_text :
  Forall (λ record, markers record ≠ []) (records_of input_text) →
  (∀ i cur next last first,
     records_of input_text !! i = Some cur →
     records_of input_text !! (i + 1) = Some next →
     is_largest last (markers cur) → is_smallest first (markers next) →
     (first - last ≤ 1)%Z) →
  find_missing_852_fields (records_of input_text) = Ok ∅ ∧
  ∃ output_text st,
    process_marc_records input_text = Ok output_text ∧
    (records_of input_text ≠ [] →
     output_text = str_join [LF; LF] (records_of input_text)) ∧
    get_processing_stats input_text output_text = Ok st ∧
    added_fields st = 0%Z.
Proof.
  intros Hall Hgap. set (records := records_of input_text) in *.
  assert (find_missing_852_fields records = Ok ∅) as Hm.
  { destruct (decide (batch_markers records = [])) as [E|Hne].
    { by rewrite find_missing_852_fields_unfold, E. }
    destruct (find_missing_852_fields_Ok _ Hne)
      as (first & rest & mA & m & _ & _ & _ & _ & Hm & HA & HB).
    rewrite Hm. f_equal. apply map_eq. intros j.
    rewrite lookup_empty, HB, HA. unfold gap_value.
    destruct (records !! j) as [r|] eqn:Hj; [|done].
    pose proof (proj1 (Forall_lookup _ _) Hall j r Hj) as Hr.
    destruct (markers r) as [|x l] eqn:Hmk; [done|].
    destruct (records !! (j + 1)) as [r'|] eqn:Hj'; [|done].
    destruct (markers r') as [|y l'] eqn:Hmk'; [done|].
    assert (foldl Z.min y l' - foldl Z.max x l ≤ 1)%Z as Hle.
    { apply (Hgap j r r'); [done..| |].
      - rewrite Hmk. apply foldl_max_largest.
      - rewrite Hmk'. apply foldl_min_smallest. }
    unfold range_from.
    by replace (Z.to_nat (foldl Z.min y l' - (foldl Z.max x l + 1))) with 0
      by lia. }
  split; [done|]. subst records.
  pose proof (process_marc_records_Ok input_text) as Hp.
  pose proof (total_occ_records_of input_text) as Hocc.
  destruct (count_records_Ok input_text) as [n Hn].
  destruct (records_of input_text) as [|r rs] eqn:E.
  - exists input_text. eexists. split_and!; [done|done| |].
    + unfold get_processing_stats. rewrite Hn. simpl. done.
    + simpl. lia.
  - destruct (get_852_field_template (r :: rs)) as [[|c t]|] eqn:Ht.
    + by apply get_852_field_template_Some in Ht as [? _].
    + unfold missing_of in Hp. rewrite Hm, repaired_empty in Hp.
      destruct (count_records_Ok (str_join [LF; LF] (r :: rs))) as [n' Hn'].
      exists (str_join [LF; LF] (r :: rs)). eexists. split_and!; [done|done| |].
      * unfold get_processing_stats. rewrite Hn, Hn'. reflexivity.
      * cbn [added_fields]. rewrite !count_852_occ, occ_join_blank_line. lia.
    + exfalso. apply Forall_cons in Hall as [Hr _].
      simpl in Ht. destruct (search re_852_line r) as [m|] eqn:Hs; [done|].
      apply search_852_line_None in Hs. apply Hs.
      rewrite markers_p_values in Hr.
      destruct (p_values r) as [|v vs] eqn:Ev; [done|].
      assert (v ∈ p_values r) as Hv by (rewrite Ev; left).
      apply p_values_sound in Hv
        as (pre & ws & mid & ds & rest & -> & [Hne Hws _ _ _] & _).
      destruct ws as [|w ws]; [done|]. apply Forall_cons in Hws as [Hw _].
      exists pre, (p_field (w :: ws) mid ds ++ rest). split; [done|].
      exists w, (ws ++ mid ++ lit "$p" ++ ds ++ rest).
      split; [|done]. unfold p_field. cbn. by rewrite <-!app_assoc.
Qed.

Lemma contiguous_batch_gets_no_field_witness :
  Forall (λ record, markers record ≠ []) (records_of two_clean_records) ∧
  (∀ i cur next last first,
     records_of two_clean_records !! i = Some cur →
     records_of two_clean_records !! (i + 1) = Some next →
     is_largest last (markers cur) → is_smallest first (markers next) →
     (first - last ≤ 1)%Z) ∧
  find_missing_852_fields (records_of two_clean_records) = Ok ∅ ∧
  ∃ output_text st,
    process_marc_records two_clean_records = Ok output_text ∧
    (records_of two_clean_records ≠ [] →
     output_text = str_join [LF; LF] (records_of two_clean_records)) ∧
    get_processing_stats two_clean_records output_text = Ok st ∧
    added_fields st = 0%Z.
Proof.
  assert (records_of two_clean_records
          = [nl ["=LDR a"; "=852  $p1"; ""; ""]%string;
             nl ["=LDR b"; "=852  $p2"]%string]) as E
    by (vm_compute; reflexivity).
  assert (Forall (λ record, markers record ≠ [])
            (records_of two_clean_records)) as Hall.
  { rewrite E. repeat (constructor; [vm_compute; discriminate|]). constructor. }
  assert (∀ i cur next last first,
     records_of two_clean_records !! i = Some cur →
     records_of two_clean_records !! (i + 1) = Some next →
     is_largest last (markers cur) → is_smallest first (markers next) →
     (first - last ≤ 1)%Z) as Hgap.
  { rewrite E. intros i cur next last first Hi Hn [Hl _] [Hf _].
    destruct i as [|[|i]]; [|done..].
    injection Hi as <-. injection Hn as <-.
    replace (markers (nl ["=LDR a"; "=852  $p1"; ""; ""]%string))
      with [1%Z] in Hl by (vm_compute; reflexivity).
    replace (markers (nl ["=LDR b"; "=852  $p2"]%string))
      with [2%Z] in Hf by (vm_compute; reflexivity).
    apply list_elem_of_singleton in Hl as ->.
    apply list_elem_of_singleton in Hf as ->. lia. }
  split; [exact Hall|]. split; [exact Hgap|].
  exact (contiguous_batch_gets_no_field two_clean_records Hall Hgap).
Defined.

(** ** The statistics *)

(** X9.  When a template is found, the statistics' [added_fields] is the
    number of values in the dictionary of missing fields, multiplied by
    the number of "=852" in the template (one, unless the template line
    holds several headers). *)
Theorem added_fields_counts_assigned_values input_text template :
  get_852_field_template (records_of input_text) = Some template →
  ∃ m output_text st,
    find_missing_852_fields (records_of input_text) = Ok m ∧
    process_marc_records input_text = Ok output_text ∧
    get_processing_stats input_text output_text = Ok st ∧
    added_fields st = (count_852 template * Z.of_nat (assigned_values m))%Z.
Proof.
  intros Ht.
  pose proof (find_missing_852_fields_missing_of (records_of input_text)) as Hm.
  pose proof (total_occ_repaired_exact _ _ template Hm) as Hocc.
  rewrite total_occ_records_of in Hocc.
  pose proof (process_marc_records_Ok input_text) as Hp.
  rewrite Ht in Hp.
  destruct (count_records_Ok input_text) as [n Hn].
  destruct (count_records_Ok
              (str_join [LF; LF]
                 (repaired (missing_of (records_of input_text)) template
                    (records_of input_text)))) as [n' Hn'].
  exists (missing_of (records_of input_text)),
    (str_join [LF; LF]
       (repaired (missing_of (records_of input_text)) template
          (records_of input_text))).
  eexists. split_and!; [done| | |].
  - destruct (records_of input_text); [done|].
    apply get_852_field_template_Some in Ht as [Ht _]. by destruct template.
  - unfold get_processing_stats. rewrite Hn, Hn'. reflexivity.
  - cbn [added_fields]. rewrite !count_852_occ, occ_join_blank_line. lia.
Qed.

Lemma added_fields_counts_assigned_values_witness :
  get_852_field_template (records_of gap_run) = Some (lit "=852  $p1") ∧
  ∃ m output_text st,
    find_missing_852_fields (records_of gap_run) = Ok m ∧
    process_marc_records gap_run = Ok output_text ∧
    get_processing_stats gap_run output_text = Ok st ∧
    added_fields st
    = (count_852 (lit "=852  $p1") * Z.of_nat (assigned_values m))%Z.
Proof.
  split; [vm_compute; reflexivity|].
  apply (added_fields_counts_assigned_values gap_run (lit "=852  $p1")).
  vm_compute. reflexivity.
Defined.

(** X10.  A text of white space only, the empty text included, is
    returned as it is, and all its statistics are zero. *)
Theorem blank_input_is_returned input_text :
  strip input_text = [] →
  process_marc_records input_text = Ok input_text ∧
  get_processing_stats input_text input_text
  = Ok {| original_records := 0; processed_records := 0;
          original_852_fields := 0; processed_852_fields := 0;
          added_fields := 0 |}.
Proof.
  intros E. split.
  - unfold process_marc_records, split_records. rewrite E. reflexivity.
  - unfold get_processing_stats. rewrite (count_records_blank _ E).
    cbn [mbind result_bind]. rewrite count_852_occ, (strip_nil_occ _ E).
    reflexivity.
Qed.

Lemma blank_input_is_returned_witness :
  strip (nl [" "; ""; "  "]%string) = [] ∧
  process_marc_records (nl [" "; ""; "  "]%string)
  = Ok (nl [" "; ""; "  "]%string) ∧
  get_processing_stats (nl [" "; ""; "  "]%string) (nl [" "; ""; "  "]%string)
  = Ok {| original_records := 0; processed_records := 0;
          original_852_fields := 0; processed_852_fields := 0;
          added_fields := 0 |}.
Proof.
  split; [reflexivity|].
  apply (blank_input_is_returned (nl [" "; ""; "  "]%string)). reflexivity.
Defined.

(** X11.  When a template is found, the statistics' [processed_records]
    is the number of records the pass worked on: in the output every
    record stands after a blank line, begins with "=LDR" (the first one
    apart), and holds no other "=LDR". *)
Theorem processed_records_counts_the_records input_text template :
  get_852_field_template (records_of input_text) = Some template →
  ∃ output_text st,
    process_marc_records input_text = Ok output_text ∧
    get_processing_stats input_text output_text = Ok st ∧
    processed_records st = Z.of_nat (length (records_of input_text)).
Proof.
  intros Ht.
  pose proof (process_marc_records_Ok input_text) as Hp. rewrite Ht in Hp.
  destruct (count_records_Ok input_text) as [n Hn].
  assert (records_of input_text ≠ []) as Hne.
  { intros E. by rewrite E in Ht. }
  assert (count_records
            (str_join [LF; LF]
               (repaired (missing_of (records_of input_text)) template
                  (records_of input_text)))
          = Ok (Z.of_nat (length (records_of input_text)))) as Hn'.
  { rewrite count_records_join.
    - unfold repaired. by rewrite length_imap.
    - unfold repaired. intros E. apply (f_equal length) in E.
      rewrite length_imap in E. by destruct (records_of input_text).
    - intros j r. by apply repaired_shape. }
  exists (str_join [LF; LF]
            (repaired (missing_of (records_of input_text)) template
               (records_of input_text))).
  eexists. split_and!.
  - destruct (records_of input_text); [done|].
    apply get_852_field_template_Some in Ht as [Ht _]. by destruct template.
  - unfold get_processing_stats. rewrite Hn, Hn'. reflexivity.
  - done.
Qed.

Lemma processed_records_counts_the_records_witness :
  get_852_field_template (records_of gap_run) = Some (lit "=852  $p1") ∧
  ∃ output_text st,
    process_marc_records gap_run = Ok output_text ∧
    get_processing_stats gap_run output_text = Ok st ∧
    processed_records st = Z.of_nat (length (records_of gap_run)).
Proof.
  split; [vm_compute; reflexivity|].
  apply (processed_records_counts_the_records gap_run (lit "=852  $p1")).
  vm_compute. reflexivity.
Defined.

(** ** The whole pass *)

(** X12.  When "$p" is the first sub-field of the template, no record is
    left without marker: the output is as many records as the input had,
    joined by a blank line, and [get_p_values] finds a value in each of
    them. *)
Theorem every_record_has_a_marker_after_the_pass input_text ws mid ds rest :
  get_852_field_template (records_of input_text)
  = Some (p_field ws mid ds ++ rest) →
  p_field_ok ws mid ds → not_headed is_digit rest →
  ∃ records,
    process_marc_records input_text = Ok (str_join [LF; LF] records) ∧
    length records = length (records_of input_text) ∧
    Forall (λ record, get_p_values record ≠ Ok []) records.
Proof.
  intros Ht Hok Hrest.
  pose proof (template_batch_markers _ _ _ _ _ Ht Hok Hrest) as Hne.
  pose proof (find_missing_852_fields_missing_of (records_of input_text)) as Hm.
  exists (repaired (missing_of (records_of input_text))
            (p_field ws mid ds ++ rest) (records_of input_text)).
  split_and!.
  - rewrite process_marc_records_Ok, Ht.
    destruct (records_of input_text); [done|]. done.
  - unfold repaired. by rewrite length_imap.
  - apply Forall_lookup. intros j r' Hj. rewrite markers_nil.
    unfold repaired in Hj. rewrite list_lookup_imap in Hj.
    apply fmap_Some in Hj as (r & Hr & ->).
    destruct (missing_of (records_of input_text) !! j) as [vs|] eqn:E.
    + destruct (missing_entry_nonneg _ _ j vs Hm E) as [Hvs Hnn].
      destruct vs as [|v vs]; [done|]. apply Forall_cons in Hnn as [Hv _].
      intros Hnil.
      assert (v ∈ markers (add_missing_852_fields r (v :: vs)
                             (Some (p_field ws mid ds ++ rest)))) as Hin
        by (apply markers_inserted; [done..|left|done]).
      rewrite Hnil in Hin. by apply elem_of_nil in Hin.
    + by apply (missing_none_markers (records_of input_text) _ j r Hm).
Qed.

Lemma every_record_has_a_marker_after_the_pass_witness :
  get_852_field_template (records_of gap_run)
  = Some (p_field (lit "  ") [] (lit "1") ++ []) ∧
  p_field_ok (lit "  ") [] (lit "1") ∧ not_headed is_digit [] ∧
  ∃ records,
    process_marc_records gap_run = Ok (str_join [LF; LF] records) ∧
    length records = length (records_of gap_run) ∧
    Forall (λ record, get_p_values record ≠ Ok []) records.
Proof.
  assert (p_field_ok (lit "  ") [] (lit "1")) as Hok.
  { split; [discriminate|repeat constructor|constructor
           |discriminate|repeat constructor]. }
  split; [vm_compute; reflexivity|]. split; [exact Hok|].
  split; [exact I|].
  apply (every_record_has_a_marker_after_the_pass gap_run
           (lit "  ") [] (lit "1") []); [vm_compute; reflexivity|exact Hok|exact I].
Defined.
